(** * Batch slide generator: template substitution engine

    Shallow embedding of [utils/pptxProcessor.ts] ([parseCSV],
    [extractKeysFromPPTX], [generateBatch]) and of the parts of [App.tsx]
    that call it ([analyzeFiles], [handleGenerate], [handleDrop],
    [handleRemoveMapping]).

    JavaScript strings are sequences of UTF-16 code units; they are
    modelled as [list N].  The built-ins the program calls
    ([String.prototype.trim], [match], [replace] with the two regular
    expressions of the source, [Array.prototype.find], [new Set]) and
    property reads and writes on plain objects are modelled by the
    functions of module [JS].  An exception is a value [Throw e] of
    [Result]. *)

From Stdlib Require Import NArith Ascii String DecimalString DecimalNat.
From stdpp Require Import base list option gmap.

Local Open Scope N_scope.

(** ** Exceptions *)

Inductive Error : Type :=
| CorruptArchive   (* [JSZip.loadAsync] rejects *)
| MissingSlide     (* the [throw] of [extractKeysFromPPTX] *)
| CsvRejected      (* the parser reports an error *)
| CsvEmpty         (* the [throw] of [analyzeFiles] *)
| TypeError.       (* a call of something that is not a function *)

Inductive Result (A : Type) : Type :=
| Ok (a : A)
| Throw (e : Error).
Arguments Ok {A} a.
Arguments Throw {A} e.

Global Instance Result_ret : MRet Result := fun A a => Ok a.
Global Instance Result_bind : MBind Result := fun A B k m =>
  match m with
  | Ok a => k a
  | Throw e => Throw e
  end.

(** ** JavaScript strings, plain objects and the built-ins used by the
    program *)

Module JS.

Abbreviation jsstring := (list N).

(** A string literal of the source, as code units. *)
Definition lit (s : string) : jsstring :=
  N_of_ascii <$> list_ascii_of_string s.

Definition lbrace : N := 123.
Definition rbrace : N := 125.

(** ECMAScript LineTerminator: LF, CR, LS, PS.  Without the [s] flag the
    dot of a regular expression matches every code unit but these. *)
Definition isLineTerminator (c : N) : bool :=
  (c =? 10) || (c =? 13) || (c =? 8232) || (c =? 8233).

(** ECMAScript WhiteSpace and LineTerminator, the code units removed by
    [String.prototype.trim]. *)
Definition isWhiteSpace (c : N) : bool :=
  (c =? 9) || (c =? 11) || (c =? 12) || (c =? 32) || (c =? 160)
  || (c =? 5760) || ((8192 <=? c) && (c <=? 8202)) || (c =? 8239)
  || (c =? 8287) || (c =? 12288) || (c =? 65279) || isLineTerminator c.

Fixpoint trimStart (s : jsstring) : jsstring :=
  match s with
  | c :: t => if isWhiteSpace c then trimStart t else s
  | [] => []
  end.

Definition trimEnd (s : jsstring) : jsstring := rev (trimStart (rev s)).

Definition trim (s : jsstring) : jsstring := trimEnd (trimStart s).

(** [s.startsWith(p)] and [s.endsWith(p)]. *)
Fixpoint startsWith (p s : jsstring) : bool :=
  match p, s with
  | [], _ => true
  | a :: p', b :: s' => (a =? b) && startsWith p' s'
  | _ :: _, [] => false
  end.

Definition endsWith (p s : jsstring) : bool := startsWith (rev p) (rev s).

(** *** The regular expression [/{{(.*?)}}/g]

    [opens s] and [closes s] test the two-unit delimiters at the head of
    [s].  [lazyCapture t] is the lazy group [(.*?)] followed by [}}]: the
    shortest run of non-terminator code units after which [}}] stands. *)

Definition opens (s : jsstring) : bool :=
  match s with
  | c1 :: c2 :: _ => (c1 =? lbrace) && (c2 =? lbrace)
  | _ => false
  end.

Definition closes (s : jsstring) : bool :=
  match s with
  | c1 :: c2 :: _ => (c1 =? rbrace) && (c2 =? rbrace)
  | _ => false
  end.

Fixpoint lazyCapture (t : jsstring) : option jsstring :=
  if closes t then Some []
  else match t with
       | [] => None
       | c :: t' =>
           if isLineTerminator c then None else cons c <$> lazyCapture t'
       end.

(** A match attempt anchored at the head of [s]; the result is the text
    of capture group 1. *)
Definition matchAt (s : jsstring) : option jsstring :=
  if opens s then lazyCapture (drop 2 s) else None.

(** The text of a whole match with capture [cap]. *)
Definition matchText (cap : jsstring) : jsstring :=
  lit "{{" ++ cap ++ lit "}}".

(** The global scan shared by [match] and [replace]: the subject is cut
    into matches and the code units between them.  After a match the
    scan resumes at its end ([lastIndex]); [skip] counts the code units
    of the current match that are still to be passed over. *)
Inductive Segment : Type :=
| Lit (c : N)
| Tok (cap : jsstring).

Fixpoint scanFrom (skip : nat) (s : jsstring) : list Segment :=
  match s with
  | [] => []
  | c :: t =>
      match skip with
      | S k => scanFrom k t
      | O =>
          match matchAt s with
          | Some cap => Tok cap :: scanFrom (length cap + 3) t
          | None => Lit c :: scanFrom 0 t
          end
      end
  end.

Definition tokenize (s : jsstring) : list Segment := scanFrom 0 s.

Definition segmentText (g : Segment) : jsstring :=
  match g with
  | Lit c => [c]
  | Tok cap => matchText cap
  end.

(** [s.match(/{{(.*?)}}/g)]: the matched texts in order, [null] (here
    [None]) when there is none. *)
Definition regexMatch (s : jsstring) : option (list jsstring) :=
  match omap (fun g => match g with Tok cap => Some (matchText cap) | Lit _ => None end)
             (tokenize s) with
  | [] => None
  | ms => Some ms
  end.

(** [s.replace(/{{(.*?)}}/g, fn)]: the matches are taken from left to
    right, each is replaced by [fn match capture], the rest is copied.
    An exception thrown by [fn] ends the call. *)
Fixpoint replaceSegments (fn : jsstring -> jsstring -> Result jsstring)
    (segs : list Segment) : Result jsstring :=
  match segs with
  | [] => Ok []
  | Lit c :: rest =>
      out ← replaceSegments fn rest; Ok (c :: out)
  | Tok cap :: rest =>
      w ← fn (matchText cap) cap;
      out ← replaceSegments fn rest; Ok (w ++ out)
  end.

Definition regexReplace (fn : jsstring -> jsstring -> Result jsstring)
    (s : jsstring) : Result jsstring :=
  replaceSegments fn (tokenize s).

(** [s.replace(/c/g, rep)] for a single-unit pattern and a replacement
    text without [$]. *)
Definition replaceUnit (c : N) (rep : jsstring) (s : jsstring) : jsstring :=
  s ≫= (fun x => if x =? c then rep else [x]).

(** [m.replace(/{{|}}/g, '')]: every non-overlapping [{{] or [}}], found
    left to right, is deleted. *)
Fixpoint stripBraces (s : jsstring) : jsstring :=
  match s with
  | [] => []
  | c1 :: t1 =>
      match t1 with
      | c2 :: t2 =>
          if ((c1 =? lbrace) && (c2 =? lbrace)) || ((c1 =? rbrace) && (c2 =? rbrace))
          then stripBraces t2
          else c1 :: stripBraces t1
      | [] => [c1]
      end
  end.

(** [Array.from(new Set(xs))]: the distinct elements in order of first
    insertion. *)
Definition setAdd (seen : list jsstring) (x : jsstring) : list jsstring :=
  if decide (x ∈ seen) then seen else seen ++ [x].

Definition arrayFromSet (xs : list jsstring) : list jsstring :=
  foldl setAdd [] xs.

(** [xs.find(p)]: the first element satisfying [p], [undefined] (here
    [None]) when there is none. *)
Fixpoint find {A} (p : A -> bool) (xs : list A) : option A :=
  match xs with
  | [] => None
  | x :: t => if p x then Some x else find p t
  end.

(** Decimal text of a loop index, as template literals interpolate it. *)
Definition numberToString (n : nat) : jsstring :=
  lit (NilZero.string_of_uint (Nat.to_uint n)).

(** *** Plain objects

    A property read [obj[key]] on a plain object finds the own
    properties of the object first and then the members of
    [Object.prototype], which every plain object inherits. *)

Definition protoName : jsstring := lit "__proto__".

Definition objectPrototypeNames : list jsstring :=
  [ lit "constructor"; lit "hasOwnProperty"; lit "isPrototypeOf";
    lit "propertyIsEnumerable"; lit "toLocaleString"; lit "toString";
    lit "valueOf"; lit "__defineGetter__"; lit "__defineSetter__";
    lit "__lookupGetter__"; lit "__lookupSetter__"; protoName ].

Definition isInherited (name : jsstring) : bool :=
  bool_decide (name ∈ objectPrototypeNames).

(** The values the property reads of the program can yield.
    [Builtin name] is what a plain object inherits under [name]: a
    built-in function, and under [__proto__] the prototype object
    itself.  [Arr items] is an array of strings. *)
Inductive Value : Type :=
| Undefined
| Null
| Str (s : jsstring)
| Arr (items : list jsstring)
| Builtin (name : jsstring).

(** ToBoolean. *)
Definition truthy (v : Value) : bool :=
  match v with
  | Undefined | Null | Str [] => false
  | Str (_ :: _) | Arr _ | Builtin _ => true
  end.

(** The source text of a built-in function, which [String] returns for
    it, is fixed by the language up to white space only; it is a
    parameter of the model, given the name of the function. *)
Class Engine : Type := { nativeSource : jsstring -> jsstring }.

(** [items.join(",")]. *)
Fixpoint joinComma (items : list jsstring) : jsstring :=
  match items with
  | [] => []
  | [x] => x
  | x :: rest => x ++ 44 :: joinComma rest
  end.

(** ToPropertyKey, for a value used as the key of a property read.  The
    inherited [constructor] is the function [Object]; the other
    inherited functions are named as the members are. *)
Definition toPropertyKey `{Engine} (v : Value) : jsstring :=
  match v with
  | Undefined => lit "undefined"
  | Null => lit "null"
  | Str s => s
  | Arr items => joinComma items
  | Builtin name =>
      if bool_decide (name = protoName) then lit "[object Object]"
      else if bool_decide (name = lit "constructor") then nativeSource (lit "Object")
      else nativeSource name
  end.

End JS.

Import JS.

(** ** Data model ([types.ts]) *)

(** [CsvRow = { [key: string]: string }] declares every value a string.
    The rows the parser builds hold one string per header and, when a
    record has more fields than there are headers, the surplus fields
    as an array of strings under [__parsed_extra]. *)
Inductive Field : Type :=
| Text (s : jsstring)
| Extra (items : list jsstring).

Definition fieldValue (f : Field) : Value :=
  match f with
  | Text s => Str s
  | Extra items => Arr items
  end.

(** A row object: its own properties in enumeration order, as
    [Object.keys] and [Object.values] list them.  Its prototype is
    [Object.prototype]. *)
Abbreviation CsvRow := (list (jsstring * Field)).

Definition rowOwn (row : CsvRow) (col : jsstring) : option Field :=
  snd <$> JS.find (fun kv => bool_decide (kv.1 = col)) row.

(** [row[col]]. *)
Definition rowGet (row : CsvRow) (col : jsstring) : Value :=
  match rowOwn row col with
  | Some f => fieldValue f
  | None => if isInherited col then Builtin col else Undefined
  end.

Definition objectKeys (row : CsvRow) : list jsstring := fst <$> row.
Definition objectValues (row : CsvRow) : list Field := snd <$> row.

(** [ColumnMapping = Record<string, string | null>]: a plain object
    with its own entries, [Some None] for [null] and [Some (Some col)]
    for a column name.  [inherits] tells whether its prototype is
    [Object.prototype], as for every object literal, or [null], which an
    assignment to [__proto__] can make it. *)
Record ColumnMapping : Type := {
  entries : gmap jsstring (option jsstring);
  inherits : bool
}.

(** [m !! key] is the own entry of [m] under [key]. *)
Global Instance ColumnMapping_lookup :
  Lookup jsstring (option jsstring) ColumnMapping :=
  fun key m => entries m !! key.

(** The object literal with the given entries. *)
Definition plainObject (own : gmap jsstring (option jsstring)) : ColumnMapping :=
  {| entries := own; inherits := true |}.

(** [{}]. *)
Global Instance ColumnMapping_empty : Empty ColumnMapping := plainObject ∅.

(** [mapping[key]]. *)
Definition mappingGet (mapping : ColumnMapping) (key : jsstring) : Value :=
  match mapping !! key with
  | Some (Some col) => Str col
  | Some None => Null
  | None => if inherits mapping && isInherited key then Builtin key else Undefined
  end.

(** [mapping[key] = v].  [__proto__] is an accessor of
    [Object.prototype]: on an object that inherits it the assignment
    calls the setter, which stores no entry, ignores a string and for
    [null] takes the prototype away.  Every other assignment stores an
    own entry. *)
Definition assign (mapping : ColumnMapping) (key : jsstring) (v : option jsstring)
    : ColumnMapping :=
  if bool_decide (key = protoName) && inherits mapping
  then match v with
       | Some _ => mapping
       | None => {| entries := entries mapping; inherits := false |}
       end
  else {| entries := <[key := v]> (entries mapping); inherits := inherits mapping |}.

(** [{ ...prev, [key]: v }]: a new object literal with the own entries
    of [prev] and the entry [key], which a computed key always
    defines. *)
Definition spreadWith (prev : ColumnMapping) (key : jsstring) (v : option jsstring)
    : ColumnMapping :=
  plainObject (<[key := v]> (entries prev)).

Record ProcessingStats : Type := {
  total : nat;
  processed : nat;
  isProcessing : bool;
  isComplete : bool
}.

Record PreviewData : Type := {
  csvHeaders : list jsstring;
  templateKeys : list jsstring;
  rowCount : nat
}.

(** ** The archive library (JSZip), as the program uses it

    A decoded package is represented by its file entries, each with its
    content as text: what [async("string")] returns and what
    [file(path, content)] stores.  Folder entries are not represented:
    they hold no content, [file(path)] never returns them, and their
    names end in a slash, so that none passes the slide filter of
    [generateBatch].  [generateAsync] is abstracted to the package it
    serialises, so a blob is modelled by the archive it encodes. *)

Abbreviation Archive := (gmap jsstring jsstring).

(** [zip.file(path)]: the file entry, [null] (here [None]) when there is
    no file under the path. *)
Definition zipFile (zip : Archive) (path : jsstring) : option jsstring :=
  zip !! path.

(** [zip.file(path, content)]. *)
Definition zipWrite (zip : Archive) (path content : jsstring) : Archive :=
  <[path := content]> zip.

(** [Object.keys(zip.files)], without the folders. *)
Definition zipPaths (zip : Archive) : list jsstring := (map_to_list zip).*1.

(** An uploaded template: bytes that decode to a package, or bytes that
    do not. *)
Inductive TemplateFile : Type :=
| Package (zip : Archive)
| Corrupt.

(** [JSZip.loadAsync]. *)
Definition loadAsync (file : TemplateFile) : Result Archive :=
  match file with
  | Package zip => Ok zip
  | Corrupt => Throw CorruptArchive
  end.

(** ** [pptxProcessor.ts] *)

(** An uploaded CSV file, by what the parser makes of it: [complete]
    with the rows, or [error]. *)
Inductive CsvFile : Type :=
| Parsed (rows : list CsvRow)
| Rejected.

Definition parseCSV (file : CsvFile) : Result (list CsvRow) :=
  match file with
  | Parsed rows => Ok rows
  | Rejected => Throw CsvRejected
  end.

Definition slide1Path : jsstring := lit "ppt/slides/slide1.xml".

(** Lines 35-43 of [extractKeysFromPPTX]: the keys of one text part. *)
Definition extractKeys (slideContent : jsstring) : list jsstring :=
  match regexMatch slideContent with
  | None => []
  | Some matches =>
      arrayFromSet ((fun m => trim (stripBraces m)) <$> matches)
  end.

(** The body of the [try] block. *)
Definition extractKeysTry (file : TemplateFile) : Result (list jsstring) :=
  match loadAsync file with
  | Throw e => Throw e
  | Ok zip =>
      match zipFile zip slide1Path with
      | None => Throw MissingSlide
      | Some slideContent => Ok (extractKeys slideContent)
      end
  end.

Definition extractKeysFromPPTX (file : TemplateFile) : list jsstring :=
  match extractKeysTry file with
  | Ok keys => keys
  | Throw _ => []
  end.

(** The chain of five [replace] calls on a string. *)
Definition escapeXml (value : jsstring) : jsstring :=
  replaceUnit 39 (lit "&apos;")
    (replaceUnit 34 (lit "&quot;")
      (replaceUnit 62 (lit "&gt;")
        (replaceUnit 60 (lit "&lt;")
          (replaceUnit 38 (lit "&amp;") value)))).

(** [v || ""]. *)
Definition orEmpty (v : Value) : Value :=
  if truthy v then v else Str (lit "").

(** [value.replace(...)...] of lines 94-99: only a string has the
    method [replace]; on any other value the call throws. *)
Definition escapeValue (value : Value) : Result jsstring :=
  match value with
  | Str s => Ok (escapeXml s)
  | _ => Throw TypeError
  end.

(** [v !== undefined]. *)
Definition isDefined (v : Value) : bool :=
  match v with
  | Undefined => false
  | _ => true
  end.

(** The callback given to [content.replace(regex, ...)], lines 82-104. *)
Definition replacer `{Engine} (mapping : ColumnMapping) (row : CsvRow)
    (match_ capturedKey : jsstring) : Result jsstring :=
  let cleanKey := trim capturedKey in
  let csvColumnName := mappingGet mapping cleanKey in
  if truthy csvColumnName && isDefined (rowGet row (toPropertyKey csvColumnName))
  then
    let value := orEmpty (rowGet row (toPropertyKey csvColumnName)) in
    escapeValue value
  else Ok match_.

Definition substituteContent `{Engine} (mapping : ColumnMapping) (row : CsvRow)
    (content : jsstring) : Result jsstring :=
  regexReplace (replacer mapping row) content.

Definition isSlidePath (path : jsstring) : bool :=
  startsWith (lit "ppt/slides/slide") path && endsWith (lit ".xml") path.

(** One turn of the loop over [slideFiles]. *)
Definition rewriteSlide `{Engine} (mapping : ColumnMapping) (row : CsvRow)
    (pptxZip : Archive) (slidePath : jsstring) : Result Archive :=
  match zipFile pptxZip slidePath with
  | Some content =>
      content' ← substituteContent mapping row content;
      Ok (zipWrite pptxZip slidePath content')
  | None => Ok pptxZip
  end.

(** The loop over [slideFiles], lines 69-108. *)
Definition rewriteSlides `{Engine} (mapping : ColumnMapping) (row : CsvRow)
    (pptxZip : Archive) : Result Archive :=
  foldl (fun acc slidePath => zip ← acc; rewriteSlide mapping row zip slidePath)
        (Ok pptxZip)
        (filter (fun path => isSlidePath path = true) (zipPaths pptxZip)).

(** The character class [[^a-z0-9]] under the [i] flag. *)
Definition isAlnum (c : N) : bool :=
  ((48 <=? c) && (c <=? 57)) || ((65 <=? c) && (c <=? 90))
  || ((97 <=? c) && (c <=? 122)).

Definition sanitize (v : jsstring) : jsstring :=
  (fun c => if isAlnum c then c else 95) <$> v.

(** [Object.values(row)[0]?.replace(/[^a-z0-9]/gi, '_') || 'generated']:
    the optional call is skipped for a row without values; an array has
    no method [replace]. *)
Definition nameStem (row : CsvRow) : Result jsstring :=
  match head (objectValues row) with
  | None => Ok (lit "generated")
  | Some (Text v) =>
      Ok (match sanitize v with
          | [] => lit "generated"
          | c :: cs => c :: cs
          end)
  | Some (Extra _) => Throw TypeError
  end.

(** Line 114: the name of the [i]-th output (0-based [i]). *)
Definition fileName (i : nat) (row : CsvRow) : Result jsstring :=
  stem ← nameStem row;
  Ok (lit "slide_" ++ numberToString (i + 1) ++ lit "_" ++ stem ++ lit ".pptx").

(** What the run does to the outside, in order: an entry added to
    [masterZip], a call of [onProgress]. *)
Inductive Event : Type :=
| FileAdded (name : jsstring) (blob : Archive)
| ProgressCall (current total : nat).

Record Run : Type := {
  masterZip : gmap jsstring Archive;
  events : list Event
}.

(** Computations over the run state that may throw; the state reached
    when an exception is thrown is kept. *)
Definition Eff (A : Type) : Type := Run -> Result A * Run.

Global Instance Eff_ret : MRet Eff := fun A a st => (Ok a, st).
Global Instance Eff_bind : MBind Eff := fun A B k m st =>
  match m st with
  | (Ok a, st') => k a st'
  | (Throw e, st') => (Throw e, st')
  end.

Definition await {A} (r : Result A) : Eff A := fun st => (r, st).

Definition masterFile (name : jsstring) (blob : Archive) : Eff unit :=
  fun st => (Ok tt, {| masterZip := <[name := blob]> (masterZip st);
                       events := events st ++ [FileAdded name blob] |}).

Definition onProgress (current total : nat) : Eff unit :=
  fun st => (Ok tt, {| masterZip := masterZip st;
                       events := events st ++ [ProgressCall current total] |}).

(** The body of the [for] loop for row [i]. *)
Definition processRow `{Engine} (templateFile : TemplateFile)
    (mapping : ColumnMapping) (total i : nat) (row : CsvRow) : Eff unit :=
  pptxZip ← await (loadAsync templateFile);
  pptxBlob ← await (rewriteSlides mapping row pptxZip);
  name ← await (fileName i row);
  masterFile name pptxBlob;;
  onProgress (i + 1) total.

Fixpoint batchLoop `{Engine} (templateFile : TemplateFile)
    (mapping : ColumnMapping) (total i : nat) (rows : list CsvRow) : Eff unit :=
  match rows with
  | [] => mret tt
  | row :: rest =>
      processRow templateFile mapping total i row;;
      batchLoop templateFile mapping total (S i) rest
  end.

(** [generateBatch]: the outer archive (or the exception) and the
    events of the run. *)
Definition generateBatch `{Engine} (templateFile : TemplateFile)
    (data : list CsvRow) (mapping : ColumnMapping)
    : Result (gmap jsstring Archive) * list Event :=
  match batchLoop templateFile mapping (length data) 0 data
          {| masterZip := ∅; events := [] |} with
  | (Ok _, st) => (Ok (masterZip st), events st)
  | (Throw e, st) => (Throw e, events st)
  end.

Definition progressCalls (evs : list Event) : list (nat * nat) :=
  omap (fun e => match e with
                 | ProgressCall c t => Some (c, t)
                 | FileAdded _ _ => None
                 end) evs.

(** ** [App.tsx]: the state of the component and its handlers *)

Module App.

Inductive UserMessage : Type :=
| AnalyzeFailed    (* "Erro ao analisar arquivos. ..." *)
| GenerateFailed.  (* "Ocorreu um erro durante a geracao dos arquivos." *)

Record State : Type := {
  templateFile : option TemplateFile;
  csvFile : option CsvFile;
  csvData : list CsvRow;
  previewData : option PreviewData;
  downloadUrl : option (gmap jsstring Archive);
  mapping : ColumnMapping;
  stats : ProcessingStats;
  error : option UserMessage
}.

Definition setError (e : option UserMessage) (st : State) : State :=
  {| templateFile := templateFile st; csvFile := csvFile st;
     csvData := csvData st; previewData := previewData st;
     downloadUrl := downloadUrl st; mapping := mapping st;
     stats := stats st; error := e |}.

Definition setCsvData (d : list CsvRow) (st : State) : State :=
  {| templateFile := templateFile st; csvFile := csvFile st;
     csvData := d; previewData := previewData st;
     downloadUrl := downloadUrl st; mapping := mapping st;
     stats := stats st; error := error st |}.

Definition setPreviewData (p : option PreviewData) (st : State) : State :=
  {| templateFile := templateFile st; csvFile := csvFile st;
     csvData := csvData st; previewData := p;
     downloadUrl := downloadUrl st; mapping := mapping st;
     stats := stats st; error := error st |}.

Definition setMapping (m : ColumnMapping) (st : State) : State :=
  {| templateFile := templateFile st; csvFile := csvFile st;
     csvData := csvData st; previewData := previewData st;
     downloadUrl := downloadUrl st; mapping := m;
     stats := stats st; error := error st |}.

Definition setDownloadUrl (u : option (gmap jsstring Archive)) (st : State) : State :=
  {| templateFile := templateFile st; csvFile := csvFile st;
     csvData := csvData st; previewData := previewData st;
     downloadUrl := u; mapping := mapping st;
     stats := stats st; error := error st |}.

Definition setStats (f : ProcessingStats -> ProcessingStats) (st : State) : State :=
  {| templateFile := templateFile st; csvFile := csvFile st;
     csvData := csvData st; previewData := previewData st;
     downloadUrl := downloadUrl st; mapping := mapping st;
     stats := f (stats st); error := error st |}.

Section Analyze.

(** [String.prototype.toLowerCase], whose Unicode case tables are not
    part of the program. *)
Variable toLowerCase : jsstring -> jsstring.

(** [headers.find(h => h.trim().toLowerCase() === key.toLowerCase())]. *)
Definition matchedHeader (headers : list jsstring) (key : jsstring)
    : option jsstring :=
  JS.find (fun h => bool_decide (toLowerCase (trim h) = toLowerCase key)) headers.

(** [matchedHeader || null]: [undefined] and the empty string give
    [null]. *)
Definition orNull (found : option jsstring) : option jsstring :=
  match found with
  | Some (c :: cs) => Some (c :: cs)
  | _ => None
  end.

(** Lines 53-58: the [forEach] that fills [newMapping]. *)
Definition autoMatch (templateKeys headers : list jsstring) : ColumnMapping :=
  foldl (fun newMapping key =>
           assign newMapping key (orNull (matchedHeader headers key)))
        ∅ templateKeys.

Definition analyzeFiles (st : State) : State :=
  match templateFile st, csvFile st with
  | Some tf, Some cf =>
      let st := setError None st in
      let attempt : Result State :=
        match parseCSV cf with
        | Throw e => Throw e
        | Ok [] => Throw CsvEmpty
        | Ok (first :: rest) =>
            let data := first :: rest in
            let st := setCsvData data st in
            let headers := objectKeys first in
            let templateKeys := extractKeysFromPPTX tf in
            let st := setPreviewData
                        (Some {| csvHeaders := headers;
                                 templateKeys := templateKeys;
                                 rowCount := length data |}) st in
            Ok (setMapping (autoMatch templateKeys headers) st)
        end in
      match attempt with
      | Ok st' => st'
      | Throw _ => setError (Some AnalyzeFailed) st
      end
  | _, _ => setMapping ∅ (setPreviewData None st)
  end.

End Analyze.

(** The progress callback handed to [generateBatch]. *)
Definition reportProgress (st : State) (call : nat * nat) : State :=
  setStats (fun prev => {| total := call.2; processed := call.1;
                           isProcessing := isProcessing prev;
                           isComplete := isComplete prev |}) st.

(** [Object.values(mapping).some(v => v !== null)]: some own entry has
    a value other than [null]. *)
Definition hasMappings (m : ColumnMapping) : bool :=
  existsb (fun v => bool_decide (v ≠ None)) (map_to_list (entries m)).*2.

(** [handleGenerate]; [confirmAnswer] is what the user answers to the
    confirmation dialog, asked only when nothing is mapped. *)
Definition handleGenerate `{Engine} (confirmAnswer : bool) (st : State) : State :=
  match templateFile st with
  | None => st
  | Some tf =>
      match csvData st with
      | [] => st
      | _ :: _ =>
          if negb (hasMappings (mapping st)) && negb confirmAnswer then st
          else
            let st := setStats (fun _ => {| total := length (csvData st);
                                            processed := 0;
                                            isProcessing := true;
                                            isComplete := false |}) st in
            let st := setDownloadUrl None st in
            let (result, evs) := generateBatch tf (csvData st) (mapping st) in
            let st := foldl reportProgress st (progressCalls evs) in
            match result with
            | Ok zipBlob =>
                setStats (fun prev => {| total := total prev;
                                         processed := processed prev;
                                         isProcessing := false;
                                         isComplete := true |})
                         (setDownloadUrl (Some zipBlob) st)
            | Throw _ =>
                setStats (fun prev => {| total := total prev;
                                         processed := processed prev;
                                         isProcessing := false;
                                         isComplete := isComplete prev |})
                         (setError (Some GenerateFailed) st)
            end
      end
  end.

(** [handleDrop] on the drop zone of [templateKey]; [colName] is the
    text the drag carries. *)
Definition handleDrop (templateKey colName : jsstring) (st : State) : State :=
  match colName with
  | [] => st
  | _ :: _ => setMapping (spreadWith (mapping st) templateKey (Some colName)) st
  end.

Definition handleRemoveMapping (templateKey : jsstring) (st : State) : State :=
  setMapping (spreadWith (mapping st) templateKey None) st.

End App.

(** Lower-casing restricted to the Basic Latin letters; on strings of
    Basic Latin code units it is [String.prototype.toLowerCase]. *)
Definition basicLatinLower (s : jsstring) : jsstring :=
  (fun c => if (65 <=? c) && (c <=? 90) then c + 32 else c) <$> s.

(** The source text of a built-in function as V8 prints it. *)
Definition v8 : Engine :=
  {| nativeSource name := lit "function " ++ name ++ lit "() { [native code] }" |}.

(** ** Escaping of substituted values *)

Section Escaping.

(** What the five passes do to one code unit of the value. *)
Definition escapeUnit (c : N) : jsstring :=
  if c =? 38 then lit "&amp;"
  else if c =? 60 then lit "&lt;"
  else if c =? 62 then lit "&gt;"
  else if c =? 34 then lit "&quot;"
  else if c =? 39 then lit "&apos;"
  else [c].

Lemma replaceUnit_app c rep a b :
  replaceUnit c rep (a ++ b) = replaceUnit c rep a ++ replaceUnit c rep b.
Proof. unfold replaceUnit. apply bind_app. Qed.

Lemma replaceUnit_cons c rep x s :
  replaceUnit c rep (x :: s) = (if x =? c then rep else [x]) ++ replaceUnit c rep s.
Proof. reflexivity. Qed.

Lemma replaceUnit_single c rep x :
  replaceUnit c rep [x] = if x =? c then rep else [x].
Proof. rewrite replaceUnit_cons. apply app_nil_r. Qed.

Lemma escapeXml_cons c v : escapeXml (c :: v) = escapeUnit c ++ escapeXml v.
Proof.
  change (c :: v) with ([c] ++ v).
  unfold escapeXml, escapeUnit. rewrite !replaceUnit_app. f_equal.
  rewrite replaceUnit_single.
  destruct (N.eqb_spec c 38) as [->|H38]; [reflexivity|].
  rewrite replaceUnit_single.
  destruct (N.eqb_spec c 60) as [->|H60]; [reflexivity|].
  rewrite replaceUnit_single.
  destruct (N.eqb_spec c 62) as [->|H62]; [reflexivity|].
  rewrite replaceUnit_single.
  destruct (N.eqb_spec c 34) as [->|H34]; [reflexivity|].
  rewrite replaceUnit_single.
  destruct (N.eqb_spec c 39) as [->|H39]; reflexivity.
Qed.

(** The chain of passes is a single pass: the entities an earlier pass
    introduces are not touched by a later one. *)
Lemma escapeXml_units v : escapeXml v = v ≫= escapeUnit.
Proof.
  induction v as [|c v IH]; [reflexivity|].
  rewrite escapeXml_cons, IH. reflexivity.
Qed.

Lemma escapeUnit_no_lbrace c : c ≠ lbrace → lbrace ∉ escapeUnit c.
Proof.
  intros Hc. unfold escapeUnit.
  repeat match goal with
         | |- context [if ?b then _ else _] => destruct b
         end;
    try (apply (bool_decide_unpack _); vm_compute; reflexivity).
  rewrite list_elem_of_singleton. congruence.
Qed.

Lemma escapeXml_no_lbrace v : lbrace ∉ v → lbrace ∉ escapeXml v.
Proof.
  induction v as [|c v IH]; intros Hv.
  - apply not_elem_of_nil.
  - rewrite escapeXml_cons. rewrite not_elem_of_cons in Hv.
    destruct Hv as [Hc Hv]. rewrite elem_of_app.
    intros [H|H]; [by apply (escapeUnit_no_lbrace c)|by apply IH].
Qed.

(** The decoder of the round-trip property: the five predefined
    entities are mapped back to their characters, everything else is
    copied.  [skip] counts the code units of the current entity still
    to be passed over. *)
Definition entityAt (s : jsstring) : option (N * nat) :=
  if startsWith (lit "&amp;") s then Some (38, 5%nat)
  else if startsWith (lit "&lt;") s then Some (60, 4%nat)
  else if startsWith (lit "&gt;") s then Some (62, 4%nat)
  else if startsWith (lit "&quot;") s then Some (34, 6%nat)
  else if startsWith (lit "&apos;") s then Some (39, 6%nat)
  else None.

Fixpoint decodeFrom (skip : nat) (s : jsstring) : jsstring :=
  match s with
  | [] => []
  | c :: t =>
      match skip with
      | S k => decodeFrom k t
      | O =>
          match entityAt s with
          | Some (ch, len) => ch :: decodeFrom (len - 1) t
          | None => c :: decodeFrom 0 t
          end
      end
  end.

Definition decodeEntities (s : jsstring) : jsstring := decodeFrom 0 s.

Lemma entityAt_other c s : c ≠ 38 → entityAt (c :: s) = None.
Proof.
  intros Hc. unfold entityAt.
  assert (H : ∀ p, startsWith (38 :: p) (c :: s) = false).
  { intros p. change (startsWith (38 :: p) (c :: s))
      with ((38 =? c) && startsWith p s).
    destruct (N.eqb_spec 38 c); [congruence|reflexivity]. }
  change (lit "&amp;") with (38 :: lit "amp;").
  change (lit "&lt;") with (38 :: lit "lt;").
  change (lit "&gt;") with (38 :: lit "gt;").
  change (lit "&quot;") with (38 :: lit "quot;").
  change (lit "&apos;") with (38 :: lit "apos;").
  by rewrite !H.
Qed.

Lemma decode_escapeUnit c s :
  decodeEntities (escapeUnit c ++ s) = c :: decodeEntities s.
Proof.
  unfold escapeUnit, decodeEntities.
  destruct (N.eqb_spec c 38) as [->|H38]; [reflexivity|].
  destruct (N.eqb_spec c 60) as [->|H60]; [reflexivity|].
  destruct (N.eqb_spec c 62) as [->|H62]; [reflexivity|].
  destruct (N.eqb_spec c 34) as [->|H34]; [reflexivity|].
  destruct (N.eqb_spec c 39) as [->|H39]; [reflexivity|].
  cbn [app decodeFrom]. by rewrite entityAt_other.
Qed.

End Escaping.

(** ** The scan of [/{{(.*?)}}/g] *)

Section Scanner.

(** *** What the pattern means

    [MatchesAt s cap]: the pattern matches at the head of [s] with group
    text [cap].  The lazy quantifier selects the shortest such [cap]. *)

Definition NoTerminator (cap : jsstring) : Prop :=
  Forall (fun c => isLineTerminator c = false) cap.

Definition MatchesAt (s cap : jsstring) : Prop :=
  NoTerminator cap ∧ ∃ rest, s = matchText cap ++ rest.

Definition LazyMatchAt (s cap : jsstring) : Prop :=
  MatchesAt s cap ∧ ∀ cap', MatchesAt s cap' → (length cap ≤ length cap')%nat.

(** Leftmost, non-overlapping matches: a code unit is copied only where
    no match starts, and after a match the scan resumes behind it. *)
Inductive Scan : jsstring → list Segment → Prop :=
| Scan_nil : Scan [] []
| Scan_lit c t L :
    (∀ cap, ¬ MatchesAt (c :: t) cap) → Scan t L → Scan (c :: t) (Lit c :: L)
| Scan_tok s cap L :
    LazyMatchAt s cap → Scan (drop (length (matchText cap)) s) L →
    Scan s (Tok cap :: L).

Lemma matchText_eq cap :
  matchText cap = lbrace :: lbrace :: cap ++ [rbrace; rbrace].
Proof. reflexivity. Qed.

Lemma length_matchText cap : length (matchText cap) = (length cap + 4)%nat.
Proof. rewrite matchText_eq. cbn. rewrite length_app. cbn. lia. Qed.

Lemma closes_true t :
  closes t = true ↔ ∃ r, t = rbrace :: rbrace :: r.
Proof.
  split.
  - destruct t as [|c1 [|c2 r]]; cbn [closes]; try discriminate.
    intros [H1 H2]%andb_true_iff.
    apply N.eqb_eq in H1, H2. subst. eauto.
  - intros [r ->]. reflexivity.
Qed.

Lemma opens_true s :
  opens s = true ↔ ∃ r, s = lbrace :: lbrace :: r.
Proof.
  split.
  - destruct s as [|c1 [|c2 r]]; cbn [opens]; try discriminate.
    intros [H1 H2]%andb_true_iff.
    apply N.eqb_eq in H1, H2. subst. eauto.
  - intros [r ->]. reflexivity.
Qed.

Lemma opens_head c t : c ≠ lbrace → opens (c :: t) = false.
Proof.
  intros Hc. destruct t as [|c2 t]; [reflexivity|].
  cbn [opens]. destruct (N.eqb_spec c lbrace); [congruence|reflexivity].
Qed.

Lemma closes_head c t : c ≠ rbrace → closes (c :: t) = false.
Proof.
  intros Hc. destruct t as [|c2 t]; [reflexivity|].
  cbn [closes]. destruct (N.eqb_spec c rbrace); [congruence|reflexivity].
Qed.

Lemma terminator_not_brace c :
  isLineTerminator c = true → c ≠ lbrace ∧ c ≠ rbrace.
Proof. intros H; split; intros ->; discriminate H. Qed.

Lemma lazyCapture_unfold t :
  lazyCapture t =
  if closes t then Some []
  else match t with
       | [] => None
       | c :: t' =>
           if isLineTerminator c then None else cons c <$> lazyCapture t'
       end.
Proof. destruct t; reflexivity. Qed.

(** A successful capture splits the text, holds no line terminator and
    is the shortest one. *)
Lemma lazyCapture_Some t cap :
  lazyCapture t = Some cap →
  t = cap ++ lit "}}" ++ drop (length cap + 2) t ∧ NoTerminator cap.
Proof.
  revert cap. induction t as [|c t IH]; intros cap; rewrite lazyCapture_unfold.
  - discriminate.
  - destruct (closes (c :: t)) eqn:Hcl.
    + intros [= <-]. apply closes_true in Hcl as [r [= -> ->]].
      split; [reflexivity|constructor].
    + destruct (isLineTerminator c) eqn:Hterm; [discriminate|].
      destruct (lazyCapture t) as [cap0|] eqn:Hrec; [|discriminate].
      intros [= <-]. destruct (IH cap0 eq_refl) as [Ht Hno].
      split; [|by constructor].
      cbn [length Nat.add drop app]. by rewrite <-Ht.
Qed.

Lemma lazyCapture_shortest t cap cap' rest' :
  lazyCapture t = Some cap → t = cap' ++ lit "}}" ++ rest' →
  (length cap ≤ length cap')%nat.
Proof.
  revert cap cap'. induction t as [|c t IH]; intros cap cap';
    rewrite lazyCapture_unfold.
  - discriminate.
  - destruct (closes (c :: t)) eqn:Hcl.
    + intros [= <-] _. cbn. lia.
    + destruct (isLineTerminator c); [discriminate|].
      destruct (lazyCapture t) as [cap0|] eqn:Hrec; [|discriminate].
      intros [= <-] Ht. destruct cap' as [|c' cap'].
      * rewrite Ht in Hcl. discriminate Hcl.
      * injection Ht as -> Ht. cbn [length].
        specialize (IH cap0 cap' eq_refl Ht). lia.
Qed.

Lemma lazyCapture_None t cap' rest' :
  lazyCapture t = None → t = cap' ++ lit "}}" ++ rest' → ¬ NoTerminator cap'.
Proof.
  revert cap'. induction t as [|c t IH]; intros cap';
    rewrite lazyCapture_unfold.
  - intros _ Ht. destruct cap'; discriminate Ht.
  - destruct (closes (c :: t)) eqn:Hcl; [discriminate|].
    intros Hnone Ht Hno. destruct cap' as [|c' cap'].
    { rewrite Ht in Hcl. discriminate Hcl. }
    injection Ht as -> Ht. apply Forall_cons in Hno as [Hc Hno'].
    rewrite Hc in Hnone.
    destruct (lazyCapture t) eqn:Hrec; [discriminate|].
    by apply (IH cap').
Qed.

(** A capture found once is found whatever follows the closing braces. *)
Definition goodCap (cap : jsstring) : Prop :=
  ∀ rest, lazyCapture (cap ++ lit "}}" ++ rest) = Some cap.

Lemma closes_capture_indep c cap r r' :
  closes (c :: cap ++ lit "}}" ++ r) = closes (c :: cap ++ lit "}}" ++ r').
Proof. destruct cap; reflexivity. Qed.

Lemma lazyCapture_goodCap cap r :
  lazyCapture (cap ++ lit "}}" ++ r) = Some cap → goodCap cap.
Proof.
  revert r. induction cap as [|c cap IH]; intros r H r'.
  - reflexivity.
  - cbn [app] in *. rewrite lazyCapture_unfold in H. rewrite lazyCapture_unfold.
    rewrite (closes_capture_indep c cap r' r).
    destruct (closes (c :: cap ++ lit "}}" ++ r)); [discriminate|].
    destruct (isLineTerminator c); [discriminate|].
    destruct (lazyCapture (cap ++ lit "}}" ++ r)) as [cap0|] eqn:Hrec;
      [|discriminate].
    injection H as ->. by rewrite (IH r Hrec r').
Qed.

Lemma lazyCapture_Some_goodCap t cap : lazyCapture t = Some cap → goodCap cap.
Proof.
  intros H. destruct (lazyCapture_Some _ _ H) as [Ht _].
  rewrite Ht in H. by eapply lazyCapture_goodCap.
Qed.

Lemma goodCap_tail c cap : goodCap (c :: cap) → goodCap cap.
Proof.
  intros H. specialize (H []). cbn [app] in H.
  rewrite lazyCapture_unfold in H.
  destruct (closes _); [discriminate|].
  destruct (isLineTerminator c); [discriminate|].
  destruct (lazyCapture (cap ++ lit "}}" ++ [])) eqn:Hrec; [|discriminate].
  injection H as ->. by eapply lazyCapture_goodCap.
Qed.

Lemma goodCap_head c cap : goodCap (c :: cap) → closes (c :: cap ++ lit "}}") = false.
Proof.
  intros H. specialize (H []). cbn [app] in H. rewrite app_nil_r in H.
  rewrite lazyCapture_unfold in H.
  by destruct (closes _).
Qed.

(** An opening brace in front of a capture is swallowed by it. *)
Lemma lazyCapture_push c cap r :
  goodCap cap → isLineTerminator c = false → c ≠ rbrace →
  lazyCapture (c :: cap ++ lit "}}" ++ r) = Some (c :: cap).
Proof.
  intros Hgood Hterm Hc. rewrite lazyCapture_unfold.
  rewrite closes_head by done. rewrite Hterm, (Hgood r). reflexivity.
Qed.

(** *** Matching at a position *)

Lemma matchAt_Some s cap :
  matchAt s = Some cap →
  s = matchText cap ++ drop (length cap + 4) s ∧ NoTerminator cap ∧ goodCap cap.
Proof.
  unfold matchAt. destruct (opens s) eqn:Hop; [|discriminate].
  apply opens_true in Hop as [r ->]. cbn [drop]. intros H.
  destruct (lazyCapture_Some _ _ H) as [Hr Hno].
  split; [|split; [done|by eapply lazyCapture_Some_goodCap]].
  rewrite matchText_eq. cbn [app]. do 2 f_equal.
  replace (length cap + 4)%nat with (S (S (length cap + 2))) by lia.
  cbn [drop]. rewrite <-app_assoc. exact Hr.
Qed.

Lemma matchAt_text cap rest :
  goodCap cap → matchAt (matchText cap ++ rest) = Some cap.
Proof.
  intros H. rewrite matchText_eq. unfold matchAt. cbn [app opens drop].
  rewrite <-app_assoc. apply H.
Qed.

Lemma matchAt_head c t : c ≠ lbrace → matchAt (c :: t) = None.
Proof. intros Hc. unfold matchAt. by rewrite opens_head. Qed.

Lemma matchAt_lazy s cap : matchAt s = Some cap → LazyMatchAt s cap.
Proof.
  intros H. destruct (matchAt_Some _ _ H) as (Hs & Hno & _).
  split; [split; eauto|].
  intros cap' [_ [rest' Hs']].
  unfold matchAt in H. rewrite Hs', matchText_eq in H.
  cbn [app opens drop] in H. rewrite <-app_assoc in H.
  eapply lazyCapture_shortest; [exact H|reflexivity].
Qed.

Lemma matchAt_none s cap : matchAt s = None → ¬ MatchesAt s cap.
Proof.
  intros H [Hno [rest Hs]].
  unfold matchAt in H. rewrite Hs, matchText_eq in H.
  cbn [app opens drop] in H. rewrite <-app_assoc in H.
  eapply lazyCapture_None; [exact H|reflexivity|exact Hno].
Qed.

(** *** The scan *)

Definition render (L : list Segment) : jsstring := mjoin (segmentText <$> L).

Lemma render_cons g L : render (g :: L) = segmentText g ++ render L.
Proof. reflexivity. Qed.

Lemma render_app A B : render (A ++ B) = render A ++ render B.
Proof. unfold render. by rewrite fmap_app, join_app. Qed.

Lemma render_lits w : render (Lit <$> w) = w.
Proof. induction w as [|c w IH]; [done|]. cbn. f_equal. exact IH. Qed.

Lemma scanFrom_drop n s : scanFrom n s = scanFrom 0 (drop n s).
Proof.
  revert n. induction s as [|c t IH]; intros [|k]; try reflexivity.
  cbn [scanFrom drop]. apply IH.
Qed.

Lemma tokenize_lit c t :
  matchAt (c :: t) = None → tokenize (c :: t) = Lit c :: tokenize t.
Proof. unfold tokenize. cbn [scanFrom]. by intros ->. Qed.

Lemma scanFrom_match c t cap :
  matchAt (c :: t) = Some cap →
  scanFrom 0 (c :: t) = Tok cap :: scanFrom (length cap + 3) t.
Proof. intros H. cbn [scanFrom]. by rewrite H. Qed.

Lemma tokenize_tok cap rest :
  goodCap cap → tokenize (matchText cap ++ rest) = Tok cap :: tokenize rest.
Proof.
  intros H. unfold tokenize.
  pose proof (matchAt_text cap rest H) as Hm.
  rewrite matchText_eq in *. cbn [app] in *.
  rewrite (scanFrom_match _ _ _ Hm), scanFrom_drop.
  replace (length cap + 3)%nat with (S (length (cap ++ [rbrace; rbrace]))).
  - cbn [drop]. by rewrite drop_app_length.
  - rewrite length_app. cbn. lia.
Qed.

(** The segments of a scan spell the subject. *)
Lemma render_scanFrom n s : render (scanFrom n s) = drop n s.
Proof.
  revert n. induction s as [|c t IH]; intros [|k]; try reflexivity.
  - cbn [scanFrom drop]. destruct (matchAt (c :: t)) as [cap|] eqn:Hm.
    + rewrite render_cons, IH. cbn [segmentText].
      destruct (matchAt_Some _ _ Hm) as (Hs & _).
      rewrite Hs at 1. f_equal.
      replace (length cap + 4)%nat with (S (length cap + 3)) by lia.
      reflexivity.
    + rewrite render_cons, IH. reflexivity.
  - cbn [scanFrom drop]. apply IH.
Qed.

Lemma render_tokenize s : render (tokenize s) = s.
Proof. apply render_scanFrom. Qed.

(** The scan of the model is the leftmost, non-overlapping, shortest
    matching of the pattern. *)
Lemma scanFrom_Scan n s : Scan (drop n s) (scanFrom n s).
Proof.
  revert n. induction s as [|c t IH]; intros [|k]; try apply Scan_nil.
  - cbn [scanFrom drop]. destruct (matchAt (c :: t)) as [cap|] eqn:Hm.
    + apply Scan_tok; [by apply matchAt_lazy|].
      rewrite length_matchText.
      replace (length cap + 4)%nat with (S (length cap + 3)) by lia.
      apply IH.
    + apply Scan_lit; [intros cap; by apply matchAt_none|apply (IH 0%nat)].
  - cbn [scanFrom drop]. apply IH.
Qed.

Lemma tokenize_Scan s : Scan s (tokenize s).
Proof. apply (scanFrom_Scan 0). Qed.

Lemma scanFrom_captures n s cap :
  Tok cap ∈ scanFrom n s → NoTerminator cap ∧ goodCap cap.
Proof.
  revert n. induction s as [|c t IH]; intros [|k]; cbn [scanFrom];
    try (intros H; by apply elem_of_nil in H).
  - destruct (matchAt (c :: t)) as [cap0|] eqn:Hm.
    + intros [[= ->]|H]%elem_of_cons; [|by eapply IH].
      by destruct (matchAt_Some _ _ Hm) as (_ & ? & ?).
    + intros [[=]|H]%elem_of_cons. by eapply IH.
  - apply IH.
Qed.

End Scanner.

(** ** Segment lists that are their own scan *)

Section Rewriting.

(** [Canonical L]: scanning the text of [L] gives [L] back.  A copied
    code unit must not start a match; a capture must be a good one. *)
Inductive Canonical : list Segment → Prop :=
| Canonical_nil : Canonical []
| Canonical_lit c L :
    matchAt (c :: render L) = None → Canonical L → Canonical (Lit c :: L)
| Canonical_tok cap L :
    goodCap cap → Canonical L → Canonical (Tok cap :: L).

Lemma canonical_tokenize L : Canonical L → tokenize (render L) = L.
Proof.
  induction 1 as [|c L Hm _ IH|cap L Hgood _ IH]; [reflexivity| |].
  - rewrite render_cons. cbn [segmentText app].
    rewrite tokenize_lit by done. by rewrite IH.
  - rewrite render_cons. cbn [segmentText].
    rewrite tokenize_tok by done. by rewrite IH.
Qed.

Lemma scanFrom_canonical n s : Canonical (scanFrom n s).
Proof.
  revert n. induction s as [|c t IH]; intros [|k]; cbn [scanFrom];
    try apply Canonical_nil; [|apply IH].
  destruct (matchAt (c :: t)) as [cap|] eqn:Hm.
  - apply Canonical_tok; [|apply IH].
    by destruct (matchAt_Some _ _ Hm) as (_ & _ & ?).
  - apply Canonical_lit; [|apply IH].
    by rewrite render_scanFrom.
Qed.

Lemma tokenize_canonical s : Canonical (tokenize s).
Proof. apply scanFrom_canonical. Qed.

Lemma canonical_lits w M :
  lbrace ∉ w → Canonical M → Canonical ((Lit <$> w) ++ M).
Proof.
  induction w as [|c w IH]; intros Hw HM; [exact HM|].
  apply not_elem_of_cons in Hw as [Hc Hw].
  cbn. apply Canonical_lit; [|by apply IH].
  apply matchAt_head. congruence.
Qed.

Lemma goodCap_push c cap :
  goodCap cap → isLineTerminator c = false → c ≠ rbrace → goodCap (c :: cap).
Proof. intros H Hterm Hc r. by apply lazyCapture_push. Qed.

Lemma lazyCapture_matchText cap r :
  goodCap cap → lazyCapture (matchText cap ++ r) = Some (lbrace :: lbrace :: cap).
Proof.
  intros H. rewrite matchText_eq. cbn [app].
  rewrite <-app_assoc.
  apply (goodCap_push lbrace (lbrace :: cap)); [|done..].
  by apply goodCap_push.
Qed.

(** *** Replacing matches

    [sub cap] is the text that replaces a match with capture [cap], or
    [None] when the match is left in place. *)

Variable sub : jsstring → option jsstring.
Hypothesis sub_no_lbrace : ∀ cap w, sub cap = Some w → lbrace ∉ w.

Definition rewriteSeg (g : Segment) : list Segment :=
  match g with
  | Lit c => [Lit c]
  | Tok cap =>
      match sub cap with
      | Some w => Lit <$> w
      | None => [Tok cap]
      end
  end.

Definition rewriteSegs (L : list Segment) : list Segment := L ≫= rewriteSeg.

Lemma rewriteSegs_cons g L : rewriteSegs (g :: L) = rewriteSeg g ++ rewriteSegs L.
Proof. reflexivity. Qed.

Lemma closes_preserved c L :
  Canonical L → lazyCapture (render L) = None →
  closes (c :: render (rewriteSegs L)) = closes (c :: render L).
Proof.
  intros HL Hnone. destruct L as [|[c2|cap] L2]; [reflexivity|reflexivity|].
  inversion HL as [| |? ? Hgood HL2]; subst.
  rewrite render_cons in Hnone. cbn [segmentText] in Hnone.
  by rewrite lazyCapture_matchText in Hnone.
Qed.

(** A capture that fails before the replacement fails after it. *)
Lemma lazy_preserved L :
  Canonical L → lazyCapture (render L) = None →
  lazyCapture (render (rewriteSegs L)) = None.
Proof.
  induction 1 as [|c L Hm HL IH|cap L Hgood HL IH]; [done| |].
  - rewrite rewriteSegs_cons. cbn [rewriteSeg app].
    rewrite !render_cons. cbn [segmentText app].
    rewrite (lazyCapture_unfold (c :: render L)).
    rewrite (lazyCapture_unfold (c :: render (rewriteSegs L))).
    destruct (closes (c :: render L)) eqn:Hcl; [discriminate|].
    destruct (isLineTerminator c) eqn:Hterm.
    + intros _. rewrite closes_head; [done|].
      by apply terminator_not_brace.
    + destruct (lazyCapture (render L)) eqn:Hrec; [discriminate|].
      intros _. rewrite closes_preserved, Hcl by done.
      by rewrite IH.
  - rewrite render_cons. cbn [segmentText].
    by rewrite lazyCapture_matchText.
Qed.

Lemma matchAt_preserved c L :
  Canonical L → matchAt (c :: render L) = None →
  matchAt (c :: render (rewriteSegs L)) = None.
Proof.
  intros HL Hnone.
  destruct (decide (c = lbrace)) as [->|Hc]; [|by apply matchAt_head].
  destruct L as [|[c2|cap] L2].
  - exact Hnone.
  - rewrite rewriteSegs_cons. cbn [rewriteSeg app].
    rewrite !render_cons in *. cbn [segmentText app] in *.
    inversion HL as [|? ? _ HL2|]; subst.
    unfold matchAt in *. cbn [opens drop] in *.
    destruct ((lbrace =? lbrace) && (c2 =? lbrace)); [|done].
    by apply lazy_preserved.
  - inversion HL as [| |? ? Hgood HL2]; subst.
    rewrite render_cons in Hnone. cbn [segmentText] in Hnone.
    rewrite matchText_eq in Hnone. unfold matchAt in Hnone.
    cbn [app opens drop] in Hnone.
    change ((lbrace =? lbrace) && (lbrace =? lbrace)) with true in Hnone.
    cbv iota in Hnone.
    rewrite <-app_assoc in Hnone.
    rewrite (lazyCapture_push lbrace cap) in Hnone; done.
Qed.

Lemma rewriteSegs_canonical L : Canonical L → Canonical (rewriteSegs L).
Proof.
  induction 1 as [|c L Hm HL IH|cap L Hgood HL IH]; [constructor| |].
  - rewrite rewriteSegs_cons. cbn [rewriteSeg app].
    apply Canonical_lit; [|exact IH]. by apply matchAt_preserved.
  - rewrite rewriteSegs_cons. cbn [rewriteSeg].
    destruct (sub cap) as [w|] eqn:Hsub.
    + apply canonical_lits; [by eapply sub_no_lbrace|exact IH].
    + cbn [app]. by apply Canonical_tok.
Qed.

(** Scanning the rewritten text finds exactly the matches left in
    place. *)
Lemma tokenize_rewritten s :
  tokenize (render (rewriteSegs (tokenize s))) = rewriteSegs (tokenize s).
Proof. apply canonical_tokenize, rewriteSegs_canonical, tokenize_canonical. Qed.

End Rewriting.

(** ** Extraction and substitution in terms of the scan *)

Section Keys.

Context `{Engine}.

Definition captures (L : list Segment) : list jsstring :=
  omap (fun g => match g with Tok cap => Some cap | Lit _ => None end) L.

(** The key [extractKeysFromPPTX] derives from a match. *)
Definition extractedKey (cap : jsstring) : jsstring :=
  trim (stripBraces (matchText cap)).

(** What the callback of [generateBatch] does with a match whose
    capture is [cap]: it returns a replacement text, returns the match
    itself, or throws. *)
Inductive Verdict : Type :=
| Replace (w : jsstring)
| Keep
| Crash.

Definition verdict (mapping : ColumnMapping) (row : CsvRow) (cap : jsstring)
    : Verdict :=
  let column := mappingGet mapping (trim cap) in
  if truthy column
  then match rowGet row (toPropertyKey column) with
       | Undefined => Keep
       | Null => Replace []
       | Str v => Replace (escapeXml v)
       | Arr _ | Builtin _ => Crash
       end
  else Keep.

(** The replacement made for a match; [None] when the match stays. *)
Definition fires (mapping : ColumnMapping) (row : CsvRow) (cap : jsstring)
    : option jsstring :=
  match verdict mapping row cap with
  | Replace w => Some w
  | Keep | Crash => None
  end.

Definition isCrash (v : Verdict) : bool :=
  match v with
  | Crash => true
  | Replace _ | Keep => false
  end.

(** Some match of the text makes the callback throw. *)
Definition crashes (mapping : ColumnMapping) (row : CsvRow) (s : jsstring) : bool :=
  existsb (fun cap => isCrash (verdict mapping row cap)) (captures (tokenize s)).

(** [{{] somewhere in a text. *)
Fixpoint containsOpen (s : jsstring) : bool :=
  match s with
  | [] => false
  | _ :: t => opens s || containsOpen t
  end.

Lemma captures_cons_lit c L : captures (Lit c :: L) = captures L.
Proof. reflexivity. Qed.

Lemma captures_cons_tok cap L : captures (Tok cap :: L) = cap :: captures L.
Proof. reflexivity. Qed.

Lemma captures_app A B : captures (A ++ B) = captures A ++ captures B.
Proof. unfold captures. apply omap_app. Qed.

Lemma captures_lits w : captures (Lit <$> w) = [].
Proof. induction w as [|c w IH]; [done|]. cbn. exact IH. Qed.

Lemma elem_of_captures cap L : cap ∈ captures L ↔ Tok cap ∈ L.
Proof.
  unfold captures. rewrite list_elem_of_omap. split.
  - intros ([c|cap'] & Hin & Heq); [discriminate|]. by injection Heq as ->.
  - intros Hin. by exists (Tok cap).
Qed.

Lemma captures_rewriteSegs sub L :
  captures (rewriteSegs sub L) = filter (fun cap => sub cap = None) (captures L).
Proof.
  induction L as [|[c|cap] L IH]; [done| |].
  - rewrite rewriteSegs_cons. cbn [rewriteSeg app].
    by rewrite !captures_cons_lit.
  - rewrite rewriteSegs_cons, captures_app, captures_cons_tok, filter_cons, IH.
    cbn [rewriteSeg]. destruct (sub cap) as [w|] eqn:Hsub.
    + rewrite captures_lits. by rewrite decide_False.
    + by rewrite decide_True.
Qed.

Lemma elem_of_setAdd_fold k xs acc :
  k ∈ foldl setAdd acc xs ↔ k ∈ acc ∨ k ∈ xs.
Proof.
  revert acc. induction xs as [|x xs IH]; intros acc; cbn [foldl].
  - rewrite elem_of_nil. tauto.
  - rewrite IH, elem_of_cons. unfold setAdd.
    destruct (decide (x ∈ acc)) as [Hin|Hout].
    + split; [tauto|]. intros [?|[->|?]]; tauto.
    + rewrite elem_of_app, list_elem_of_singleton. tauto.
Qed.

Lemma elem_of_arrayFromSet k xs : k ∈ arrayFromSet xs ↔ k ∈ xs.
Proof.
  unfold arrayFromSet. rewrite elem_of_setAdd_fold, elem_of_nil. tauto.
Qed.

Lemma NoDup_setAdd_fold xs acc : NoDup acc → NoDup (foldl setAdd acc xs).
Proof.
  revert acc. induction xs as [|x xs IH]; intros acc Hacc; [done|].
  cbn [foldl]. apply IH. unfold setAdd.
  destruct (decide (x ∈ acc)); [done|].
  apply NoDup_app. split; [done|]. split; [|apply NoDup_singleton].
  intros y Hy ->%list_elem_of_singleton. done.
Qed.

Lemma matches_captures L :
  omap (fun g => match g with Tok cap => Some (matchText cap) | Lit _ => None end) L
  = matchText <$> captures L.
Proof.
  induction L as [|[c|cap] L IH]; [done|exact IH|].
  cbn [omap list_omap]. rewrite captures_cons_tok, fmap_cons. by f_equal.
Qed.

Lemma regexMatch_captures s :
  regexMatch s =
  match captures (tokenize s) with
  | [] => None
  | caps => Some (matchText <$> caps)
  end.
Proof.
  unfold regexMatch. rewrite matches_captures.
  by destruct (captures (tokenize s)).
Qed.

Lemma extractKeys_captures s :
  extractKeys s = arrayFromSet (extractedKey <$> captures (tokenize s)).
Proof.
  unfold extractKeys. rewrite regexMatch_captures.
  destruct (captures (tokenize s)) as [|cap caps]; [done|].
  by rewrite <-list_fmap_compose.
Qed.

Lemma replacer_verdict mapping row match_ cap :
  replacer mapping row match_ cap =
  match verdict mapping row cap with
  | Replace w => Ok w
  | Keep => Ok match_
  | Crash => Throw TypeError
  end.
Proof.
  unfold replacer, verdict.
  destruct (truthy (mappingGet mapping (trim cap))); [|reflexivity].
  cbn [andb].
  by destruct (rowGet row (toPropertyKey (mappingGet mapping (trim cap))))
    as [| |[|c v]| |].
Qed.

(** The text [replace] returns when no call of the callback throws. *)
Definition substituted (mapping : ColumnMapping) (row : CsvRow) (s : jsstring)
    : jsstring :=
  render (rewriteSegs (fires mapping row) (tokenize s)).

Lemma replaceSegments_spec mapping row L :
  replaceSegments (replacer mapping row) L =
  if existsb (fun cap => isCrash (verdict mapping row cap)) (captures L)
  then Throw TypeError
  else Ok (render (rewriteSegs (fires mapping row) L)).
Proof.
  induction L as [|[c|cap] L IH]; [done| |].
  - cbn [replaceSegments]. rewrite IH, captures_cons_lit.
    destruct (existsb _ (captures L)); [reflexivity|].
    by rewrite rewriteSegs_cons.
  - cbn [replaceSegments]. rewrite IH, captures_cons_tok, replacer_verdict.
    rewrite rewriteSegs_cons, render_app. cbn [existsb rewriteSeg].
    unfold fires.
    destruct (verdict mapping row cap) as [w| |]; cbn [isCrash orb];
      [| |reflexivity].
    + destruct (existsb _ (captures L)); [reflexivity|].
      cbn. by rewrite render_lits.
    + destruct (existsb _ (captures L)); [reflexivity|].
      cbn. by rewrite app_nil_r.
Qed.

Lemma substituteContent_spec mapping row s :
  substituteContent mapping row s =
  if crashes mapping row s then Throw TypeError
  else Ok (substituted mapping row s).
Proof. apply replaceSegments_spec. Qed.

Lemma substituteContent_Ok mapping row s out :
  substituteContent mapping row s = Ok out ↔
  crashes mapping row s = false ∧ out = substituted mapping row s.
Proof.
  rewrite substituteContent_spec. destruct (crashes mapping row s).
  - split; [discriminate|]. by intros [? _].
  - split; [by intros [= <-]|]. by intros [_ ->].
Qed.

Lemma crashes_false mapping row s :
  crashes mapping row s = false ↔
  ∀ cap, Tok cap ∈ tokenize s → verdict mapping row cap ≠ Crash.
Proof.
  unfold crashes. split.
  - intros Hnone cap Hin Hcrash.
    assert (existsb (fun cap => isCrash (verdict mapping row cap))
              (captures (tokenize s)) = true) as Hsome; [|congruence].
    apply existsb_exists. exists cap.
    split; [by apply list_elem_of_In, elem_of_captures|by rewrite Hcrash].
  - intros Hall. apply not_true_iff_false.
    intros (cap & Hin & Hc)%existsb_exists.
    apply list_elem_of_In, elem_of_captures in Hin.
    apply (Hall cap Hin). by destruct (verdict mapping row cap).
Qed.

Lemma stripBraces_pair c1 c2 t :
  stripBraces (c1 :: c2 :: t) =
  if opens (c1 :: c2 :: t) || closes (c1 :: c2 :: t) then stripBraces t
  else c1 :: stripBraces (c2 :: t).
Proof. reflexivity. Qed.

Lemma stripBraces_capture cap :
  goodCap cap → containsOpen cap = false →
  stripBraces (cap ++ [rbrace; rbrace]) = cap.
Proof.
  induction cap as [|c cap IH]; intros Hgood Hopen; [reflexivity|].
  pose proof (goodCap_head _ _ Hgood) as Hcl.
  cbn [containsOpen] in Hopen. apply orb_false_iff in Hopen as [Hop Hopen].
  specialize (IH (goodCap_tail _ _ Hgood) Hopen).
  destruct cap as [|c2 cap].
  - cbn [app] in IH |- *. rewrite stripBraces_pair.
    change (closes [c; rbrace; rbrace]) with (closes (c :: [] ++ lit "}}")).
    rewrite Hcl, orb_false_r.
    replace (opens [c; rbrace; rbrace]) with false; [reflexivity|].
    cbn [opens]. change (rbrace =? lbrace) with false.
    by rewrite andb_false_r.
  - cbn [app] in IH |- *. rewrite stripBraces_pair.
    change (closes (c :: c2 :: cap ++ [rbrace; rbrace]))
      with (closes (c :: (c2 :: cap) ++ lit "}}")).
    rewrite Hcl, orb_false_r.
    change (opens (c :: c2 :: cap ++ [rbrace; rbrace])) with (opens (c :: c2 :: cap)).
    rewrite Hop. by rewrite IH.
Qed.

End Keys.

(** ** Line breaks stop every capture *)

Section LineBreak.

(** [}}] somewhere in a text. *)
Fixpoint containsClose (s : jsstring) : bool :=
  match s with
  | [] => false
  | _ :: t => closes s || containsClose t
  end.

(** [Blocks X]: a capture that runs into [X] meets a line terminator
    before it can meet a closing pair of braces. *)
Definition Blocks (X : jsstring) : Prop :=
  ∃ x1 nl x2,
    X = x1 ++ nl :: x2 ∧ containsClose x1 = false ∧ head X ≠ Some rbrace
    ∧ isLineTerminator nl = true.

Lemma closes_before_terminator c x1 nl x2 :
  containsClose (c :: x1) = false → isLineTerminator nl = true →
  closes (c :: x1 ++ nl :: x2) = false.
Proof.
  intros Hx1 Hnl. cbn [containsClose] in Hx1.
  apply orb_false_iff in Hx1 as [Hcl _].
  destruct x1 as [|y x1]; [|exact Hcl].
  cbn [app closes]. destruct (terminator_not_brace _ Hnl) as [_ Hne].
  destruct (N.eqb_spec nl rbrace); [done|]. apply andb_false_r.
Qed.

Lemma lazyCapture_blocked x1 nl x2 :
  containsClose x1 = false → isLineTerminator nl = true →
  lazyCapture (x1 ++ nl :: x2) = None.
Proof.
  intros Hx1 Hnl. induction x1 as [|c x1 IH]; cbn [app];
    rewrite lazyCapture_unfold.
  - rewrite closes_head by (by apply terminator_not_brace). by rewrite Hnl.
  - rewrite closes_before_terminator by done.
    cbn [containsClose] in Hx1. apply orb_false_iff in Hx1 as [_ Hx1].
    destruct (isLineTerminator c); [done|]. by rewrite IH.
Qed.

Lemma Blocks_lazyCapture X : Blocks X → lazyCapture X = None.
Proof. intros (x1 & nl & x2 & -> & ? & _ & ?). by apply lazyCapture_blocked. Qed.

Lemma Blocks_closes c X : Blocks X → closes (c :: X) = false.
Proof.
  intros (x1 & nl & x2 & -> & _ & Hhead & Hnl).
  destruct (x1 ++ nl :: x2) as [|y r] eqn:HX; [reflexivity|].
  cbn [closes]. cbn in Hhead.
  destruct (N.eqb_spec y rbrace); [congruence|]. apply andb_false_r.
Qed.

Lemma lazy_extend a X :
  Blocks X → lazyCapture a = None → lazyCapture (a ++ X) = None.
Proof.
  intros HX. induction a as [|c a IH]; [intros _; by apply Blocks_lazyCapture|].
  cbn [app]. rewrite (lazyCapture_unfold (c :: a)), (lazyCapture_unfold (c :: a ++ X)).
  assert (closes (c :: a) = false → closes (c :: a ++ X) = false) as Hcl.
  { destruct a as [|c2 a]; [intros _; by apply Blocks_closes|done]. }
  destruct (closes (c :: a)); [discriminate|]. rewrite Hcl by done.
  destruct (isLineTerminator c); [done|].
  destruct (lazyCapture a); [discriminate|]. intros _. by rewrite IH.
Qed.

Lemma matchAt_extend c r X :
  Blocks X → matchAt (c :: r) = None → matchAt (c :: r ++ X) = None.
Proof.
  intros HX. unfold matchAt. destruct r as [|c2 r].
  - intros _. cbn [app]. destruct (opens (c :: X)) eqn:Hop; [|done].
    apply opens_true in Hop as [r' [= -> ->]]. cbn [drop].
    destruct HX as (x1 & nl & x2 & Heq & Hx1 & _ & Hnl).
    destruct x1 as [|y x1]; cbn [app] in Heq; injection Heq as <- ->.
    + discriminate Hnl.
    + apply lazyCapture_blocked; [|done].
      cbn [containsClose] in Hx1. by apply orb_false_iff in Hx1 as [_ ?].
  - change (opens (c :: (c2 :: r) ++ X)) with (opens (c :: c2 :: r)).
    destruct (opens (c :: c2 :: r)); [|done].
    cbn [app drop]. by apply lazy_extend.
Qed.

Lemma canonical_app_blocked A B :
  Canonical A → Canonical B → Blocks (render B) → Canonical (A ++ B).
Proof.
  intros HA HB HX. induction HA as [|c L Hm _ IH|cap L Hgood _ IH]; [done| |].
  - cbn [app]. apply Canonical_lit; [|exact IH].
    rewrite render_app. by apply matchAt_extend.
  - cbn [app]. by apply Canonical_tok.
Qed.

(** The scan of a text before a blocking text does not depend on it. *)
Lemma tokenize_app_blocked a X :
  Blocks X → tokenize (a ++ X) = tokenize a ++ tokenize X.
Proof.
  intros HX.
  rewrite <-(canonical_tokenize (tokenize a ++ tokenize X)).
  - by rewrite render_app, !render_tokenize.
  - apply canonical_app_blocked; try apply tokenize_canonical.
    by rewrite render_tokenize.
Qed.

Lemma tokenize_line_break a nl b :
  isLineTerminator nl = true →
  tokenize (a ++ nl :: b) = tokenize a ++ Lit nl :: tokenize b.
Proof.
  intros Hnl. destruct (terminator_not_brace _ Hnl) as [Hne Hne'].
  rewrite tokenize_app_blocked.
  - f_equal. apply tokenize_lit. by apply matchAt_head.
  - exists [], nl, b. repeat split; [|done]. cbn. congruence.
Qed.

Lemma containsClose_capture a r : containsClose (a ++ lit "}}" ++ r) = true.
Proof.
  induction a as [|c a IH]; [reflexivity|].
  cbn [app containsClose]. rewrite IH. apply orb_true_r.
Qed.

Lemma matchAt_no_close s : containsClose s = false → matchAt s = None.
Proof.
  intros Hs. destruct (matchAt s) as [cap|] eqn:Hm; [|done].
  destruct (matchAt_Some _ _ Hm) as (Heq & _).
  rewrite Heq, matchText_eq in Hs.
  change (lbrace :: lbrace :: cap ++ [rbrace; rbrace])
    with ([lbrace; lbrace] ++ cap ++ lit "}}") in Hs.
  rewrite <-!app_assoc in Hs.
  change ([lbrace; lbrace] ++ cap ++ lit "}}" ++ drop (length cap + 4) s)
    with (lbrace :: lbrace :: (cap ++ lit "}}" ++ drop (length cap + 4) s)) in Hs.
  cbn [containsClose] in Hs. rewrite containsClose_capture in Hs.
  by rewrite !orb_true_r in Hs.
Qed.

(** A text without [}}] has no match. *)
Lemma tokenize_no_close s : containsClose s = false → tokenize s = Lit <$> s.
Proof.
  induction s as [|c t IH]; [done|]. intros Hs.
  rewrite tokenize_lit by (by apply matchAt_no_close).
  cbn [containsClose] in Hs. apply orb_false_iff in Hs as [_ Ht].
  by rewrite IH.
Qed.

Lemma opens_snoc x w c r : opens (x :: w ++ c :: r) = opens (x :: w ++ [c]).
Proof. by destruct w. Qed.

(** A text without [{{] that does not end in an opening brace is copied
    unit by unit, whatever follows. *)
Lemma tokenize_no_open_prefix w c post :
  containsOpen (w ++ [c]) = false → c ≠ lbrace →
  tokenize (w ++ c :: post) = (Lit <$> w ++ [c]) ++ tokenize post.
Proof.
  intros Hw Hc. induction w as [|x w IH]; cbn [app].
  - rewrite tokenize_lit by (by apply matchAt_head). reflexivity.
  - cbn [app containsOpen] in Hw. apply orb_false_iff in Hw as [Hop Hw].
    rewrite tokenize_lit.
    + rewrite IH by done. reflexivity.
    + unfold matchAt. by rewrite opens_snoc, Hop.
Qed.

Lemma containsOpen_closing m :
  containsOpen m = false → containsOpen (m ++ [rbrace; rbrace]) = false.
Proof.
  induction m as [|x m IH]; [reflexivity|].
  cbn [app containsOpen]. intros [Hop Hm]%orb_false_iff.
  rewrite IH by done. rewrite orb_false_r.
  destruct m as [|y m]; [|exact Hop].
  cbn [app opens]. change (rbrace =? lbrace) with false. apply andb_false_r.
Qed.

Lemma containsClose_opening m :
  containsClose m = false → containsClose (lbrace :: lbrace :: m) = false.
Proof.
  intros Hm. cbn [containsClose]. rewrite Hm.
  change (closes (lbrace :: lbrace :: m)) with false.
  destruct m as [|y m]; reflexivity.
Qed.

(** A brace pair around a text with a line break, with no [}}] before
    the break and no [{{] after it, is copied unit by unit, whatever
    stands before and after. *)
Lemma tokenize_broken pre m1 nl m2 post :
  isLineTerminator nl = true →
  containsClose m1 = false → containsOpen m2 = false →
  tokenize (pre ++ matchText (m1 ++ nl :: m2) ++ post) =
  tokenize pre ++ (Lit <$> matchText (m1 ++ nl :: m2)) ++ tokenize post.
Proof.
  intros Hnl H1 H2.
  assert (matchText (m1 ++ nl :: m2) ++ post
          = (lbrace :: lbrace :: m1) ++ nl :: (m2 ++ [rbrace]) ++ rbrace :: post)
    as Hmid.
  { rewrite matchText_eq. cbn [app]. by rewrite <-!app_assoc. }
  assert (matchText (m1 ++ nl :: m2)
          = (lbrace :: lbrace :: m1) ++ nl :: (m2 ++ [rbrace]) ++ [rbrace])
    as Htext.
  { rewrite matchText_eq. cbn [app]. by rewrite <-!app_assoc. }
  pose proof (containsClose_opening m1 H1) as Hx1.
  rewrite Hmid, Htext, tokenize_app_blocked.
  - rewrite tokenize_line_break by done.
    rewrite (tokenize_no_close (lbrace :: lbrace :: m1)) by done.
    rewrite tokenize_no_open_prefix; [|rewrite <-app_assoc;
      by apply containsOpen_closing|done].
    rewrite (fmap_app Lit (lbrace :: lbrace :: m1)).
    rewrite <-(app_assoc (Lit <$> lbrace :: lbrace :: m1)). reflexivity.
  - exists (lbrace :: lbrace :: m1), nl, ((m2 ++ [rbrace]) ++ rbrace :: post).
    repeat split; [exact Hx1|done|exact Hnl].
Qed.

End LineBreak.

(** ** The declarative scan has one result *)

Section ScanUnique.

Lemma matchAt_complete s : (∀ cap, ¬ MatchesAt s cap) → matchAt s = None.
Proof.
  intros H. destruct (matchAt s) as [cap|] eqn:Hm; [|done].
  destruct (H cap). by apply matchAt_lazy.
Qed.

Lemma matchAt_of_lazy s cap : LazyMatchAt s cap → matchAt s = Some cap.
Proof.
  intros [Hmatch Hmin].
  destruct (matchAt s) as [cap'|] eqn:Hm.
  - destruct (matchAt_lazy _ _ Hm) as [Hmatch' Hmin'].
    pose proof (Hmin _ Hmatch') as H1. pose proof (Hmin' _ Hmatch) as H2.
    destruct Hmatch as [_ [rest Hs]], Hmatch' as [_ [rest' Hs']].
    rewrite Hs, !matchText_eq in Hs'. cbn [app] in Hs'.
    injection Hs' as Hs'. rewrite <-!app_assoc in Hs'.
    apply app_inj_1 in Hs' as [-> _]; [done|lia].
  - by destruct (matchAt_none _ cap Hm).
Qed.

Lemma Scan_unique s L : Scan s L → L = tokenize s.
Proof.
  induction 1 as [|c t L Hno _ IH|s cap L Hlazy _ IH]; [done| |].
  - rewrite tokenize_lit by (by apply matchAt_complete). by rewrite IH.
  - pose proof (matchAt_of_lazy _ _ Hlazy) as Hm.
    destruct (matchAt_Some _ _ Hm) as (Hs & _ & Hgood).
    rewrite length_matchText in IH. rewrite Hs at 1.
    rewrite tokenize_tok by done. by rewrite IH.
Qed.

End ScanUnique.


(** ** The batch loop *)

Section Batch.

Context `{Engine}.

Implicit Types (mapping : ColumnMapping) (row : CsvRow) (zip : Archive)
  (tf : TemplateFile).

(** *** The archive of a row *)

(** The archive the slide loop builds when no callback throws: every
    slide part holds the substituted content, every other part is the
    template's. *)
Definition rewritten mapping row zip : Archive :=
  map_imap (fun path content =>
              Some (if isSlidePath path
                    then substituted mapping row content
                    else content)) zip.

Lemma rewritten_lookup mapping row zip (path : jsstring) :
  rewritten mapping row zip !! path =
  (fun content => if isSlidePath path
                  then substituted mapping row content
                  else content) <$> zip !! path.
Proof.
  unfold rewritten. rewrite map_lookup_imap.
  by destruct (zip !! path).
Qed.

Definition pureSlide mapping row zip (p : jsstring) : Archive :=
  match zip !! p with
  | Some content => <[p := substituted mapping row content]> zip
  | None => zip
  end.

Definition slideCrashes mapping row zip (p : jsstring) : bool :=
  match zip !! p with
  | Some content => crashes mapping row content
  | None => false
  end.

Lemma rewriteSlide_spec mapping row zip (p : jsstring) :
  rewriteSlide mapping row zip p =
  if slideCrashes mapping row zip p then Throw TypeError
  else Ok (pureSlide mapping row zip p).
Proof.
  unfold rewriteSlide, slideCrashes, pureSlide, zipFile, zipWrite.
  destruct (zip !! p) as [content|]; [|reflexivity].
  rewrite substituteContent_spec. by destruct (crashes mapping row content).
Qed.

Lemma foldl_thrown mapping row (e : Error) (ps : list jsstring) :
  foldl (fun acc slidePath => zip ← acc; rewriteSlide mapping row zip slidePath)
        (Throw e) ps = Throw e.
Proof. induction ps as [|p ps IH]; [done|exact IH]. Qed.

Lemma pureSlide_lookup mapping row zip (p path : jsstring) :
  pureSlide mapping row zip p !! path =
  if decide (path = p) then substituted mapping row <$> zip !! path
  else zip !! path.
Proof.
  unfold pureSlide. destruct (decide (path = p)) as [->|Hne].
  - destruct (zip !! p) as [c|] eqn:Hp; [by rewrite lookup_insert_eq|].
    by rewrite Hp.
  - destruct (zip !! p); [by rewrite lookup_insert_ne|done].
Qed.

Lemma pureSlides_fold mapping row (ps : list jsstring) zip (path : jsstring) :
  NoDup ps →
  foldl (pureSlide mapping row) zip ps !! path =
  if decide (path ∈ ps) then substituted mapping row <$> zip !! path
  else zip !! path.
Proof.
  intros Hnodup. revert zip.
  induction Hnodup as [|p ps Hp _ IH]; intros zip.
  - cbn. by rewrite decide_False by apply not_elem_of_nil.
  - cbn [foldl]. rewrite IH, pureSlide_lookup.
    destruct (decide (path = p)) as [->|Hne].
    + rewrite (decide_False (P := p ∈ ps)) by done.
      by rewrite (decide_True (P := p ∈ p :: ps)) by apply list_elem_of_here.
    + destruct (decide (path ∈ ps)) as [Hin|Hout].
      * by rewrite (decide_True (P := path ∈ p :: ps))
          by (by apply list_elem_of_further).
      * rewrite (decide_False (P := path ∈ p :: ps)); [done|].
        rewrite elem_of_cons. tauto.
Qed.

Lemma slideCrashes_after mapping row zip (p : jsstring) (ps : list jsstring) :
  p ∉ ps →
  existsb (slideCrashes mapping row (pureSlide mapping row zip p)) ps
  = existsb (slideCrashes mapping row zip) ps.
Proof.
  induction ps as [|q ps IH]; [done|]. cbn [existsb].
  intros [Hne Hp]%not_elem_of_cons. rewrite (IH Hp). f_equal.
  unfold slideCrashes. rewrite pureSlide_lookup.
  by rewrite decide_False by congruence.
Qed.

Lemma rewriteSlides_fold mapping row (ps : list jsstring) zip :
  NoDup ps →
  foldl (fun acc slidePath => z ← acc; rewriteSlide mapping row z slidePath)
        (Ok zip) ps =
  if existsb (slideCrashes mapping row zip) ps then Throw TypeError
  else Ok (foldl (pureSlide mapping row) zip ps).
Proof.
  intros Hnodup. revert zip.
  induction Hnodup as [|p ps Hp _ IH]; intros zip; [reflexivity|].
  cbn [foldl existsb]. change (z ← Ok zip; rewriteSlide mapping row z p)
    with (rewriteSlide mapping row zip p).
  rewrite rewriteSlide_spec.
  destruct (slideCrashes mapping row zip p); [apply foldl_thrown|].
  rewrite IH. cbn [orb]. by rewrite slideCrashes_after.
Qed.

Definition slidePaths zip : list jsstring :=
  filter (fun path => isSlidePath path = true) (zipPaths zip).

Lemma elem_of_slidePaths zip (path : jsstring) :
  path ∈ slidePaths zip ↔ isSlidePath path = true ∧ is_Some (zip !! path).
Proof.
  unfold slidePaths, zipPaths. rewrite list_elem_of_filter, list_elem_of_fmap.
  split.
  - intros [Hs ([p c] & -> & Hin)]. apply elem_of_map_to_list in Hin.
    split; [done|]. by exists c.
  - intros [Hs [c Hc]]. split; [done|]. exists (path, c).
    split; [done|]. by apply elem_of_map_to_list.
Qed.

Lemma NoDup_slidePaths zip : NoDup (slidePaths zip).
Proof. apply NoDup_filter, NoDup_fst_map_to_list. Qed.

Lemma pureSlides_rewritten mapping row zip :
  foldl (pureSlide mapping row) zip (slidePaths zip) = rewritten mapping row zip.
Proof.
  apply map_eq. intros path.
  rewrite pureSlides_fold by apply NoDup_slidePaths.
  rewrite rewritten_lookup.
  destruct (zip !! path) as [c|] eqn:Hpath.
  - destruct (isSlidePath path) eqn:Hslide.
    + rewrite decide_True; [done|]. apply elem_of_slidePaths.
      split; [done|]. by rewrite Hpath.
    + rewrite decide_False; [done|].
      intros [Hs _]%elem_of_slidePaths. congruence.
  - by destruct (decide _).
Qed.

(** Some slide part holds a match for which the callback throws. *)
Definition archiveCrashes mapping row zip : bool :=
  existsb (slideCrashes mapping row zip) (slidePaths zip).

Lemma rewriteSlides_spec mapping row zip :
  rewriteSlides mapping row zip =
  if archiveCrashes mapping row zip then Throw TypeError
  else Ok (rewritten mapping row zip).
Proof.
  unfold rewriteSlides, archiveCrashes.
  change (filter _ (zipPaths zip)) with (slidePaths zip).
  rewrite rewriteSlides_fold by apply NoDup_slidePaths.
  by rewrite pureSlides_rewritten.
Qed.

Lemma archiveCrashes_false mapping row zip :
  archiveCrashes mapping row zip = false ↔
  ∀ (path content : jsstring),
    zip !! path = Some content → isSlidePath path = true →
    crashes mapping row content = false.
Proof.
  unfold archiveCrashes. split.
  - intros Hnone path content Hpath Hslide.
    destruct (crashes mapping row content) eqn:Hc; [|done].
    assert (existsb (slideCrashes mapping row zip) (slidePaths zip) = true)
      as Hsome; [|congruence].
    apply existsb_exists. exists path. split.
    + apply list_elem_of_In, elem_of_slidePaths. split; [done|]. by rewrite Hpath.
    + unfold slideCrashes. by rewrite Hpath.
  - intros Hall. apply not_true_iff_false.
    intros (path & Hin & Hc)%existsb_exists.
    apply list_elem_of_In, elem_of_slidePaths in Hin as [Hslide [c Hpath]].
    unfold slideCrashes in Hc. rewrite Hpath in Hc.
    by rewrite (Hall path c Hpath Hslide) in Hc.
Qed.

Lemma rewriteSlides_Ok mapping row zip out :
  rewriteSlides mapping row zip = Ok out ↔
  archiveCrashes mapping row zip = false ∧ out = rewritten mapping row zip.
Proof.
  rewrite rewriteSlides_spec. destruct (archiveCrashes mapping row zip).
  - split; [discriminate|]. by intros [? _].
  - split; [by intros [= <-]|]. by intros [_ ->].
Qed.

(** In the archive of a row every slide part holds the substituted
    content of the template's part; every other part is the
    template's. *)
Lemma rewriteSlides_lookup mapping row zip out (path : jsstring) :
  rewriteSlides mapping row zip = Ok out →
  out !! path = match zip !! path with
                | Some content =>
                    if isSlidePath path
                    then match substituteContent mapping row content with
                         | Ok content' => Some content'
                         | Throw _ => None
                         end
                    else Some content
                | None => None
                end.
Proof.
  intros [Hno ->]%rewriteSlides_Ok. rewrite rewritten_lookup.
  destruct (zip !! path) as [content|] eqn:Hpath; [|done]. cbn.
  destruct (isSlidePath path) eqn:Hslide; [|done].
  rewrite substituteContent_spec.
  by rewrite (proj1 (archiveCrashes_false mapping row zip) Hno path content).
Qed.

(** *** Output names *)

Definition isDigit (c : N) : bool := (48 <=? c) && (c <=? 57).

Lemma lit_inj s1 s2 : lit s1 = lit s2 → s1 = s2.
Proof.
  unfold lit. intros Heq.
  rewrite <-(string_of_list_ascii_of_string s1), <-(string_of_list_ascii_of_string s2).
  f_equal. revert Heq. generalize (list_ascii_of_string s1) (list_ascii_of_string s2).
  induction l as [|a l IH]; intros [|b l']; try discriminate; [done|].
  cbn. intros [= Hab Hl]. f_equal; [|by apply IH].
  by rewrite <-(ascii_N_embedding a), <-(ascii_N_embedding b), Hab.
Qed.

Lemma numberToString_inj n n' : numberToString n = numberToString n' → n = n'.
Proof.
  intros Heq%lit_inj.
  assert (∀ m, Nat.of_uint <$> NilZero.uint_of_string
                 (NilZero.string_of_uint (Nat.to_uint m)) = Some m) as Hback.
  { intros m. pose proof (DecimalNat.Unsigned.of_to m) as Hm.
    destruct (Nat.to_uint m) eqn:Hd;
      [cbn in *; by subst|rewrite NilZero.usu by done; cbn; by f_equal..]. }
  pose proof (Hback n) as Hn. rewrite Heq, Hback in Hn. by injection Hn.
Qed.

Lemma string_of_uint_digits d :
  Forall (fun c => isDigit c = true) (lit (NilEmpty.string_of_uint d)).
Proof. induction d; cbn; constructor; done. Qed.

Lemma numberToString_digits n :
  Forall (fun c => isDigit c = true) (numberToString n).
Proof.
  unfold numberToString, NilZero.string_of_uint.
  destruct (Nat.to_uint n) eqn:Hd; try (rewrite <-Hd; apply string_of_uint_digits).
  by repeat constructor.
Qed.

Lemma split_at_separator (u : N) a b r r' :
  u ∉ a → u ∉ b → a ++ u :: r = b ++ u :: r' → a = b.
Proof.
  revert b. induction a as [|x a IH]; intros [|y b] Ha Hb Heq; [done| | |].
  - injection Heq as -> _. by apply not_elem_of_cons in Hb as [? _].
  - injection Heq as -> _. by apply not_elem_of_cons in Ha as [? _].
  - injection Heq as -> Heq.
    apply not_elem_of_cons in Ha as [_ Ha], Hb as [_ Hb].
    f_equal. by apply IH.
Qed.

Lemma fileName_Ok i row name :
  fileName i row = Ok name →
  ∃ stem, nameStem row = Ok stem
          ∧ name = lit "slide_" ++ numberToString (i + 1) ++ lit "_"
                   ++ stem ++ lit ".pptx".
Proof.
  unfold fileName. destruct (nameStem row) as [stem|e]; [|discriminate].
  intros [= <-]. by exists stem.
Qed.

(** The row index written into the name tells the outputs apart. *)
Lemma fileName_inj i j ri rj name :
  fileName i ri = Ok name → fileName j rj = Ok name → i = j.
Proof.
  intros (si & _ & ->)%fileName_Ok (sj & _ & Heq)%fileName_Ok.
  apply app_inv_head in Heq.
  change (lit "_") with [95] in Heq. cbn [app] in Heq.
  apply split_at_separator in Heq.
  - apply numberToString_inj in Heq. lia.
  - intros Hin. pose proof (numberToString_digits (i + 1)) as Hd.
    rewrite Forall_forall in Hd. by specialize (Hd _ Hin).
  - intros Hin. pose proof (numberToString_digits (j + 1)) as Hd.
    rewrite Forall_forall in Hd. by specialize (Hd _ Hin).
Qed.

(** *** The rows of a batch *)

(** What the loop body makes of row [i]: the name and the archive it
    adds to the outer archive, or the exception that ends the batch. *)
Definition rowOutput (tf : TemplateFile) mapping (i : nat) row
    : Result (jsstring * Archive) :=
  pptxZip ← loadAsync tf;
  pptxBlob ← rewriteSlides mapping row pptxZip;
  name ← fileName i row;
  Ok (name, pptxBlob).

(** The events of row [i] in a batch of [total] rows. *)
Definition entryEvents (total i : nat) (out : jsstring * Archive) : list Event :=
  [FileAdded out.1 out.2; ProgressCall (i + 1) total].

Definition addEntry (m : gmap jsstring Archive) (p : jsstring * Archive)
    : gmap jsstring Archive :=
  <[p.1 := p.2]> m.

(** The outputs of the rows the batch completes: those before the
    first row whose loop body throws. *)
Fixpoint completed (tf : TemplateFile) mapping (i : nat) (rows : list CsvRow)
    : list (jsstring * Archive) :=
  match rows with
  | [] => []
  | row :: rest =>
      match rowOutput tf mapping i row with
      | Ok out => out :: completed tf mapping (S i) rest
      | Throw _ => []
      end
  end.

(** The exception of the first row whose loop body throws. *)
Fixpoint failure (tf : TemplateFile) mapping (i : nat) (rows : list CsvRow)
    : option Error :=
  match rows with
  | [] => None
  | row :: rest =>
      match rowOutput tf mapping i row with
      | Ok _ => failure tf mapping (S i) rest
      | Throw e => Some e
      end
  end.

Lemma rowOutput_Ok tf mapping i row name blob :
  rowOutput tf mapping i row = Ok (name, blob) ↔
  ∃ zip, tf = Package zip ∧ rewriteSlides mapping row zip = Ok blob
         ∧ fileName i row = Ok name.
Proof.
  unfold rowOutput, mbind, Result_bind. destruct tf as [zip|]; cbn [loadAsync].
  - destruct (rewriteSlides mapping row zip) as [b|e] eqn:Hb.
    + destruct (fileName i row) as [n|e] eqn:Hn.
      * split.
        -- intros [= -> ->]. by exists zip.
        -- intros (z & [= <-] & Hb' & [= <-]). rewrite Hb in Hb'.
           by injection Hb' as <-.
      * split; [discriminate|]. by intros (z & _ & _ & ?).
    + split; [discriminate|]. intros (z & [= <-] & Hb' & _). congruence.
  - split; [discriminate|]. by intros (z & ? & _).
Qed.

Lemma processRow_spec tf mapping total i row st :
  processRow tf mapping total i row st =
  match rowOutput tf mapping i row with
  | Ok out => (Ok tt, {| masterZip := addEntry (masterZip st) out;
                         events := events st ++ entryEvents total i out |})
  | Throw e => (Throw e, st)
  end.
Proof.
  unfold processRow, rowOutput, mbind, Eff_bind, Result_bind, await,
    masterFile, onProgress.
  destruct (loadAsync tf) as [zip|e]; [|reflexivity].
  destruct (rewriteSlides mapping row zip) as [blob|e]; [|reflexivity].
  destruct (fileName i row) as [name|e]; [|reflexivity].
  cbn. by rewrite <-app_assoc.
Qed.

Lemma batchLoop_spec tf mapping total rows i st :
  batchLoop tf mapping total i rows st =
  (match failure tf mapping i rows with
   | None => Ok tt
   | Some e => Throw e
   end,
   {| masterZip := foldl addEntry (masterZip st) (completed tf mapping i rows);
      events :=
        events st
        ++ mjoin (imap (fun j => entryEvents total (i + j))
                       (completed tf mapping i rows)) |}).
Proof.
  revert i st. induction rows as [|row rest IH]; intros i st.
  - cbn. rewrite app_nil_r. by destruct st.
  - cbn [batchLoop completed failure]. unfold mbind at 1, Eff_bind at 1.
    rewrite processRow_spec.
    destruct (rowOutput tf mapping i row) as [out|e].
    + rewrite IH. cbn [masterZip events].
      rewrite imap_cons. cbn [foldl mjoin list_join].
      rewrite Nat.add_0_r, <-app_assoc. do 5 f_equal.
      apply imap_ext. intros j x _. cbn. f_equal. lia.
    + cbn. rewrite app_nil_r. by destruct st.
Qed.

Lemma generateBatch_spec tf (data : list CsvRow) mapping :
  generateBatch tf data mapping =
  (match failure tf mapping 0 data with
   | None => Ok (foldl addEntry ∅ (completed tf mapping 0 data))
   | Some e => Throw e
   end,
   mjoin (imap (entryEvents (length data)) (completed tf mapping 0 data))).
Proof.
  unfold generateBatch. rewrite batchLoop_spec.
  by destruct (failure tf mapping 0 data).
Qed.

Lemma completed_lookup tf mapping (rows : list CsvRow) i j out :
  completed tf mapping i rows !! j = Some out →
  ∃ row, rows !! j = Some row ∧ rowOutput tf mapping (i + j) row = Ok out.
Proof.
  revert i j. induction rows as [|row rest IH]; intros i j; [done|].
  cbn [completed]. destruct (rowOutput tf mapping i row) as [o|e] eqn:Ho; [|done].
  destruct j as [|j].
  - intros [= <-]. exists row. by rewrite Nat.add_0_r.
  - cbn [lookup list_lookup]. intros (r & Hr & Hout)%IH.
    exists r. split; [done|]. by replace (i + S j)%nat with (S i + j)%nat by lia.
Qed.

Lemma completed_length tf mapping (rows : list CsvRow) i :
  (length (completed tf mapping i rows) ≤ length rows)%nat.
Proof.
  revert i. induction rows as [|row rest IH]; intros i; [done|].
  cbn [completed]. destruct (rowOutput tf mapping i row); cbn [length].
  - specialize (IH (S i)). lia.
  - lia.
Qed.

Lemma failure_None tf mapping (rows : list CsvRow) i :
  failure tf mapping i rows = None ↔
  length (completed tf mapping i rows) = length rows.
Proof.
  revert i. induction rows as [|row rest IH]; intros i; [done|].
  cbn [completed failure]. destruct (rowOutput tf mapping i row); cbn [length].
  - rewrite IH. lia.
  - split; [discriminate|lia].
Qed.

(** The row at which a failing batch stops. *)
Lemma failure_Some tf mapping (rows : list CsvRow) i e :
  failure tf mapping i rows = Some e →
  ∃ row, rows !! length (completed tf mapping i rows) = Some row
         ∧ rowOutput tf mapping (i + length (completed tf mapping i rows)) row
           = Throw e.
Proof.
  revert i. induction rows as [|row rest IH]; intros i; [done|].
  cbn [completed failure].
  destruct (rowOutput tf mapping i row) as [out|e'] eqn:Ho.
  - intros (r & Hr & Hout)%IH. exists r. cbn [length lookup list_lookup].
    split; [done|].
    by replace (i + S (length (completed tf mapping (S i) rest)))%nat
      with (S i + length (completed tf mapping (S i) rest))%nat by lia.
  - intros [= <-]. exists row. cbn [length]. by rewrite Nat.add_0_r.
Qed.

Lemma completed_all tf mapping (rows : list CsvRow) i j row :
  failure tf mapping i rows = None → rows !! j = Some row →
  ∃ out, completed tf mapping i rows !! j = Some out
         ∧ rowOutput tf mapping (i + j) row = Ok out.
Proof.
  intros Hnone%failure_None Hrow.
  destruct (completed tf mapping i rows !! j) as [out|] eqn:Hout.
  - exists out. split; [done|].
    apply completed_lookup in Hout as (r & Hr & Hout). congruence.
  - apply lookup_ge_None in Hout. apply lookup_lt_Some in Hrow. lia.
Qed.

Lemma failure_None_all tf mapping (rows : list CsvRow) i :
  (∀ j row, rows !! j = Some row →
     ∃ out, rowOutput tf mapping (i + j) row = Ok out) →
  failure tf mapping i rows = None.
Proof.
  intros Hall. destruct (failure tf mapping i rows) as [e|] eqn:Hfail; [|done].
  apply failure_Some in Hfail as (row & Hrow & Hthrow).
  destruct (Hall _ _ Hrow) as [out Hout]. congruence.
Qed.

Lemma progressCalls_entries (total : nat) (outs : list (jsstring * Archive)) i :
  progressCalls (mjoin (imap (fun j => entryEvents total (i + j)) outs))
  = (fun k => (k, total)) <$> seq (i + 1) (length outs).
Proof.
  revert i. induction outs as [|out rest IH]; intros i; [done|].
  rewrite imap_cons. cbn [mjoin list_join length seq fmap list_fmap].
  change (S (i + 1)) with (S i + 1)%nat. rewrite <-(IH (S i)).
  rewrite Nat.add_0_r. unfold progressCalls.
  cbn [entryEvents app omap list_omap]. do 3 f_equal.
  apply imap_ext. intros j x _. cbn. f_equal. lia.
Qed.

Lemma entryEvents_length (total : nat) (outs : list (jsstring * Archive)) i :
  length (mjoin (imap (fun j => entryEvents total (i + j)) outs))
  = (2 * length outs)%nat.
Proof.
  revert i. induction outs as [|out rest IH]; intros i; [done|].
  rewrite imap_cons. cbn [mjoin list_join entryEvents app length].
  replace (2 * S (length rest))%nat with (S (S (2 * length rest))) by lia.
  rewrite <-(IH (S i)). do 4 f_equal.
  apply imap_ext. intros j x _. cbn. f_equal. lia.
Qed.

Lemma entryEvents_lookup (total : nat) (outs : list (jsstring * Archive)) i k out :
  outs !! k = Some out →
  let evs := mjoin (imap (fun j => entryEvents total (i + j)) outs) in
  evs !! (2 * k)%nat = Some (FileAdded out.1 out.2)
  ∧ evs !! (2 * k + 1)%nat = Some (ProgressCall (i + k + 1) total).
Proof.
  revert i k. induction outs as [|o rest IH]; intros i k Hk; [done|].
  cbn zeta. rewrite imap_cons. cbn [mjoin list_join entryEvents app].
  destruct k as [|k].
  - injection Hk as ->. rewrite !Nat.add_0_r. by split.
  - cbn [lookup list_lookup] in Hk.
    destruct (IH (S i) k Hk) as [H1 H2]. cbn zeta in H1, H2.
    replace (2 * S k)%nat with (S (S (2 * k))) by lia.
    replace (S (S (2 * k)) + 1)%nat with (S (S (2 * k + 1))) by lia.
    cbn [lookup list_lookup].
    replace (i + S k)%nat with (S i + k)%nat by lia.
    rewrite <-H1, <-H2. split; f_equal; f_equal;
      apply imap_ext; intros j x _; cbn; f_equal; lia.
Qed.

Lemma completed_NoDup tf mapping (rows : list CsvRow) i :
  NoDup (completed tf mapping i rows).*1.
Proof.
  apply NoDup_alt. intros j k name Hj Hk.
  rewrite list_lookup_fmap in Hj, Hk.
  destruct (completed tf mapping i rows !! j) as [[nj bj]|] eqn:Hoj; [|done].
  destruct (completed tf mapping i rows !! k) as [[nk bk]|] eqn:Hok; [|done].
  cbn in Hj, Hk. injection Hj as ->. injection Hk as ->.
  apply completed_lookup in Hoj as (rj & _ & Hrj), Hok as (rk & _ & Hrk).
  apply rowOutput_Ok in Hrj as (_ & _ & _ & Hnj), Hrk as (_ & _ & _ & Hnk).
  pose proof (fileName_inj _ _ _ _ _ Hnj Hnk). lia.
Qed.

Lemma foldl_addEntry l m0 :
  foldl addEntry m0 l = foldr (fun p m => <[p.1 := p.2]> m) m0 (reverse l).
Proof.
  revert m0. induction l as [|p l IH]; intros m0; [done|].
  cbn [foldl]. rewrite IH, reverse_cons, foldr_app. reflexivity.
Qed.

Lemma master_is_list_to_map (outs : list (jsstring * Archive)) :
  foldl addEntry ∅ outs = list_to_map (reverse outs).
Proof. by rewrite foldl_addEntry. Qed.

Lemma master_lookup tf mapping (rows : list CsvRow) (name : jsstring)
    (blob : Archive) :
  foldl addEntry ∅ (completed tf mapping 0 rows) !! name = Some blob ↔
  (name, blob) ∈ completed tf mapping 0 rows.
Proof.
  rewrite master_is_list_to_map. split.
  - intros Hin%elem_of_list_to_map_2. by apply elem_of_reverse.
  - intros Hin. apply elem_of_list_to_map_1; [|by apply elem_of_reverse].
    rewrite fmap_reverse, reverse_Permutation. apply completed_NoDup.
Qed.

Lemma master_size tf mapping (rows : list CsvRow) :
  size (foldl addEntry ∅ (completed tf mapping 0 rows))
  = length (completed tf mapping 0 rows).
Proof.
  rewrite master_is_list_to_map, map_size_list_to_map.
  - by rewrite length_reverse.
  - rewrite fmap_reverse, reverse_Permutation. apply completed_NoDup.
Qed.

(** With a template that does not decode, the first row aborts the run
    before anything is added or reported. *)
Lemma generateBatch_corrupt row rest mapping :
  generateBatch Corrupt (row :: rest) mapping = (Throw CorruptArchive, []).
Proof. reflexivity. Qed.

End Batch.

(** ** Properties of the substitution engine *)

Section Substitution.

Context `{Engine}.

Implicit Types (mapping : ColumnMapping) (row : CsvRow).

(** A key the guard [csvColumnName && ...] rejects at its first
    conjunct by the mapping's own entries: no entry, [null], or the
    empty string. *)
Definition unmapped mapping (key : jsstring) : Prop :=
  mapping !! key = None ∨ mapping !! key = Some None
  ∨ mapping !! key = Some (Some []).

(** A key mapped to a column under which the row has nothing. *)
Definition columnAbsent mapping row (key : jsstring) : Prop :=
  ∃ col, mapping !! key = Some (Some col) ∧ rowGet row col = Undefined.

Definition isText (f : Field) : bool :=
  match f with
  | Text _ => true
  | Extra _ => false
  end.

(** A string value with an opening brace in it. *)
Definition hasBrace (f : Field) : bool :=
  match f with
  | Text v => bool_decide (lbrace ∈ v)
  | Extra _ => false
  end.

(** A value of the mapping that is no member name of
    [Object.prototype]. *)
Definition plainColumn (v : option jsstring) : bool :=
  match v with
  | Some col => negb (isInherited col)
  | None => true
  end.

Lemma rowOwn_elem row col f : rowOwn row col = Some f → (col, f) ∈ row.
Proof.
  unfold rowOwn. induction row as [|[k w] row IH]; [discriminate|].
  cbn [JS.find]. case_bool_decide as Hk.
  - cbn in Hk. subst k. intros [= ->]. apply list_elem_of_here.
  - intros Hf. apply list_elem_of_further. by apply IH.
Qed.

Lemma rowGet_Str row col v :
  rowGet row col = Str v ↔ rowOwn row col = Some (Text v).
Proof.
  unfold rowGet. destruct (rowOwn row col) as [[s|items]|]; cbn.
  - split; by intros [= ->].
  - split; discriminate.
  - destruct (isInherited col); split; discriminate.
Qed.

Lemma rowGet_Undefined row col :
  rowGet row col = Undefined ↔ rowOwn row col = None ∧ isInherited col = false.
Proof.
  unfold rowGet. destruct (rowOwn row col) as [[s|items]|]; cbn.
  - split; [discriminate|]. by intros [? _].
  - split; [discriminate|]. by intros [? _].
  - destruct (isInherited col); split; try done. by intros [_ ?].
Qed.

Lemma rowGet_not_Null row col : rowGet row col ≠ Null.
Proof.
  unfold rowGet. destruct (rowOwn row col) as [[s|items]|]; cbn; try done.
  by destruct (isInherited col).
Qed.

(** In a row of strings, a column that is no member name of
    [Object.prototype] is read as a string or as [undefined]. *)
Lemma rowGet_plain row col :
  Forall (fun kv => isText kv.2 = true) row → isInherited col = false →
  rowGet row col = Undefined ∨ ∃ v, rowGet row col = Str v.
Proof.
  intros Htext Hcol. unfold rowGet.
  destruct (rowOwn row col) as [f|] eqn:Hown.
  - right. apply rowOwn_elem in Hown. rewrite Forall_forall in Htext.
    specialize (Htext _ Hown). destruct f as [v|items]; [|done]. by exists v.
  - left. by rewrite Hcol.
Qed.

Lemma mappingGet_own mapping key col :
  mapping !! key = Some (Some col) → mappingGet mapping key = Str col.
Proof. unfold mappingGet. by intros ->. Qed.

Lemma mappingGet_null mapping key :
  mapping !! key = Some None → mappingGet mapping key = Null.
Proof. unfold mappingGet. by intros ->. Qed.

Lemma mappingGet_none mapping key :
  mapping !! key = None → inherits mapping = false ∨ isInherited key = false →
  mappingGet mapping key = Undefined.
Proof.
  unfold mappingGet. intros -> [-> | ->]; [done|]. by rewrite andb_false_r.
Qed.

(** The callback on a key with a non-empty column name of its own. *)
Lemma verdict_mapped mapping row cap col :
  mapping !! trim cap = Some (Some col) → col ≠ [] →
  verdict mapping row cap =
  match rowGet row col with
  | Undefined => Keep
  | Null => Replace []
  | Str v => Replace (escapeXml v)
  | Arr _ | Builtin _ => Crash
  end.
Proof.
  intros Hmap Hcol. unfold verdict. rewrite (mappingGet_own _ _ _ Hmap).
  by destruct col.
Qed.

(** The callback on a key without a column name, on which nothing is
    inherited. *)
Lemma verdict_unmapped mapping row cap :
  unmapped mapping (trim cap) →
  inherits mapping = false ∨ isInherited (trim cap) = false
  ∨ mapping !! trim cap ≠ None →
  verdict mapping row cap = Keep.
Proof.
  intros [Hnone|[Hnull|Hempty]] Hplain; unfold verdict.
  - rewrite mappingGet_none; [done..|]. destruct Hplain as [?|[?|?]]; tauto.
  - by rewrite (mappingGet_null _ _ Hnull).
  - by rewrite (mappingGet_own _ _ _ Hempty).
Qed.

Lemma fires_no_lbrace mapping row cap w :
  Forall (fun kv => hasBrace kv.2 = false) row →
  fires mapping row cap = Some w → lbrace ∉ w.
Proof.
  intros Hrow. unfold fires, verdict.
  destruct (truthy (mappingGet mapping (trim cap))); [|discriminate].
  destruct (rowGet row _) as [| |v| |] eqn:Hget; try discriminate.
  - intros [= <-]. apply not_elem_of_nil.
  - intros [= <-]. apply rowGet_Str, rowOwn_elem in Hget.
    rewrite Forall_forall in Hrow. specialize (Hrow _ Hget). cbn in Hrow.
    apply escapeXml_no_lbrace. by apply bool_decide_eq_false in Hrow.
Qed.

(** With keys and column names that are no member names of
    [Object.prototype] and a row of strings, the callback never
    throws, and it leaves a match in place exactly when its key is
    unmapped or mapped to a column the row lacks. *)
Lemma verdict_plain mapping row cap :
  isInherited (trim cap) = false →
  map_Forall (fun _ v => plainColumn v = true) (entries mapping) →
  Forall (fun kv => isText kv.2 = true) row →
  verdict mapping row cap ≠ Crash
  ∧ (fires mapping row cap = None ↔
     unmapped mapping (trim cap) ∨ columnAbsent mapping row (trim cap)).
Proof.
  intros Hkey Hcols Htext. unfold fires, unmapped, columnAbsent.
  destruct (mapping !! trim cap) as [[col|]|] eqn:Hmap.
  - destruct col as [|c cs].
    + rewrite verdict_unmapped; [|unfold unmapped; tauto|tauto].
      split; [done|]. split; [tauto|done].
    + rewrite (verdict_mapped _ _ _ (c :: cs)) by done.
      assert (isInherited (c :: cs) = false) as Hcol.
      { specialize (Hcols (trim cap) (Some (c :: cs)) Hmap). cbn in Hcols.
        by apply negb_true_iff in Hcols. }
      destruct (rowGet_plain row (c :: cs) Htext Hcol) as [Hget|[v Hget]];
        rewrite Hget.
      * split; [done|]. split; [|done]. intros _. right. by exists (c :: cs).
      * split; [done|]. split; [done|].
        intros [[?|[?|?]]|(col & [= <-] & Hcol')]; congruence.
  - rewrite verdict_unmapped; [|unfold unmapped; tauto|].
    + split; [done|]. split; [tauto|done].
    + right. right. congruence.
  - rewrite verdict_unmapped; [|unfold unmapped; tauto|tauto].
    split; [done|]. split; [tauto|done].
Qed.

Lemma extractedKey_simple cap :
  goodCap cap → containsOpen cap = false → extractedKey cap = trim cap.
Proof.
  intros Hgood Hopen. unfold extractedKey. f_equal.
  rewrite matchText_eq. rewrite stripBraces_pair.
  change (opens (lbrace :: lbrace :: cap ++ [rbrace; rbrace])) with true.
  cbn [orb]. by apply stripBraces_capture.
Qed.

Lemma rewriteSegs_unfired sub L :
  (∀ cap, Tok cap ∈ L → sub cap = None) → rewriteSegs sub L = L.
Proof.
  induction L as [|[c|cap] L IH]; intros Hleft; [done| |].
  - rewrite rewriteSegs_cons. cbn [rewriteSeg app]. f_equal.
    apply IH. intros cap Hin. apply Hleft. by apply list_elem_of_further.
  - rewrite rewriteSegs_cons. cbn [rewriteSeg].
    rewrite (Hleft cap) by apply list_elem_of_here. cbn [app]. f_equal.
    apply IH. intros cap' Hin. apply Hleft. by apply list_elem_of_further.
Qed.

(** A text all of whose matches the callback returns unchanged. *)
Lemma substituteContent_kept mapping row s :
  (∀ cap, Tok cap ∈ tokenize s → verdict mapping row cap = Keep) →
  substituteContent mapping row s = Ok s.
Proof.
  intros Hkeep. apply substituteContent_Ok. split.
  - apply crashes_false. intros cap Hin. by rewrite (Hkeep cap Hin).
  - unfold substituted. rewrite rewriteSegs_unfired.
    + by rewrite render_tokenize.
    + intros cap Hin. unfold fires. by rewrite (Hkeep cap Hin).
Qed.

Lemma replaceSegments_app fn A B :
  replaceSegments fn (A ++ B) =
  (a ← replaceSegments fn A; b ← replaceSegments fn B; Ok (a ++ b)).
Proof.
  induction A as [|[c|cap] A IH]; cbn [app replaceSegments].
  - unfold mbind, Result_bind. by destruct (replaceSegments fn B).
  - rewrite IH. unfold mbind, Result_bind.
    destruct (replaceSegments fn A); [|done].
    by destruct (replaceSegments fn B).
  - rewrite IH. unfold mbind, Result_bind.
    destruct (fn (matchText cap) cap); [|done].
    destruct (replaceSegments fn A); [|done].
    destruct (replaceSegments fn B); [|done].
    by rewrite app_assoc.
Qed.

Lemma replaceSegments_lits fn w : replaceSegments fn (Lit <$> w) = Ok w.
Proof.
  induction w as [|c w IH]; [done|]. cbn [fmap list_fmap replaceSegments].
  change (replaceSegments fn (list_fmap N Segment Lit w))
    with (replaceSegments fn (Lit <$> w)).
  by rewrite IH.
Qed.

(** C1, as amended.  The substitution of [generateBatch] on the content
    of a slide part.  In the archive of a row, a slide part holds what
    [content.replace] returned for the template's content.  The content
    has exactly one cutting into leftmost, non-overlapping, shortest
    matches of [{{...}}], whose captured text holds no line terminator,
    and the code units between them; [replace] copies the code units
    and replaces every match by what the callback returns for it, from
    left to right.  The callback trims the captured key.  When the
    mapping has a non-empty column name of its own for the key and the
    row has a string under that column, it returns that string with the
    ampersand, the two angle brackets, the double quote and the
    apostrophe turned into their entities, which the five passes
    beginning with the ampersand do unit by unit.  It returns the match
    unchanged when the mapping has [null] or the empty string for the
    key, when it has no entry for a key that is no member name of
    [Object.prototype], and when the row has nothing under the
    column. *)
Theorem substitution_per_token mapping row (content : jsstring) :
  (∀ (zip out : Archive) path,
     zip !! path = Some content → isSlidePath path = true →
     rewriteSlides mapping row zip = Ok out →
     ∃ content', substituteContent mapping row content = Ok content'
                 ∧ out !! path = Some content') ∧
  (∃ segs, Scan content segs) ∧
  (∀ segs, Scan content segs →
     (∀ cap, Tok cap ∈ segs → NoTerminator cap)
     ∧ substituteContent mapping row content
       = replaceSegments (replacer mapping row) segs) ∧
  (∀ cap,
     (∀ col v,
        mapping !! trim cap = Some (Some col) → col ≠ [] →
        rowGet row col = Str v →
        replacer mapping row (matchText cap) cap = Ok (escapeXml v)
        ∧ escapeXml v = v ≫= escapeUnit) ∧
     (mapping !! trim cap = Some None ∨ mapping !! trim cap = Some (Some []) →
        replacer mapping row (matchText cap) cap = Ok (matchText cap)) ∧
     (mapping !! trim cap = None →
        inherits mapping = false ∨ isInherited (trim cap) = false →
        replacer mapping row (matchText cap) cap = Ok (matchText cap)) ∧
     (columnAbsent mapping row (trim cap) →
        replacer mapping row (matchText cap) cap = Ok (matchText cap))).
Proof.
  split; [|split; [|split]].
  - intros zip out path Hpath Hslide Hout.
    pose proof (rewriteSlides_lookup _ _ _ _ path Hout) as Hlook.
    rewrite Hpath, Hslide in Hlook.
    destruct (substituteContent mapping row content) as [c'|e] eqn:Hc.
    + by exists c'.
    + apply rewriteSlides_Ok in Hout as [Hno _].
      rewrite substituteContent_spec in Hc.
      by rewrite (proj1 (archiveCrashes_false _ _ _) Hno path content) in Hc.
  - exists (tokenize content). apply tokenize_Scan.
  - intros segs Hscan. rewrite (Scan_unique _ _ Hscan). split; [|done].
    intros cap Hin. by apply scanFrom_captures in Hin as [? _].
  - intros cap. rewrite replacer_verdict.
    split; [|split; [|split]].
    + intros col v Hmap Hcol Hget. split; [|apply escapeXml_units].
      rewrite (verdict_mapped _ _ _ col) by done. by rewrite Hget.
    + intros Hun. rewrite verdict_unmapped; [done| |].
      * unfold unmapped. tauto.
      * right. right. destruct Hun; congruence.
    + intros Hnone Hplain. rewrite verdict_unmapped; [done| |].
      * by left.
      * tauto.
    + intros (col & Hmap & Hget). destruct col as [|c cs].
      * rewrite verdict_unmapped; [done| |].
        -- unfold unmapped. tauto.
        -- right. right. congruence.
      * rewrite (verdict_mapped _ _ _ (c :: cs)) by done. by rewrite Hget.
Qed.

(** C2, as amended.  Let the template text hold no match with [{{]
    inside its braces and no key that is a member name of
    [Object.prototype], let no column name of the mapping be such a
    name, and let the row hold strings without opening brace.  Then
    substitution returns a text, and the keys extracted from it are
    exactly the keys extracted from the template that are unmapped (no
    entry, [null] or the empty column name) or mapped to a column the
    row lacks. *)
Theorem reextract_after_substitution mapping row (T : jsstring) :
  Forall (fun cap => containsOpen cap = false) (captures (tokenize T)) →
  Forall (fun cap => isInherited (trim cap) = false) (captures (tokenize T)) →
  map_Forall (fun _ v => plainColumn v = true) (entries mapping) →
  Forall (fun kv => isText kv.2 = true) row →
  Forall (fun kv => hasBrace kv.2 = false) row →
  ∃ out, substituteContent mapping row T = Ok out
         ∧ ∀ k, k ∈ extractKeys out ↔
                k ∈ extractKeys T
                ∧ (unmapped mapping k ∨ columnAbsent mapping row k).
Proof.
  intros Hsimple Hkeys Hcols Htext Hbrace.
  rewrite Forall_forall in Hsimple. rewrite Forall_forall in Hkeys.
  assert (∀ cap, cap ∈ captures (tokenize T) →
            verdict mapping row cap ≠ Crash
            ∧ (fires mapping row cap = None ↔
               unmapped mapping (trim cap) ∨ columnAbsent mapping row (trim cap)))
    as Hplain.
  { intros cap Hin. apply verdict_plain; [by apply Hkeys|done..]. }
  exists (substituted mapping row T). split.
  { apply substituteContent_Ok. split; [|done]. apply crashes_false.
    intros cap Hin%elem_of_captures. by apply Hplain. }
  intros k. unfold substituted. rewrite !extractKeys_captures.
  rewrite tokenize_rewritten by (intros ? ?; by apply fires_no_lbrace).
  rewrite captures_rewriteSegs, !elem_of_arrayFromSet, !list_elem_of_fmap.
  assert (∀ cap, cap ∈ captures (tokenize T) → extractedKey cap = trim cap)
    as Hkey.
  { intros cap Hin. apply extractedKey_simple; [|by apply Hsimple].
    apply elem_of_captures in Hin. by apply scanFrom_captures in Hin as [_ ?]. }
  split.
  - intros (cap & -> & [Hfire Hin]%list_elem_of_filter).
    rewrite (Hkey _ Hin). split; [|by apply Hplain].
    exists cap. by rewrite (Hkey _ Hin).
  - intros [(cap & -> & Hin) Hleft]. exists cap. split; [done|].
    apply list_elem_of_filter. split; [|done].
    rewrite (Hkey _ Hin) in Hleft. by apply Hplain.
Qed.

(** C6.  Decoding the five predefined entities undoes the escaping of
    every value, whatever mix of ampersands, angle brackets, double
    quotes, apostrophes and other code units it holds; so decoding the
    text substituted for a match gives the row's value back. *)
Theorem escape_round_trip (v : jsstring) :
  decodeEntities (escapeXml v) = v ∧
  (∀ mapping row cap col,
     mapping !! trim cap = Some (Some col) → col ≠ [] →
     rowGet row col = Str v →
     ∃ out, replacer mapping row (matchText cap) cap = Ok out
            ∧ decodeEntities out = v).
Proof.
  assert (decodeEntities (escapeXml v) = v) as Hround.
  { induction v as [|c v IH]; [reflexivity|].
    by rewrite escapeXml_cons, decode_escapeUnit, IH. }
  split; [exact Hround|].
  intros mapping row cap col Hmap Hcol Hget. exists (escapeXml v).
  split; [|exact Hround].
  rewrite replacer_verdict, (verdict_mapped _ _ _ col) by done.
  by rewrite Hget.
Qed.

(** C9.  A key the mapping sends to the empty string is treated as
    unmapped: the callback returns every match with that key unchanged
    and a content whose matches all have that key is returned as it is,
    whatever the row holds, also under the empty column name. *)
Theorem empty_column_name_is_unmapped mapping row (key : jsstring) :
  mapping !! key = Some (Some []) →
  (∀ cap, trim cap = key →
     replacer mapping row (matchText cap) cap = Ok (matchText cap)) ∧
  (∀ content,
     Forall (fun cap => trim cap = key) (captures (tokenize content)) →
     substituteContent mapping row content = Ok content).
Proof.
  intros Hmap.
  assert (∀ cap, trim cap = key → verdict mapping row cap = Keep) as Hkeep.
  { intros cap <-. apply verdict_unmapped.
    - unfold unmapped. tauto.
    - right. right. congruence. }
  split.
  - intros cap Hcap. by rewrite replacer_verdict, Hkeep.
  - intros content Hall. apply substituteContent_kept.
    rewrite Forall_forall in Hall.
    intros cap Hin. apply Hkeep, Hall. by apply elem_of_captures.
Qed.

(** C10, as amended.  The captured text of a match never holds a line
    terminator.  A brace pair around a text with a line break, with no
    [}}] before the break and no [{{] after it, is therefore no match
    and holds none, whatever surrounds it: substitution copies it
    unchanged between the substituted surroundings (and throws only
    where the substitution of a surrounding does), and extraction
    reports only the keys of the surroundings. *)
Theorem line_break_token_ignored mapping row (pre m1 m2 post : jsstring) (nl : N) :
  isLineTerminator nl = true →
  containsClose m1 = false → containsOpen m2 = false →
  (∀ s cap, Tok cap ∈ tokenize s → NoTerminator cap) ∧
  substituteContent mapping row (pre ++ matchText (m1 ++ nl :: m2) ++ post) =
    (before ← substituteContent mapping row pre;
     after ← substituteContent mapping row post;
     Ok (before ++ matchText (m1 ++ nl :: m2) ++ after)) ∧
  (∀ k, k ∈ extractKeys (pre ++ matchText (m1 ++ nl :: m2) ++ post) ↔
        k ∈ extractKeys pre ∨ k ∈ extractKeys post).
Proof.
  intros Hnl H1 H2.
  pose proof (tokenize_broken pre m1 nl m2 post Hnl H1 H2) as Htok.
  split; [|split].
  - intros s cap Hin. by apply scanFrom_captures in Hin as [? _].
  - unfold substituteContent, regexReplace. rewrite Htok.
    rewrite !replaceSegments_app, replaceSegments_lits.
    unfold mbind, Result_bind.
    destruct (replaceSegments _ (tokenize pre)); [|done].
    by destruct (replaceSegments _ (tokenize post)).
  - intros k. rewrite !extractKeys_captures, Htok, !captures_app, captures_lits.
    rewrite !elem_of_arrayFromSet. cbn [app].
    by rewrite fmap_app, elem_of_app.
Qed.

End Substitution.

(** ** Properties of the batch run *)

Section BatchProperties.

Context `{Engine}.

Implicit Types (mapping : ColumnMapping) (row : CsvRow) (zip : Archive)
  (tf : TemplateFile).

(** C4, as amended.  In a batch of [N] rows, [onProgress] is called
    once for every row the batch completes: [k] times for some
    [k ≤ N], with [(1, N)], ..., [(k, N)] in this order.  The run
    consists of [2 * k] events: for each of the first [k] rows, the
    addition of the archive made from it to the outer archive, directly
    followed by the call of [onProgress] for it.  The batch returns its
    outer archive exactly when [k = N]; otherwise it ends with the
    exception thrown by the loop body of the row of index [k].  It
    completes all [N] rows when the loop body throws for none of
    them; with a template that does not decode it completes none. *)
Theorem progress_once_per_row tf (data : list CsvRow) mapping :
  ∃ k : nat,
    (k ≤ length data)%nat
    ∧ progressCalls (generateBatch tf data mapping).2
      = (fun j => (j, length data)) <$> seq 1 k
    ∧ length (generateBatch tf data mapping).2 = (2 * k)%nat
    ∧ (∀ i, (i < k)%nat →
         ∃ zip row name blob,
           tf = Package zip ∧ data !! i = Some row
           ∧ rewriteSlides mapping row zip = Ok blob
           ∧ fileName i row = Ok name
           ∧ (generateBatch tf data mapping).2 !! (2 * i)%nat
             = Some (FileAdded name blob)
           ∧ (generateBatch tf data mapping).2 !! (2 * i + 1)%nat
             = Some (ProgressCall (i + 1) (length data)))
    ∧ ((∃ master, (generateBatch tf data mapping).1 = Ok master)
       ↔ k = length data)
    ∧ (∀ e, (generateBatch tf data mapping).1 = Throw e →
         ∃ row, data !! k = Some row ∧ rowOutput tf mapping k row = Throw e)
    ∧ ((∀ i row, data !! i = Some row →
          ∃ out, rowOutput tf mapping i row = Ok out) →
       k = length data)
    ∧ (tf = Corrupt → k = 0%nat).
Proof.
  exists (length (completed tf mapping 0 data)).
  rewrite generateBatch_spec. cbn [fst snd].
  split; [apply completed_length|].
  split; [|split; [|split; [|split; [|split; [|split]]]]].
  - apply (progressCalls_entries (length data) (completed tf mapping 0 data) 0).
  - apply (entryEvents_length (length data) (completed tf mapping 0 data) 0).
  - intros i Hi.
    destruct (lookup_lt_is_Some_2 (completed tf mapping 0 data) i Hi)
      as [[name blob] Hout].
    destruct (completed_lookup _ _ _ _ _ _ Hout) as (row & Hrow & Hrun).
    apply rowOutput_Ok in Hrun as (zip & -> & Hblob & Hname).
    exists zip, row, name, blob.
    destruct (entryEvents_lookup (length data) _ 0 i _ Hout) as [Hadd Hcall].
    by repeat split.
  - rewrite <-failure_None.
    destruct (failure tf mapping 0 data); split; try done; [by intros [? ?]|eauto].
  - intros e He.
    destruct (failure tf mapping 0 data) as [e'|] eqn:Hfail; [|done].
    injection He as ->. by apply (failure_Some tf mapping data 0).
  - intros Hall. apply failure_None. by apply failure_None_all.
  - intros ->. by destruct data.
Qed.

(** C8, as amended.  The name of an output holds the 1-based index of
    its row, so two rows never get the same name: whenever the batch
    returns its outer archive, that archive has exactly one entry per
    row, each holding the archive made from its own row.  (Adding an
    entry under a name already present would replace the earlier entry;
    the batch never does so.) *)
Theorem one_entry_per_row tf (data : list CsvRow) mapping
    (master : gmap jsstring Archive) :
  (generateBatch tf data mapping).1 = Ok master →
  size master = length data
  ∧ (∀ i row, data !! i = Some row →
       ∃ zip name blob,
         tf = Package zip ∧ fileName i row = Ok name
         ∧ rewriteSlides mapping row zip = Ok blob
         ∧ master !! name = Some blob)
  ∧ (∀ i j ri rj name,
       fileName i ri = Ok name → fileName j rj = Ok name → i = j)
  ∧ (∀ name b1 b2 st,
       masterZip (masterFile name b2 (masterFile name b1 st).2).2
       = <[name := b2]> (masterZip st)).
Proof.
  rewrite generateBatch_spec. cbn [fst].
  destruct (failure tf mapping 0 data) as [e|] eqn:Hfail; [discriminate|].
  intros [= <-]. split; [|split; [|split]].
  - rewrite master_size. by apply failure_None.
  - intros i row Hrow.
    destruct (completed_all _ _ _ _ _ _ Hfail Hrow) as ([name blob] & Hout & Hrun).
    apply rowOutput_Ok in Hrun as (zip & -> & Hblob & Hname).
    exists zip, name, blob. repeat split; [done..|].
    apply master_lookup. by apply list_elem_of_lookup_2 in Hout.
  - exact fileName_inj.
  - intros name b1 b2 st. cbn. apply insert_insert_eq.
Qed.

(** C3, as amended.  Called with zero rows, [generateBatch] does not
    fail: whatever the template, it returns the empty outer archive and
    never calls [onProgress].  Zero rows are refused by its callers:
    [analyzeFiles] ends with the analysis error and stores no rows, no
    preview and no mapping; [handleGenerate] returns at once, leaving
    the state as it is, when no rows are stored. *)
Theorem zero_rows_refused_by_callers :
  (∀ tf mapping, generateBatch tf [] mapping = (Ok ∅, [])) ∧
  (∀ lower st tf,
     App.templateFile st = Some tf → App.csvFile st = Some (Parsed []) →
     App.analyzeFiles lower st = App.setError (Some App.AnalyzeFailed) st) ∧
  (∀ answer st, App.csvData st = [] → App.handleGenerate answer st = st).
Proof.
  split; [reflexivity|]. split.
  - intros lower st tf Htf Hcsv. unfold App.analyzeFiles.
    rewrite Htf, Hcsv. reflexivity.
  - intros answer st Hdata. unfold App.handleGenerate. rewrite Hdata.
    by destruct (App.templateFile st).
Qed.

(** C7.  When the package has no file entry [ppt/slides/slide1.xml],
    the exception raised inside [extractKeysFromPPTX] is caught there
    and the result is the empty list of keys. *)
Theorem missing_first_slide_gives_no_keys zip :
  zipFile zip slide1Path = None →
  extractKeysTry (Package zip) = Throw MissingSlide
  ∧ extractKeysFromPPTX (Package zip) = [].
Proof.
  intros Hmissing. unfold extractKeysFromPPTX, extractKeysTry.
  cbn [loadAsync]. by rewrite Hmissing.
Qed.

End BatchProperties.

(** ** Automatic mapping *)

Section AutoMap.

Variable lower : jsstring → jsstring.

(** Equality of the trimmed texts without regard to case. *)
Definition ciEqual (column key : jsstring) : Prop :=
  lower (trim column) = lower (trim key).

Lemma find_Some {A} (p : A → bool) l x :
  JS.find p l = Some x →
  ∃ pre post, l = pre ++ x :: post ∧ p x = true
              ∧ Forall (fun y => p y = false) pre.
Proof.
  induction l as [|y l IH]; [discriminate|]. cbn [JS.find].
  destruct (p y) eqn:Hy.
  - intros [= ->]. exists [], l. by repeat split.
  - intros (pre & post & -> & Hx & Hpre)%IH.
    exists (y :: pre), post. repeat split; [done|]. by constructor.
Qed.

Lemma find_None {A} (p : A → bool) l :
  JS.find p l = None → Forall (fun y => p y = false) l.
Proof.
  induction l as [|y l IH]; [constructor|]. cbn [JS.find].
  destruct (p y) eqn:Hy; [discriminate|]. intros Hnone. constructor; auto.
Qed.

Lemma assign_lookup_ne (m : ColumnMapping) (k key : jsstring) v :
  key ≠ k → assign m k v !! key = m !! key.
Proof.
  intros Hne. unfold assign.
  destruct (bool_decide (k = protoName) && inherits m).
  - by destruct v.
  - unfold lookup, ColumnMapping_lookup. cbn [entries].
    by apply lookup_insert_ne.
Qed.

Lemma assign_lookup_eq (m : ColumnMapping) (k : jsstring) v :
  k ≠ protoName → assign m k v !! k = Some v.
Proof.
  intros Hne. unfold assign. rewrite bool_decide_eq_false_2 by done.
  unfold lookup, ColumnMapping_lookup. cbn [andb entries].
  apply lookup_insert_eq.
Qed.

Lemma assign_lookup_inv (m : ColumnMapping) (k key : jsstring) v x :
  assign m k v !! key = Some x → (key = k ∧ x = v) ∨ m !! key = Some x.
Proof.
  destruct (decide (key = k)) as [->|Hne];
    [|rewrite assign_lookup_ne by done; tauto].
  unfold assign. destruct (bool_decide (k = protoName) && inherits m).
  - destruct v; tauto.
  - unfold lookup at 1, ColumnMapping_lookup. cbn [entries].
    rewrite lookup_insert_eq. intros [= <-]. tauto.
Qed.

(** [assign] keeps the prototype unless [null] is assigned to
    [__proto__]. *)
Lemma assign_inherits (m : ColumnMapping) (k : jsstring) v :
  k ≠ protoName → inherits (assign m k v) = inherits m.
Proof.
  intros Hne. unfold assign. by rewrite bool_decide_eq_false_2 by done.
Qed.

Lemma autoMatch_fold (keys headers : list jsstring) (key : jsstring)
    (m0 : ColumnMapping) :
  key ≠ protoName →
  foldl (fun newMapping k =>
           assign newMapping k (App.orNull (App.matchedHeader lower headers k)))
        m0 keys !! key
  = if decide (key ∈ keys)
    then Some (App.orNull (App.matchedHeader lower headers key))
    else m0 !! key.
Proof.
  intros Hkey. revert m0. induction keys as [|k ks IH]; intros m0.
  - cbn. by rewrite decide_False by apply not_elem_of_nil.
  - cbn [foldl]. rewrite IH.
    destruct (decide (key ∈ ks)) as [Hin|Hout].
    + rewrite decide_True; [done|]. by apply list_elem_of_further.
    + destruct (decide (key = k)) as [<-|Hne].
      * rewrite assign_lookup_eq by done.
        rewrite decide_True; [done|apply list_elem_of_here].
      * rewrite assign_lookup_ne by done.
        rewrite decide_False; [done|].
        rewrite elem_of_cons. tauto.
Qed.

Lemma autoMatch_inv (keys headers : list jsstring) (key : jsstring)
    (m0 : ColumnMapping) x :
  foldl (fun newMapping k =>
           assign newMapping k (App.orNull (App.matchedHeader lower headers k)))
        m0 keys !! key = Some x →
  (key ∈ keys ∧ x = App.orNull (App.matchedHeader lower headers key))
  ∨ m0 !! key = Some x.
Proof.
  revert m0. induction keys as [|k ks IH]; intros m0; [tauto|].
  cbn [foldl]. intros [[Hin ->]|Hm]%IH.
  - left. split; [by apply list_elem_of_further|done].
  - apply assign_lookup_inv in Hm as [[-> ->]|Hm]; [|tauto].
    left. split; [apply list_elem_of_here|done].
Qed.

End AutoMap.
(** *** [trim] is idempotent, so extracted keys are trimmed *)

Section Trim.

Lemma trimStart_suffix s : ∃ ws, s = ws ++ trimStart s.
Proof.
  induction s as [|c s [ws IH]]; [by exists []|]. cbn [trimStart].
  destruct (isWhiteSpace c); [|by exists []].
  exists (c :: ws). cbn. by f_equal.
Qed.

Lemma trimStart_head s c t : trimStart s = c :: t → isWhiteSpace c = false.
Proof.
  induction s as [|x s IH]; [discriminate|]. cbn [trimStart].
  destruct (isWhiteSpace x) eqn:Hx; [exact IH|]. by intros [= -> _].
Qed.

Lemma trimStart_fixed c t : isWhiteSpace c = false → trimStart (c :: t) = c :: t.
Proof. intros H. cbn [trimStart]. by rewrite H. Qed.

Lemma trimStart_idem s : trimStart (trimStart s) = trimStart s.
Proof.
  destruct (trimStart s) as [|c t] eqn:H; [done|].
  apply trimStart_fixed. by eapply trimStart_head.
Qed.

Lemma trim_idem s : trim (trim s) = trim s.
Proof.
  unfold trim, trimEnd.
  set (a := trimStart s). set (b := rev (trimStart (rev a))).
  assert (trimStart b = b) as Hb.
  { destruct (trimStart_suffix (rev a)) as [ws Hws].
    assert (a = b ++ rev ws) as Ha.
    { unfold b. rewrite <-rev_app_distr, <-Hws. by rewrite rev_involutive. }
    destruct b as [|c b']; [done|].
    apply trimStart_fixed. apply (trimStart_head s c (b' ++ rev ws)).
    fold a. by rewrite Ha. }
  rewrite Hb. unfold b at 1. rewrite rev_involutive, trimStart_idem. done.
Qed.

Lemma extractKeys_trimmed s k : k ∈ extractKeys s → trim k = k.
Proof.
  rewrite extractKeys_captures, elem_of_arrayFromSet, list_elem_of_fmap.
  intros (cap & -> & _). apply trim_idem.
Qed.

End Trim.

(** C5, as amended.  For a trimmed key among the template keys (such are
    the keys extraction returns) other than [__proto__], the automatic
    mapping assigns the first column whose trimmed text equals the key
    without regard to case, unless that column is the empty string, for
    which it assigns [null]; it assigns [null] when no column matches;
    keys that are not template keys get no entry.  Being a function of
    the keys and the columns, the mapping is the same whenever they
    are.  On Basic Latin text the column [Name ] (with a trailing
    blank) is assigned to the key [name], the column [Name2] is not. *)
Theorem auto_mapping_first_match (lower : jsstring → jsstring)
    (keys headers : list jsstring) :
  (∀ key, key ∈ keys → trim key = key → key ≠ protoName →
     (∃ pre h post,
        headers = pre ++ h :: post ∧ ciEqual lower h key
        ∧ Forall (fun h' => ¬ ciEqual lower h' key) pre
        ∧ App.autoMatch lower keys headers !! key
          = Some (if decide (h = []) then None else Some h))
     ∨ (Forall (fun h => ¬ ciEqual lower h key) headers
        ∧ App.autoMatch lower keys headers !! key = Some None)) ∧
  (∀ key, key ∉ keys → App.autoMatch lower keys headers !! key = None) ∧
  (∀ content key, key ∈ extractKeys content → trim key = key) ∧
  App.autoMatch basicLatinLower [lit "name"] [lit "Name "] !! lit "name"
    = Some (Some (lit "Name ")) ∧
  App.autoMatch basicLatinLower [lit "name"] [lit "Name2"] !! lit "name"
    = Some None.
Proof.
  split; [|split; [|split; [|split]]].
  - intros key Hin Htrim Hproto. unfold App.autoMatch.
    rewrite autoMatch_fold, decide_True by done.
    unfold App.matchedHeader.
    destruct (JS.find _ headers) as [h|] eqn:Hfind.
    + left. apply find_Some in Hfind as (pre & post & -> & Hh & Hpre).
      exists pre, h, post. unfold ciEqual. rewrite Htrim.
      split; [done|]. split; [by apply bool_decide_eq_true in Hh|].
      split.
      * eapply Forall_impl; [exact Hpre|]. cbn.
        intros h' Hh'. by apply bool_decide_eq_false in Hh'.
      * by destruct h.
    + right. apply find_None in Hfind. split; [|done].
      eapply Forall_impl; [exact Hfind|]. cbn. unfold ciEqual.
      rewrite Htrim. intros h' Hh'. by apply bool_decide_eq_false in Hh'.
  - intros key Hout. unfold App.autoMatch.
    destruct (foldl _ ∅ keys !! key) as [x|] eqn:Hx; [|done].
    by apply autoMatch_inv in Hx as [[? _]|?].
  - intros content key. apply extractKeys_trimmed.
  - vm_compute. reflexivity.
  - vm_compute. reflexivity.
Qed.

(** ** Concrete runs *)

Section Instances.

Local Existing Instance v8.

(** Decidable side conditions of the instances are settled by
    evaluation. *)
Ltac by_evaluation := apply (bool_decide_unpack _); vm_compute; exact I.

Example tokenize_sample :
  tokenize (lit "a{{ X }}}b") =
  [Lit 97; Tok (lit " X "); Lit 125; Lit 98].
Proof. vm_compute. reflexivity. Qed.

Example extract_sample :
  extractKeys (lit "{{ NAME }} and {{CITY}}, {{NAME}}") = [lit "NAME"; lit "CITY"].
Proof. vm_compute. reflexivity. Qed.

Example scenario_C :
  escapeXml (lit "O'Brien & Co. <VIP>") = lit "O&apos;Brien &amp; Co. &lt;VIP&gt;".
Proof. vm_compute. reflexivity. Qed.

Example scenario_A :
  App.autoMatch basicLatinLower [lit "NAME"; lit "CITY"]
    [lit "Name"; lit "City"; lit "Age"]
  = plainObject {[ lit "NAME" := Some (lit "Name"); lit "CITY" := Some (lit "City") ]}
  ∧ substituteContent
      (plainObject {[ lit "NAME" := Some (lit "Name"); lit "CITY" := Some (lit "City") ]})
      [(lit "Name", Text (lit "Ana")); (lit "City", Text (lit "Rio"));
       (lit "Age", Text (lit "30"))]
      (lit "{{NAME}} lives in {{ CITY }}")
    = Ok (lit "Ana lives in Rio").
Proof. split; vm_compute; reflexivity. Qed.

Example scenario_B :
  substituteContent (plainObject {[ lit "EMAIL" := None ]})
    [(lit "Name", Text (lit "Ana"))]
    (lit "Write to {{EMAIL}}") = Ok (lit "Write to {{EMAIL}}").
Proof. vm_compute. reflexivity. Qed.

Example gen_sample :
  generateBatch (Package {[ slide1Path := lit "Hi {{NAME}}" ]})
     [[(lit "Name", Text (lit "Ana"))]; [(lit "Name", Text (lit "John Doe"))]]
     (plainObject {[ lit "NAME" := Some (lit "Name") ]})
  = (Ok {[ lit "slide_1_Ana.pptx" := {[ slide1Path := lit "Hi Ana" ]};
           lit "slide_2_John_Doe.pptx" := {[ slide1Path := lit "Hi John Doe" ]} ]},
     [FileAdded (lit "slide_1_Ana.pptx") {[ slide1Path := lit "Hi Ana" ]};
      ProgressCall 1 2;
      FileAdded (lit "slide_2_John_Doe.pptx") {[ slide1Path := lit "Hi John Doe" ]};
      ProgressCall 2 2]).
Proof. vm_compute. reflexivity. Qed.

(** C1: two occurrences of [{{...}}] with a mapped key and a value in
    the row that are not replaced.  The first holds a line break: it is
    no match of the pattern and stays in place.  The second has the key
    [NAME], mapped to the column name [constructor], which the row
    lacks: the read [row[csvColumnName]] yields the member every plain
    object inherits under that name, the guard [!== undefined] lets it
    pass, and [value.replace] throws, so that the callback, the
    [replace] call and the whole batch end with the exception before
    anything is added or reported. *)
Lemma occurrences_not_replaced :
  (trim (lit "A" ++ 10 :: lit "B") = lit "A" ++ 10 :: lit "B"
   ∧ plainObject {[ lit "A" ++ 10 :: lit "B" := Some (lit "c") ]}
       !! (lit "A" ++ 10 :: lit "B") = Some (Some (lit "c"))
   ∧ rowGet [(lit "c", Text (lit "x"))] (lit "c") = Str (lit "x")
   ∧ substituteContent
       (plainObject {[ lit "A" ++ 10 :: lit "B" := Some (lit "c") ]})
       [(lit "c", Text (lit "x"))] (matchText (lit "A" ++ 10 :: lit "B"))
     = Ok (matchText (lit "A" ++ 10 :: lit "B")))
  ∧ (plainObject {[ lit "NAME" := Some (lit "constructor") ]} !! lit "NAME"
       = Some (Some (lit "constructor"))
     ∧ rowOwn [(lit "Name", Text (lit "Ana"))] (lit "constructor") = None
     ∧ rowGet [(lit "Name", Text (lit "Ana"))] (lit "constructor")
       = Builtin (lit "constructor")
     ∧ replacer (plainObject {[ lit "NAME" := Some (lit "constructor") ]})
         [(lit "Name", Text (lit "Ana"))] (lit "{{NAME}}") (lit "NAME")
       = Throw TypeError
     ∧ substituteContent (plainObject {[ lit "NAME" := Some (lit "constructor") ]})
         [(lit "Name", Text (lit "Ana"))] (lit "Hi {{NAME}}")
       = Throw TypeError
     ∧ generateBatch (Package {[ slide1Path := lit "Hi {{NAME}}" ]})
         [[(lit "Name", Text (lit "Ana"))]]
         (plainObject {[ lit "NAME" := Some (lit "constructor") ]})
       = (Throw TypeError, [])).
Proof. vm_compute. repeat split. Qed.

(** A record with more fields than there are headers: the surplus
    fields are an array under [__parsed_extra], and a key mapped to
    that name makes the callback throw. *)
Example surplus_fields_throw :
  substituteContent (plainObject {[ lit "X" := Some (lit "__parsed_extra") ]})
    [(lit "Name", Text (lit "Ana")); (lit "__parsed_extra", Extra [lit "b"])]
    (lit "{{X}}")
  = Throw TypeError.
Proof. vm_compute. reflexivity. Qed.

(** A key without entry that is an inherited member name is looked up
    all the same: for [__proto__] the row is read under the text of
    the prototype object. *)
Example inherited_key_is_looked_up :
  substituteContent ∅ [(lit "[object Object]", Text (lit "x"))]
    (lit "{{__proto__}} {{other}}")
  = Ok (lit "x {{other}}").
Proof. vm_compute. reflexivity. Qed.

(** The assignment [newMapping[key] = ...] of the automatic mapping
    stores nothing for the key [__proto__]: a matched column is
    ignored, and [null] takes the prototype of the mapping away. *)
Example proto_key_gets_no_entry :
  App.autoMatch basicLatinLower [protoName] [lit "__PROTO__"] = ∅
  ∧ App.autoMatch basicLatinLower [protoName] [lit "Name"]
    = {| entries := ∅; inherits := false |}.
Proof. split; vm_compute; reflexivity. Qed.

(** C2: a row value that itself holds a placeholder brings a new key
    into the substituted text.  The template has the single key [A],
    mapped to a column the row has; re-extraction yields [B], which is
    no key of the template. *)
Lemma reextract_value_with_braces :
  extractKeys (lit "{{A}}") = [lit "A"]
  ∧ plainObject {[ lit "A" := Some (lit "c") ]} !! lit "A" = Some (Some (lit "c"))
  ∧ rowGet [(lit "c", Text (lit "{{B}}"))] (lit "c") = Str (lit "{{B}}")
  ∧ substituteContent (plainObject {[ lit "A" := Some (lit "c") ]})
      [(lit "c", Text (lit "{{B}}"))] (lit "{{A}}")
    = Ok (lit "{{B}}")
  ∧ extractKeys (lit "{{B}}") = [lit "B"].
Proof. vm_compute. repeat split. Qed.

(** A match with [{{] inside its braces: extraction deletes the inner
    braces and reports the key [a], substitution looks up the key
    [{{a], finds no entry and leaves the match in place. *)
Example nested_open_keys_differ :
  extractKeys (lit "{{{{a}}") = [lit "a"]
  ∧ tokenize (lit "{{{{a}}") = [Tok (lit "{{a")]
  ∧ substituteContent (plainObject {[ lit "a" := Some (lit "c") ]})
      [(lit "c", Text (lit "x"))] (lit "{{{{a}}")
    = Ok (lit "{{{{a}}").
Proof. vm_compute. repeat split. Qed.

Definition letterMapping : ColumnMapping :=
  plainObject {[ lit "NAME" := Some (lit "Name"); lit "CITY" := Some (lit "Town");
                 lit "EMAIL" := None; lit "PHONE" := Some [] ]}.

Definition letterRow : CsvRow :=
  [(lit "Name", Text (lit "Ana & Co")); ([], Text (lit "x"))].

Definition letterText : jsstring :=
  lit "Dear {{NAME}} of {{ CITY }}: {{EMAIL}} {{PHONE}}".

Lemma reextract_after_substitution_witness :
  Forall (fun cap => containsOpen cap = false) (captures (tokenize letterText))
  ∧ Forall (fun cap => isInherited (trim cap) = false) (captures (tokenize letterText))
  ∧ map_Forall (fun _ v => plainColumn v = true) (entries letterMapping)
  ∧ Forall (fun kv => isText kv.2 = true) letterRow
  ∧ Forall (fun kv => hasBrace kv.2 = false) letterRow
  ∧ ∃ out, substituteContent letterMapping letterRow letterText = Ok out
           ∧ (lit "CITY" ∈ extractKeys out ↔
              lit "CITY" ∈ extractKeys letterText
              ∧ (unmapped letterMapping (lit "CITY")
                 ∨ columnAbsent letterMapping letterRow (lit "CITY"))).
Proof.
  assert (Forall (fun cap => containsOpen cap = false)
            (captures (tokenize letterText))) as H1 by by_evaluation.
  assert (Forall (fun cap => isInherited (trim cap) = false)
            (captures (tokenize letterText))) as H2 by by_evaluation.
  assert (map_Forall (fun _ v => plainColumn v = true) (entries letterMapping))
    as H3 by by_evaluation.
  assert (Forall (fun kv : jsstring * Field => isText kv.2 = true) letterRow)
    as H4 by by_evaluation.
  assert (Forall (fun kv : jsstring * Field => hasBrace kv.2 = false) letterRow)
    as H5 by by_evaluation.
  repeat (split; [assumption|]).
  destruct (reextract_after_substitution letterMapping letterRow letterText
              H1 H2 H3 H4 H5) as (out & Hout & Hkeys).
  exists out. split; [exact Hout|exact (Hkeys (lit "CITY"))].
Defined.

(** C3: with zero rows the generation call ends normally and hands
    back an (empty) outer archive, even for a template that does not
    decode. *)
Lemma zero_rows_yield_empty_archive :
  generateBatch Corrupt [] ∅ = (Ok ∅, []).
Proof. reflexivity. Qed.

(** C4: a batch of one row with a template that does not decode:
    [onProgress] is never called. *)
Lemma corrupt_template_no_progress :
  length [[(lit "Name", Text (lit "Ana"))]] = 1%nat
  ∧ generateBatch Corrupt [[(lit "Name", Text (lit "Ana"))]] ∅
    = (Throw CorruptArchive, [])
  ∧ progressCalls (generateBatch Corrupt [[(lit "Name", Text (lit "Ana"))]] ∅).2
    = [].
Proof. repeat split. Qed.

(** C5: the empty key and the empty column match, yet the key is
    assigned [null]. *)
Lemma empty_column_not_assigned :
  ciEqual basicLatinLower [] []
  ∧ App.autoMatch basicLatinLower [[]] [[]] !! [] = Some None.
Proof. split; reflexivity. Qed.

Lemma missing_first_slide_witness :
  zipFile {[ lit "ppt/slides/slide2.xml" := lit "{{A}}" ]} slide1Path = None
  ∧ extractKeysFromPPTX
      (Package {[ lit "ppt/slides/slide2.xml" := lit "{{A}}" ]}) = [].
Proof.
  assert (zipFile {[ lit "ppt/slides/slide2.xml" := lit "{{A}}" ]} slide1Path
          = None) as Hnone by (vm_compute; reflexivity).
  split; [exact Hnone|].
  exact (proj2 (missing_first_slide_gives_no_keys _ Hnone)).
Defined.

(** C8: two rows with the same first value (Scenario E) give two
    entries, one per row, under names that differ in the row index. *)
Lemma same_first_value_two_entries :
  (generateBatch (Package ∅)
     [[(lit "Name", Text (lit "John Doe"))]; [(lit "Name", Text (lit "John Doe"))]]
     ∅).1
  = Ok {[ lit "slide_1_John_Doe.pptx" := ∅; lit "slide_2_John_Doe.pptx" := ∅ ]}
  ∧ size ({[ lit "slide_1_John_Doe.pptx" := ∅; lit "slide_2_John_Doe.pptx" := ∅ ]}
            : gmap jsstring Archive) = 2%nat.
Proof. split; vm_compute; reflexivity. Qed.

Lemma one_entry_per_row_witness :
  (generateBatch (Package {[ slide1Path := lit "Hi {{NAME}}" ]})
     [[(lit "Name", Text (lit "Ana"))]; [(lit "Name", Text (lit "Ana"))]]
     (plainObject {[ lit "NAME" := Some (lit "Name") ]})).1
  = Ok {[ lit "slide_1_Ana.pptx" := {[ slide1Path := lit "Hi Ana" ]};
          lit "slide_2_Ana.pptx" := {[ slide1Path := lit "Hi Ana" ]} ]}
  ∧ size ({[ lit "slide_1_Ana.pptx" := {[ slide1Path := lit "Hi Ana" ]};
             lit "slide_2_Ana.pptx" := {[ slide1Path := lit "Hi Ana" ]} ]}
            : gmap jsstring Archive)
    = length [[(lit "Name", Text (lit "Ana"))]; [(lit "Name", Text (lit "Ana"))]].
Proof.
  assert ((generateBatch (Package {[ slide1Path := lit "Hi {{NAME}}" ]})
             [[(lit "Name", Text (lit "Ana"))]; [(lit "Name", Text (lit "Ana"))]]
             (plainObject {[ lit "NAME" := Some (lit "Name") ]})).1
          = Ok {[ lit "slide_1_Ana.pptx" := {[ slide1Path := lit "Hi Ana" ]};
                  lit "slide_2_Ana.pptx" := {[ slide1Path := lit "Hi Ana" ]} ]})
    as Hrun by (vm_compute; reflexivity).
  split; [exact Hrun|].
  exact (proj1 (one_entry_per_row _ _ _ _ Hrun)).
Defined.

Lemma empty_column_name_witness :
  plainObject {[ lit "KEY" := Some [] ]} !! lit "KEY" = Some (Some [])
  ∧ rowGet [([], Text (lit "x"))] [] = Str (lit "x")
  ∧ substituteContent (plainObject {[ lit "KEY" := Some [] ]}) [([], Text (lit "x"))]
      (lit "a {{KEY}} b {{ KEY }}") = Ok (lit "a {{KEY}} b {{ KEY }}").
Proof.
  assert (plainObject {[ lit "KEY" := Some [] ]} !! lit "KEY" = Some (Some []))
    as Hmap by (vm_compute; reflexivity).
  split; [exact Hmap|]. split; [reflexivity|].
  apply (proj2 (empty_column_name_is_unmapped _ [([], Text (lit "x"))] _ Hmap)).
  by_evaluation.
Defined.

(** C10: a brace pair around a text with a line break that holds a
    placeholder after the break.  The inner placeholder is a match: it
    is substituted and its key is reported. *)
Lemma line_break_token_inner_match :
  lit "{{ti" ++ 10 :: lit "{{A}}" = matchText (lit "ti" ++ 10 :: lit "{{A")
  ∧ isLineTerminator 10 = true
  ∧ substituteContent (plainObject {[ lit "A" := Some (lit "a") ]})
      [(lit "a", Text (lit "1"))] (lit "{{ti" ++ 10 :: lit "{{A}}")
    = Ok (lit "{{ti" ++ 10 :: lit "1")
  ∧ extractKeys (lit "{{ti" ++ 10 :: lit "{{A}}") = [lit "A"].
Proof. vm_compute. repeat split. Qed.

Lemma line_break_token_witness :
  isLineTerminator 10 = true
  ∧ containsClose (lit "a}b") = false ∧ containsOpen (lit "c{d") = false
  ∧ substituteContent (plainObject {[ lit "A" := Some (lit "a") ]})
      [(lit "a", Text (lit "1"))]
      (lit "{{A}} " ++ matchText (lit "a}b" ++ 10 :: lit "c{d") ++ lit " {{A}}")
    = (before ← substituteContent (plainObject {[ lit "A" := Some (lit "a") ]})
                  [(lit "a", Text (lit "1"))] (lit "{{A}} ");
       after ← substituteContent (plainObject {[ lit "A" := Some (lit "a") ]})
                 [(lit "a", Text (lit "1"))] (lit " {{A}}");
       Ok (before ++ matchText (lit "a}b" ++ 10 :: lit "c{d") ++ after)).
Proof.
  repeat (split; [reflexivity|]).
  exact (proj1 (proj2 (line_break_token_ignored
                         (plainObject {[ lit "A" := Some (lit "a") ]})
                         [(lit "a", Text (lit "1"))]
                         (lit "{{A}} ") (lit "a}b") (lit "c{d") (lit " {{A}}") 10
                         eq_refl eq_refl eq_refl))).
Defined.

End Instances.
(** * Further properties of the code *)

(** ** Extraction *)

Section ExtractionMore.

(** The keys of a text part are pairwise distinct and trimmed, and they
    are exactly the keys derived from the matches of the scan. *)
Theorem extractKeys_distinct_keys_of_matches (s : jsstring) :
  NoDup (extractKeys s)
  ∧ (∀ k, k ∈ extractKeys s → trim k = k)
  ∧ (∀ k, k ∈ extractKeys s ↔
          ∃ cap, Tok cap ∈ tokenize s ∧ k = trim (stripBraces (matchText cap))).
Proof.
  split; [|split].
  - rewrite extractKeys_captures. apply NoDup_setAdd_fold, NoDup_nil_2.
  - intros k. apply extractKeys_trimmed.
  - intros k. rewrite extractKeys_captures, elem_of_arrayFromSet, list_elem_of_fmap.
    split.
    + intros (cap & Hk & Hin). exists cap.
      split; [by apply elem_of_captures|exact Hk].
    + intros (cap & Hin & Hk). exists cap.
      split; [exact Hk|by apply elem_of_captures].
Qed.

(** When no match holds [{{] inside its braces, the keys extraction
    reports are exactly the keys substitution looks up. *)
Theorem extracted_keys_are_lookup_keys (s : jsstring) :
  Forall (fun cap => containsOpen cap = false) (captures (tokenize s)) →
  ∀ k, k ∈ extractKeys s ↔ ∃ cap, Tok cap ∈ tokenize s ∧ k = trim cap.
Proof.
  intros Hsimple k. rewrite Forall_forall in Hsimple.
  rewrite extractKeys_captures, elem_of_arrayFromSet, list_elem_of_fmap.
  assert (∀ cap, cap ∈ captures (tokenize s) → extractedKey cap = trim cap)
    as Hkey.
  { intros cap Hin. apply extractedKey_simple; [|by apply Hsimple].
    apply elem_of_captures in Hin. by apply scanFrom_captures in Hin as [_ ?]. }
  split.
  - intros (cap & -> & Hin). exists cap.
    split; [by apply elem_of_captures|by apply Hkey].
  - intros (cap & Hin & ->). apply elem_of_captures in Hin.
    exists cap. split; [by rewrite Hkey|done].
Qed.

End ExtractionMore.

(** ** Escaping *)

Section EscapingMore.

(** The five characters the passes of [escapeXml] look for. *)
Definition isMarkup (c : N) : bool :=
  (c =? 38) || (c =? 60) || (c =? 62) || (c =? 34) || (c =? 39).

(** Every ampersand of a text begins one of the five entities. *)
Fixpoint ampersandsOk (s : jsstring) : bool :=
  match s with
  | [] => true
  | c :: t =>
      (if c =? 38
       then match entityAt s with Some _ => true | None => false end
       else true)
      && ampersandsOk t
  end.

Lemma isMarkup_false c :
  isMarkup c = false → c ≠ 38 ∧ c ≠ 60 ∧ c ≠ 62 ∧ c ≠ 34 ∧ c ≠ 39.
Proof. intros H. repeat split; intros ->; discriminate H. Qed.

Lemma escapeUnit_plain c : isMarkup c = false → escapeUnit c = [c].
Proof.
  intros H. destruct (isMarkup_false c H) as (H38 & H60 & H62 & H34 & H39).
  apply N.eqb_neq in H38, H60, H62, H34, H39.
  unfold escapeUnit. by rewrite H38, H60, H62, H34, H39.
Qed.

Lemma escapeUnit_markup c :
  isMarkup c = true →
  (4 ≤ length (escapeUnit c))%nat
  ∧ Forall (fun x => x ≠ 60 ∧ x ≠ 62 ∧ x ≠ 34 ∧ x ≠ 39) (escapeUnit c)
  ∧ ∀ w, ampersandsOk (escapeUnit c ++ w) = ampersandsOk w.
Proof.
  unfold isMarkup, escapeUnit.
  destruct (N.eqb_spec c 38) as [->|?];
    [split; [cbn; lia|split; [by repeat constructor|reflexivity]]|].
  destruct (N.eqb_spec c 60) as [->|?];
    [split; [cbn; lia|split; [by repeat constructor|reflexivity]]|].
  destruct (N.eqb_spec c 62) as [->|?];
    [split; [cbn; lia|split; [by repeat constructor|reflexivity]]|].
  destruct (N.eqb_spec c 34) as [->|?];
    [split; [cbn; lia|split; [by repeat constructor|reflexivity]]|].
  destruct (N.eqb_spec c 39) as [->|?];
    [split; [cbn; lia|split; [by repeat constructor|reflexivity]]|].
  intros H. discriminate H.
Qed.

(** What [escapeXml] returns is safe inside markup: it holds no angle
    bracket, double quote or apostrophe, and each of its ampersands
    begins one of the five entities. *)
Theorem escapeXml_output_is_markup_safe (v : jsstring) :
  Forall (fun x => x ≠ 60 ∧ x ≠ 62 ∧ x ≠ 34 ∧ x ≠ 39) (escapeXml v)
  ∧ ampersandsOk (escapeXml v) = true.
Proof.
  induction v as [|c v [IH1 IH2]]; [by split|].
  rewrite escapeXml_cons. destruct (isMarkup c) eqn:Hc.
  - destruct (escapeUnit_markup c Hc) as (_ & Hsafe & Hamp).
    split; [by apply Forall_app|by rewrite Hamp].
  - rewrite (escapeUnit_plain c Hc).
    destruct (isMarkup_false c Hc) as (H38 & H60 & H62 & H34 & H39).
    split; [by constructor|].
    cbn [app ampersandsOk]. by destruct (N.eqb_spec c 38).
Qed.

(** A value grows under escaping by what its markup characters need,
    and it is inserted as it is exactly when it holds none of them. *)
Theorem escapeXml_verbatim_iff_no_markup (v : jsstring) :
  (length v ≤ length (escapeXml v))%nat
  ∧ (escapeXml v = v ↔ Forall (fun c => isMarkup c = false) v).
Proof.
  assert (∀ w, (length w ≤ length (escapeXml w))%nat) as Hlen.
  { induction w as [|c w IH]; [done|].
    rewrite escapeXml_cons, length_app. cbn [length].
    destruct (isMarkup c) eqn:Hc.
    - destruct (escapeUnit_markup c Hc) as (? & _). lia.
    - rewrite (escapeUnit_plain c Hc). cbn. lia. }
  split; [apply Hlen|].
  induction v as [|c v IH]; [by split|].
  rewrite escapeXml_cons, Forall_cons. destruct (isMarkup c) eqn:Hc.
  - split; [|by intros [? _]].
    intros Heq. apply (f_equal length) in Heq.
    rewrite length_app in Heq. cbn [length] in Heq.
    destruct (escapeUnit_markup c Hc) as (? & _).
    specialize (Hlen v). lia.
  - rewrite (escapeUnit_plain c Hc). cbn [app]. split.
    + intros [= Heq]. split; [done|]. by apply IH.
    + intros [_ Hv]. f_equal. by apply IH.
Qed.

End EscapingMore.

(** ** Substitution *)

Section SubstitutionMore.

Context `{Engine}.

Implicit Types (mapping : ColumnMapping) (row : CsvRow) (zip : Archive).

Lemma tokenize_no_open s : containsOpen s = false → tokenize s = Lit <$> s.
Proof.
  induction s as [|c t IH]; [done|]. cbn [containsOpen].
  intros [Hop Ht]%orb_false_iff.
  rewrite tokenize_lit; [by rewrite IH|].
  unfold matchAt. by rewrite Hop.
Qed.

(** A text without [{{] has no placeholder: substitution returns it as
    it is and extraction reports no key. *)
Theorem text_without_open_is_untouched mapping row (s : jsstring) :
  containsOpen s = false →
  substituteContent mapping row s = Ok s ∧ extractKeys s = [].
Proof.
  intros Hs. pose proof (tokenize_no_open s Hs) as Htok. split.
  - apply substituteContent_kept. intros cap Hin.
    rewrite Htok in Hin. apply list_elem_of_fmap in Hin as (c & [=] & _).
  - by rewrite extractKeys_captures, Htok, captures_lits.
Qed.

(** No placeholder spans a line break: substitution and extraction
    treat the text before and the text after a line terminator
    separately. *)
Theorem substitution_is_line_by_line mapping row (a b : jsstring) (nl : N) :
  isLineTerminator nl = true →
  substituteContent mapping row (a ++ nl :: b)
    = (before ← substituteContent mapping row a;
       after ← substituteContent mapping row b;
       Ok (before ++ nl :: after))
  ∧ (∀ k, k ∈ extractKeys (a ++ nl :: b) ↔ k ∈ extractKeys a ∨ k ∈ extractKeys b).
Proof.
  intros Hnl. pose proof (tokenize_line_break a nl b Hnl) as Htok. split.
  - unfold substituteContent, regexReplace. rewrite Htok.
    rewrite replaceSegments_app. cbn [replaceSegments].
    unfold mbind, Result_bind.
    destruct (replaceSegments _ (tokenize a)); [|done].
    by destruct (replaceSegments _ (tokenize b)).
  - intros k. rewrite !extractKeys_captures, Htok, captures_app, captures_cons_lit.
    by rewrite !elem_of_arrayFromSet, fmap_app, elem_of_app.
Qed.

End SubstitutionMore.

(** ** The archive of a row and the outer archive *)

Section ArchivesMore.

Context `{Engine}.

Implicit Types (mapping : ColumnMapping) (row : CsvRow) (zip : Archive)
  (tf : TemplateFile).

(** No placeholder on a slide part has a key that is a member name of
    [Object.prototype]. *)
Definition plainSlides zip : Prop :=
  map_Forall (fun path content =>
                isSlidePath path = true →
                Forall (fun cap => isInherited (trim cap) = false)
                       (captures (tokenize content))) zip.

(** When the slide loop ends normally, the archive of the row has
    exactly the parts of the template, and every part that is not a
    slide part holds the template's content. *)
Theorem row_archive_keeps_parts mapping row zip (out : Archive) :
  rewriteSlides mapping row zip = Ok out →
  dom out = dom zip
  ∧ ∀ path, isSlidePath path = false → out !! path = zip !! path.
Proof.
  intros [_ ->]%rewriteSlides_Ok. split.
  - apply set_eq. intros path.
    by rewrite !elem_of_dom, rewritten_lookup, fmap_is_Some.
  - intros path Hpath. rewrite rewritten_lookup, Hpath.
    by destruct (zip !! path).
Qed.

Lemma hasMappings_false mapping (key : jsstring) :
  App.hasMappings mapping = false →
  mapping !! key = None ∨ mapping !! key = Some None.
Proof.
  unfold App.hasMappings. intros Hnone.
  destruct (mapping !! key) as [[col|]|] eqn:Hkey; [|by right|by left].
  assert (existsb (fun v => bool_decide (v ≠ None))
            (map_to_list (entries mapping)).*2 = true) as Hsome; [|congruence].
  apply existsb_exists. exists (Some col). split; [|by apply bool_decide_eq_true].
  apply list_elem_of_In, list_elem_of_fmap. exists (key, Some col).
  split; [done|]. by apply elem_of_map_to_list.
Qed.

Lemma rewritten_kept mapping row zip :
  (∀ (path content : jsstring) cap,
     zip !! path = Some content → isSlidePath path = true →
     Tok cap ∈ tokenize content → verdict mapping row cap = Keep) →
  rewriteSlides mapping row zip = Ok zip.
Proof.
  intros Hkeep. apply rewriteSlides_Ok. split.
  - apply archiveCrashes_false. intros path content Hpath Hslide.
    apply crashes_false. intros cap Hin.
    by rewrite (Hkeep path content cap).
  - apply map_eq. intros path. rewrite rewritten_lookup.
    destruct (zip !! path) as [content|] eqn:Hpath; [|done]. cbn. f_equal.
    destruct (isSlidePath path) eqn:Hslide; [|done].
    assert (substituteContent mapping row content = Ok content) as Hsame.
    { apply substituteContent_kept. intros cap. by apply (Hkeep path content). }
    by apply substituteContent_Ok in Hsame as [_ <-].
Qed.

(** When no key is mapped (the case in which [handleGenerate] asks for
    confirmation) and no placeholder of the slides is named as a
    member of [Object.prototype], the archive of every row is the
    template's archive: the files are generated without
    substitutions. *)
Theorem nothing_mapped_nothing_substituted mapping row zip :
  App.hasMappings mapping = false → plainSlides zip →
  rewriteSlides mapping row zip = Ok zip.
Proof.
  intros Hnone Hplain. apply rewritten_kept.
  intros path content cap Hpath Hslide Hin.
  specialize (Hplain path content Hpath Hslide). rewrite Forall_forall in Hplain.
  apply elem_of_captures in Hin. specialize (Hplain cap Hin).
  apply verdict_unmapped; [|tauto]. unfold unmapped.
  destruct (hasMappings_false mapping (trim cap) Hnone); tauto.
Qed.

Lemma sanitize_charset v :
  Forall (fun c => isAlnum c = true ∨ c = 95 ∨ c = 46) (sanitize v).
Proof.
  unfold sanitize. apply Forall_fmap, Forall_true. intros c. cbn.
  destruct (isAlnum c) eqn:Hc; [by left|by right; left].
Qed.

Lemma digit_is_alnum c : isDigit c = true → isAlnum c = true.
Proof. unfold isDigit, isAlnum. by intros ->. Qed.

(** Every output name is made of Basic Latin letters, digits,
    underscores and dots (so it holds no path separator), and a row
    without columns or with an empty first value is named by its index
    and the word [generated]. *)
Theorem output_names_are_plain (i : nat) row :
  (∀ name, fileName i row = Ok name →
     Forall (fun c => isAlnum c = true ∨ c = 95 ∨ c = 46) name)
  ∧ (head (objectValues row) = None ∨ head (objectValues row) = Some (Text []) →
     fileName i row
     = Ok (lit "slide_" ++ numberToString (i + 1) ++ lit "_generated.pptx")).
Proof.
  split.
  - intros name (stem & Hstem & ->)%fileName_Ok. repeat apply Forall_app_2.
    + apply (bool_decide_unpack _). vm_compute. exact I.
    + eapply Forall_impl; [apply numberToString_digits|].
      intros c Hc. left. by apply digit_is_alnum.
    + apply (bool_decide_unpack _). vm_compute. exact I.
    + unfold nameStem in Hstem.
      destruct (head (objectValues row)) as [[v|items]|]; try discriminate.
      * pose proof (sanitize_charset v) as Hv.
        destruct (sanitize v); injection Hstem as <-; [|done].
        apply (bool_decide_unpack _). vm_compute. exact I.
      * injection Hstem as <-.
        apply (bool_decide_unpack _). vm_compute. exact I.
    + apply (bool_decide_unpack _). vm_compute. exact I.
  - intros [Hhead|Hhead]; unfold fileName, nameStem; rewrite Hhead; reflexivity.
Qed.

(** The outer archive a batch returns holds the archives of the rows
    and nothing else: its entries are exactly the archives made from
    the rows, each under the name of its row. *)
Theorem outer_archive_is_the_row_archives tf (data : list CsvRow) mapping
    (master : gmap jsstring Archive) :
  (generateBatch tf data mapping).1 = Ok master →
  ∀ (name : jsstring) (blob : Archive),
    master !! name = Some blob ↔
    ∃ i row zip, data !! i = Some row ∧ tf = Package zip
                 ∧ fileName i row = Ok name
                 ∧ rewriteSlides mapping row zip = Ok blob.
Proof.
  rewrite generateBatch_spec. cbn [fst].
  destruct (failure tf mapping 0 data) as [e|] eqn:Hfail; [discriminate|].
  intros [= <-] name blob. rewrite master_lookup. split.
  - intros [i Hout]%list_elem_of_lookup.
    apply completed_lookup in Hout as (row & Hrow & Hrun).
    apply rowOutput_Ok in Hrun as (zip & -> & Hblob & Hname).
    by exists i, row, zip.
  - intros (i & row & zip & Hrow & -> & Hname & Hblob).
    destruct (completed_all _ _ _ _ _ _ Hfail Hrow) as (out & Hout & Hrun).
    assert (rowOutput (Package zip) mapping (0 + i) row = Ok (name, blob)) as Hrun'.
    { apply rowOutput_Ok. by exists zip. }
    rewrite Hrun in Hrun'. injection Hrun' as ->.
    by apply list_elem_of_lookup_2 in Hout.
Qed.

Lemma generateBatch_completes zip (data : list CsvRow) mapping :
  plainSlides zip →
  map_Forall (fun _ v => plainColumn v = true) (entries mapping) →
  Forall (fun row => Forall (fun kv => isText kv.2 = true) row) data →
  ∃ master,
    (generateBatch (Package zip) data mapping).1 = Ok master
    ∧ size master = length data
    ∧ progressCalls (generateBatch (Package zip) data mapping).2
      = (fun j => (j, length data)) <$> seq 1 (length data).
Proof.
  intros Hslides Hcols Hrows.
  assert (failure (Package zip) mapping 0 data = None) as Hnone.
  { apply failure_None_all. intros j row Hrow.
    rewrite Forall_forall in Hrows.
    pose proof (Hrows row (list_elem_of_lookup_2 _ _ _ Hrow)) as Htext.
    destruct (fileName (0 + j) row) as [name|e] eqn:Hname.
    - exists (name, rewritten mapping row zip). apply rowOutput_Ok.
      exists zip. split; [done|]. split; [|done].
      apply rewriteSlides_Ok. split; [|done].
      apply archiveCrashes_false. intros path content Hpath Hslide.
      apply crashes_false. intros cap Hin.
      specialize (Hslides path content Hpath Hslide).
      rewrite Forall_forall in Hslides. apply elem_of_captures in Hin.
      by apply verdict_plain; [apply Hslides|..].
    - unfold fileName, nameStem in Hname.
      destruct row as [|[k [v|items]] row]; try discriminate.
      apply Forall_cons in Htext as [Htext _]. discriminate Htext. }
  rewrite generateBatch_spec, Hnone. cbn [fst snd]. eexists.
  split; [reflexivity|].
  apply failure_None in Hnone. split.
  - by rewrite master_size.
  - rewrite <-Hnone at 2.
    apply (progressCalls_entries (length data)
             (completed (Package zip) mapping 0 data) 0).
Qed.

(** A batch runs to its end when the template decodes, no placeholder
    of its slides and no column name of the mapping is named as a
    member of [Object.prototype], and the rows hold strings only: it
    returns an outer archive with one entry per row and has called
    [onProgress] once per row. *)
Theorem batch_completes_on_plain_input zip (data : list CsvRow) mapping :
  plainSlides zip →
  map_Forall (fun _ v => plainColumn v = true) (entries mapping) →
  Forall (fun row => Forall (fun kv => isText kv.2 = true) row) data →
  ∃ master,
    (generateBatch (Package zip) data mapping).1 = Ok master
    ∧ size master = length data
    ∧ progressCalls (generateBatch (Package zip) data mapping).2
      = (fun j => (j, length data)) <$> seq 1 (length data).
Proof. apply generateBatch_completes. Qed.

(** A value that is no string ends the batch.  When a key has a
    non-empty column name of its own in the mapping and what the row
    has under that column is an array of surplus fields or a member
    inherited from [Object.prototype] (the row has no such column of
    its own and the name is one of the member names), the callback
    throws for every match with that key; so do [replace] on a content
    with such a match and the slide loop on an archive with such a
    slide, and a batch ends at that row with the exception. *)
Theorem non_string_value_ends_batch mapping row (cap col : jsstring) :
  mapping !! trim cap = Some (Some col) → col ≠ [] →
  (∃ items, rowOwn row col = Some (Extra items))
  ∨ (rowOwn row col = None ∧ isInherited col = true) →
  replacer mapping row (matchText cap) cap = Throw TypeError
  ∧ ∀ content, Tok cap ∈ tokenize content →
      substituteContent mapping row content = Throw TypeError
      ∧ ∀ zip path,
          zip !! path = Some content → isSlidePath path = true →
          rewriteSlides mapping row zip = Throw TypeError
          ∧ ∀ rest, generateBatch (Package zip) (row :: rest) mapping
                    = (Throw TypeError, []).
Proof.
  intros Hmap Hcol Hvalue.
  assert (verdict mapping row cap = Crash) as Hcrash.
  { rewrite (verdict_mapped _ _ _ col) by done. unfold rowGet.
    destruct Hvalue as [[items ->]|[-> ->]]; reflexivity. }
  split; [by rewrite replacer_verdict, Hcrash|].
  intros content Hin.
  assert (crashes mapping row content = true) as Hcontent.
  { destruct (crashes mapping row content) eqn:Hc; [done|].
    by destruct (proj1 (crashes_false _ _ _) Hc cap Hin). }
  split; [by rewrite substituteContent_spec, Hcontent|].
  intros zip path Hpath Hslide.
  assert (rewriteSlides mapping row zip = Throw TypeError) as Hzip.
  { rewrite rewriteSlides_spec.
    destruct (archiveCrashes mapping row zip) eqn:Ha; [done|].
    rewrite (proj1 (archiveCrashes_false _ _ _) Ha path content Hpath Hslide)
      in Hcontent. discriminate. }
  split; [exact Hzip|]. intros rest.
  rewrite generateBatch_spec. cbn [failure completed].
  unfold rowOutput. cbn [loadAsync]. unfold mbind, Result_bind.
  by rewrite Hzip.
Qed.

End ArchivesMore.

(** ** Editing the mapping *)

Section MappingEdits.

Context `{Engine}.

Implicit Types (st : App.State) (row : CsvRow).

Lemma replacer_same_read (m m' : ColumnMapping) row match_ cap :
  mappingGet m' (trim cap) = mappingGet m (trim cap) →
  replacer m' row match_ cap = replacer m row match_ cap.
Proof. unfold replacer. by intros ->. Qed.

Lemma spreadWith_lookup_eq (m : ColumnMapping) (key : jsstring) v :
  spreadWith m key v !! key = Some v.
Proof. apply lookup_insert_eq. Qed.

Lemma spreadWith_lookup_ne (m : ColumnMapping) (key key' : jsstring) v :
  key' ≠ key → spreadWith m key v !! key' = m !! key'.
Proof. intros Hne. by apply lookup_insert_ne. Qed.

(** What the two mapping editors mean for the substitution.  After a
    column is dropped on a key (the dropped text is not checked against
    the columns), a match with that key is replaced by the escaped
    string the row has under that column, is left in place when the
    row has nothing under it, and makes the callback throw when the row
    has an array or an inherited member under it.  Matches with other
    keys are treated as before, unless the key is an inherited member
    name without entry in a mapping that had lost its prototype.  After
    the mapping of a key is removed, a match with that key is left in
    place.  A drag that carries no text changes nothing. *)
Theorem mapping_edits_drive_substitution st row (key col : jsstring) :
  App.handleDrop key [] st = st
  ∧ (∀ cap v, col ≠ [] → trim cap = key → rowGet row col = Str v →
       replacer (App.mapping (App.handleDrop key col st)) row (matchText cap) cap
       = Ok (escapeXml v))
  ∧ (∀ cap, col ≠ [] → trim cap = key → rowGet row col = Undefined →
       replacer (App.mapping (App.handleDrop key col st)) row (matchText cap) cap
       = Ok (matchText cap))
  ∧ (∀ cap, col ≠ [] → trim cap = key →
       (∃ items, rowGet row col = Arr items)
       ∨ (∃ name, rowGet row col = Builtin name) →
       replacer (App.mapping (App.handleDrop key col st)) row (matchText cap) cap
       = Throw TypeError)
  ∧ (∀ cap, trim cap ≠ key →
       inherits (App.mapping st) = true ∨ isInherited (trim cap) = false
       ∨ is_Some (App.mapping st !! trim cap) →
       replacer (App.mapping (App.handleDrop key col st)) row (matchText cap) cap
       = replacer (App.mapping st) row (matchText cap) cap)
  ∧ (∀ cap, trim cap = key →
       replacer (App.mapping (App.handleRemoveMapping key st)) row
         (matchText cap) cap
       = Ok (matchText cap)).
Proof.
  assert (∀ cap, col ≠ [] → trim cap = key →
            App.mapping (App.handleDrop key col st) !! trim cap = Some (Some col))
    as Hdropped.
  { intros cap Hcol <-. destruct col as [|c cs]; [done|].
    cbn [App.handleDrop App.setMapping App.mapping].
    apply spreadWith_lookup_eq. }
  split; [reflexivity|]. split; [|split; [|split; [|split]]].
  - intros cap v Hcol Hkey Hget.
    rewrite replacer_verdict, (verdict_mapped _ _ _ col) by auto.
    by rewrite Hget.
  - intros cap Hcol Hkey Hget.
    rewrite replacer_verdict, (verdict_mapped _ _ _ col) by auto.
    by rewrite Hget.
  - intros cap Hcol Hkey Hget.
    rewrite replacer_verdict, (verdict_mapped _ _ _ col) by auto.
    by destruct Hget as [[items ->]|[name ->]].
  - intros cap Hne Hold. destruct col as [|c cs]; [done|].
    apply replacer_same_read.
    cbn [App.handleDrop App.setMapping App.mapping]. unfold mappingGet.
    rewrite spreadWith_lookup_ne by done.
    destruct (App.mapping st !! trim cap) as [v|] eqn:Hv; [done|].
    cbn [spreadWith plainObject inherits].
    destruct Hold as [-> | [-> | [? [=]]]]; [done|].
    by rewrite !andb_false_r.
  - intros cap <-. rewrite replacer_verdict, verdict_unmapped; [done| |].
    + right. left. cbn [App.handleRemoveMapping App.setMapping App.mapping].
      apply spreadWith_lookup_eq.
    + right. right. cbn [App.handleRemoveMapping App.setMapping App.mapping].
      by rewrite spreadWith_lookup_eq.
Qed.

(** Removing the mapping of a key undoes a drop on that key, and a
    later drop on a key replaces an earlier one. *)
Theorem mapping_edits_compose st (key col col' : jsstring) :
  App.handleRemoveMapping key (App.handleDrop key col st)
  = App.handleRemoveMapping key st
  ∧ (col' ≠ [] →
     App.handleDrop key col' (App.handleDrop key col st)
     = App.handleDrop key col' st).
Proof.
  split.
  - destruct col as [|c cs]; [done|].
    unfold App.handleRemoveMapping, App.handleDrop, App.setMapping, spreadWith.
    cbn [App.mapping App.templateFile App.csvFile App.csvData App.previewData
         App.downloadUrl App.stats App.error plainObject entries].
    by rewrite insert_insert_eq.
  - intros Hcol'. destruct col' as [|c' cs']; [done|].
    destruct col as [|c cs]; [done|].
    unfold App.handleDrop, App.setMapping, spreadWith.
    cbn [App.mapping App.templateFile App.csvFile App.csvData App.previewData
         App.downloadUrl App.stats App.error plainObject entries].
    by rewrite insert_insert_eq.
Qed.

End MappingEdits.

(** ** Automatic mapping, analysis and generation in [App.tsx] *)

Section AppMore.

Context `{Engine}.

Implicit Types (st : App.State) (row : CsvRow) (zip : Archive)
  (tf : TemplateFile).

Lemma rowOwn_is_Some row (col : jsstring) :
  col ∈ objectKeys row → is_Some (rowOwn row col).
Proof.
  unfold rowOwn, objectKeys. induction row as [|[k v] row IH].
  - intros Hin. by apply elem_of_nil in Hin.
  - cbn [fmap list_fmap JS.find fst]. case_bool_decide as Hk; [by eexists|].
    intros [->|Hin]%elem_of_cons; [done|]. by apply IH.
Qed.

Lemma autoMatch_assigned (lower : jsstring → jsstring)
    (keys headers : list jsstring) (key h : jsstring) :
  App.autoMatch lower keys headers !! key = Some (Some h) →
  key ∈ keys ∧ h ∈ headers ∧ h ≠ [] ∧ lower (trim h) = lower key.
Proof.
  unfold App.autoMatch. intros [[Hin Hfound]|Hempty]%autoMatch_inv; [|done].
  split; [done|].
  unfold App.matchedHeader in Hfound.
  destruct (JS.find _ headers) as [[|c cs]|] eqn:Hfind; try discriminate.
  injection Hfound as ->.
  apply find_Some in Hfind as (pre & post & -> & Hh & _).
  apply bool_decide_eq_true in Hh.
  assert (c :: cs ∈ pre ++ (c :: cs) :: post) as Hmem.
  { apply elem_of_app. right. apply list_elem_of_here. }
  by repeat split.
Qed.

(** The automatic mapping has entries for template keys only, and the
    column it assigns is always one of the columns, not empty, equal to
    the key up to case and surrounding blanks; when the columns are
    those of a row, that row has a value of its own under the assigned
    column. *)
Theorem auto_mapping_assigns_existing_columns (lower : jsstring → jsstring)
    (keys headers : list jsstring) (key h : jsstring) :
  App.autoMatch lower keys headers !! key = Some (Some h) →
  key ∈ keys ∧ h ∈ headers ∧ h ≠ [] ∧ lower (trim h) = lower key
  ∧ ∀ row, headers = objectKeys row → is_Some (rowOwn row h).
Proof.
  intros (Hkey & Hh & Hne & Hci)%autoMatch_assigned.
  repeat split; [done..|].
  intros row Hrow. apply rowOwn_is_Some. by rewrite <-Hrow.
Qed.

Lemma autoMatch_columns (lower : jsstring → jsstring)
    (keys headers : list jsstring) :
  Forall (fun h => isInherited h = false) headers →
  map_Forall (fun _ v => plainColumn v = true)
             (entries (App.autoMatch lower keys headers)).
Proof.
  intros Hheaders key [h|] Hentry; [|done]. cbn.
  change (App.autoMatch lower keys headers !! key = Some (Some h)) in Hentry.
  apply autoMatch_assigned in Hentry as (_ & Hh & _).
  rewrite Forall_forall in Hheaders. by rewrite (Hheaders h Hh).
Qed.

Lemma reportProgress_fold (calls : list (nat * nat)) st :
  App.templateFile (foldl App.reportProgress st calls) = App.templateFile st
  ∧ App.csvFile (foldl App.reportProgress st calls) = App.csvFile st
  ∧ App.csvData (foldl App.reportProgress st calls) = App.csvData st
  ∧ App.previewData (foldl App.reportProgress st calls) = App.previewData st
  ∧ App.downloadUrl (foldl App.reportProgress st calls) = App.downloadUrl st
  ∧ App.mapping (foldl App.reportProgress st calls) = App.mapping st
  ∧ App.error (foldl App.reportProgress st calls) = App.error st
  ∧ isProcessing (App.stats (foldl App.reportProgress st calls))
    = isProcessing (App.stats st)
  ∧ isComplete (App.stats (foldl App.reportProgress st calls))
    = isComplete (App.stats st)
  ∧ (∀ call, last calls = Some call →
       total (App.stats (foldl App.reportProgress st calls)) = call.2
       ∧ processed (App.stats (foldl App.reportProgress st calls)) = call.1).
Proof.
  revert st. induction calls as [|c calls IH]; intros st.
  - cbn [foldl]. repeat split; discriminate.
  - cbn [foldl].
    destruct (IH (App.reportProgress st c))
      as (H1 & H2 & H3 & H4 & H5 & H6 & H7 & H8 & H9 & H10).
    rewrite H1, H2, H3, H4, H5, H6, H7, H8, H9.
    repeat split; try reflexivity.
    + destruct calls as [|c' calls]; [|by apply H10].
      by cbn in *; simplify_eq.
    + destruct calls as [|c' calls]; [|by apply H10].
      by cbn in *; simplify_eq.
Qed.

(** The counters after the progress calls of a batch of [n] rows of
    which [k] were completed. *)
Lemma reportProgress_counters (n k : nat) st :
  total (App.stats st) = n → processed (App.stats st) = 0%nat →
  total (App.stats (foldl App.reportProgress st
                      ((fun j => (j, n)) <$> seq 1 k))) = n
  ∧ processed (App.stats (foldl App.reportProgress st
                            ((fun j => (j, n)) <$> seq 1 k))) = k.
Proof.
  intros Htotal Hprocessed. destruct k as [|k]; [done|].
  destruct (reportProgress_fold ((fun j => (j, n)) <$> seq 1 (S k)) st)
    as (_ & _ & _ & _ & _ & _ & _ & _ & _ & Hlast).
  apply (Hlast (S k, n)). by rewrite fmap_last, seq_S, last_snoc.
Qed.

Lemma progressCalls_generateBatch tf (data : list CsvRow) (mapping : ColumnMapping) :
  progressCalls (generateBatch tf data mapping).2
  = (fun j => (j, length data))
      <$> seq 1 (length (progressCalls (generateBatch tf data mapping).2)).
Proof.
  rewrite generateBatch_spec. cbn [snd].
  rewrite (progressCalls_entries (length data) (completed tf mapping 0 data) 0).
  by rewrite length_fmap, length_seq.
Qed.

Lemma generateBatch_Ok tf (data : list CsvRow) (mapping : ColumnMapping)
    (master : gmap jsstring Archive) :
  (generateBatch tf data mapping).1 = Ok master →
  size master = length data
  ∧ length (progressCalls (generateBatch tf data mapping).2) = length data.
Proof.
  rewrite generateBatch_spec. cbn [fst snd].
  destruct (failure tf mapping 0 data) eqn:Hfail; [discriminate|].
  intros Hmaster. injection Hmaster as <-. apply failure_None in Hfail.
  rewrite master_size.
  rewrite (progressCalls_entries _ (completed tf mapping 0 data) 0).
  by rewrite length_fmap, length_seq.
Qed.

Lemma generateBatch_Throw tf (data : list CsvRow) (mapping : ColumnMapping) e :
  (generateBatch tf data mapping).1 = Throw e →
  (length (progressCalls (generateBatch tf data mapping).2) < length data)%nat.
Proof.
  rewrite generateBatch_spec. cbn [fst snd].
  destruct (failure tf mapping 0 data) eqn:Hfail; [|discriminate].
  intros _.
  rewrite (progressCalls_entries _ (completed tf mapping 0 data) 0).
  rewrite length_fmap, length_seq.
  pose proof (completed_length tf mapping data 0) as Hle.
  assert (length (completed tf mapping 0 data) ≠ length data) as Hne.
  { intros Heq%failure_None. congruence. }
  lia.
Qed.

(** What [handleGenerate] makes of a batch that is started. *)
Lemma handleGenerate_run (answer : bool) st tf row (rest : list CsvRow) :
  App.templateFile st = Some tf →
  App.csvData st = row :: rest →
  App.hasMappings (App.mapping st) = true ∨ answer = true →
  App.stats (App.handleGenerate answer st)
    = {| total := S (length rest);
         processed :=
           length (progressCalls
                     (generateBatch tf (row :: rest) (App.mapping st)).2);
         isProcessing := false;
         isComplete :=
           match (generateBatch tf (row :: rest) (App.mapping st)).1 with
           | Ok _ => true
           | Throw _ => false
           end |}
  ∧ App.downloadUrl (App.handleGenerate answer st)
    = match (generateBatch tf (row :: rest) (App.mapping st)).1 with
      | Ok master => Some master
      | Throw _ => None
      end
  ∧ App.error (App.handleGenerate answer st)
    = match (generateBatch tf (row :: rest) (App.mapping st)).1 with
      | Ok _ => App.error st
      | Throw _ => Some App.GenerateFailed
      end
  ∧ App.csvData (App.handleGenerate answer st) = row :: rest
  ∧ App.mapping (App.handleGenerate answer st) = App.mapping st
  ∧ App.previewData (App.handleGenerate answer st) = App.previewData st.
Proof.
  intros Htf Hdata Hgo. unfold App.handleGenerate. rewrite Htf, Hdata.
  assert (negb (App.hasMappings (App.mapping st)) && negb answer = false) as ->.
  { destruct Hgo as [-> | ->]; [done|apply andb_false_r]. }
  cbn [App.csvData App.mapping App.setDownloadUrl App.setStats].
  rewrite Hdata.
  destruct (generateBatch tf (row :: rest) (App.mapping st)) as [result evs] eqn:Hrun.
  pose proof (progressCalls_generateBatch tf (row :: rest) (App.mapping st)) as Hcalls.
  rewrite Hrun in Hcalls. cbn [fst snd length] in *. rewrite Hcalls.
  rewrite length_fmap, length_seq.
  set (k := length (progressCalls evs)).
  match goal with
  | |- context [foldl App.reportProgress ?s ?calls] =>
      destruct (reportProgress_fold calls s)
        as (H1 & H2 & H3 & H4 & H5 & H6 & H7 & H8 & H9 & _);
      destruct (reportProgress_counters (S (length rest)) k s eq_refl eq_refl)
        as [Htot Hproc]
  end.
  cbn [App.stats App.setStats App.setDownloadUrl App.csvData App.mapping
       App.previewData App.error App.downloadUrl total processed
       isProcessing isComplete] in *.
  destruct result as [master|e];
    cbn [App.stats App.setStats App.setDownloadUrl App.setError App.csvData
         App.mapping App.previewData App.error App.downloadUrl total processed
         isProcessing isComplete];
    rewrite ?Htot, ?Hproc, ?H3, ?H4, ?H5, ?H6, ?H7, ?H9, ?Hdata; done.
Qed.

Lemma handleGenerate_ok (answer : bool) st tf row (rest : list CsvRow)
    (master : gmap jsstring Archive) :
  App.templateFile st = Some tf →
  App.csvData st = row :: rest →
  App.hasMappings (App.mapping st) = true ∨ answer = true →
  (generateBatch tf (row :: rest) (App.mapping st)).1 = Ok master →
  App.stats (App.handleGenerate answer st)
    = {| total := S (length rest); processed := S (length rest);
         isProcessing := false; isComplete := true |}
  ∧ App.downloadUrl (App.handleGenerate answer st) = Some master
  ∧ size master = S (length rest)
  ∧ App.csvData (App.handleGenerate answer st) = row :: rest
  ∧ App.mapping (App.handleGenerate answer st) = App.mapping st
  ∧ App.previewData (App.handleGenerate answer st) = App.previewData st
  ∧ App.error (App.handleGenerate answer st) = App.error st.
Proof.
  intros Htf Hdata Hgo Hrun.
  destruct (handleGenerate_run answer st tf row rest Htf Hdata Hgo)
    as (Hstats & Hurl & Herr & Hrows & Hmap & Hprev).
  rewrite Hrun in Hstats, Hurl, Herr.
  destruct (generateBatch_Ok _ _ _ _ Hrun) as [Hsize Hk].
  rewrite Hk in Hstats. by repeat split.
Qed.

(** A generation that runs to its end.  With at least one stored row,
    either some mapped key or the user's confirmation, and a batch that
    returns its outer archive, [handleGenerate] ends with the counters
    at the number of rows, the processing flag down and the completion
    flag up, and offers that archive, which has one entry per row, for
    download.  The stored rows, the mapping, the preview and the error
    message are as before. *)
Theorem generation_completes (answer : bool) st tf row (rest : list CsvRow)
    (master : gmap jsstring Archive) :
  App.templateFile st = Some tf →
  App.csvData st = row :: rest →
  App.hasMappings (App.mapping st) = true ∨ answer = true →
  (generateBatch tf (row :: rest) (App.mapping st)).1 = Ok master →
  App.stats (App.handleGenerate answer st)
    = {| total := S (length rest); processed := S (length rest);
         isProcessing := false; isComplete := true |}
  ∧ App.downloadUrl (App.handleGenerate answer st) = Some master
  ∧ size master = S (length rest)
  ∧ App.csvData (App.handleGenerate answer st) = row :: rest
  ∧ App.mapping (App.handleGenerate answer st) = App.mapping st
  ∧ App.previewData (App.handleGenerate answer st) = App.previewData st
  ∧ App.error (App.handleGenerate answer st) = App.error st.
Proof. apply handleGenerate_ok. Qed.

(** A generation that fails.  With a template that does not decode
    (and at least one stored row, and a mapped key or the user's
    confirmation) [handleGenerate] ends with the generation error, no
    progress, the processing flag down, and no download: the download
    offered before is withdrawn as well. *)
Theorem generation_fails_on_corrupt_template (answer : bool) st row
    (rest : list CsvRow) :
  App.templateFile st = Some Corrupt →
  App.csvData st = row :: rest →
  App.hasMappings (App.mapping st) = true ∨ answer = true →
  App.error (App.handleGenerate answer st) = Some App.GenerateFailed
  ∧ App.downloadUrl (App.handleGenerate answer st) = None
  ∧ App.stats (App.handleGenerate answer st)
    = {| total := S (length rest); processed := 0;
         isProcessing := false; isComplete := false |}
  ∧ App.csvData (App.handleGenerate answer st) = row :: rest
  ∧ App.mapping (App.handleGenerate answer st) = App.mapping st.
Proof.
  intros Htf Hdata Hgo.
  destruct (handleGenerate_run answer st Corrupt row rest Htf Hdata Hgo)
    as (Hstats & Hurl & Herr & Hrows & Hmap & _).
  by rewrite generateBatch_corrupt in Hstats, Hurl, Herr.
Qed.

(** A generation that stops at a row.  When the batch ends with an
    exception, whatever its cause, [handleGenerate] ends with the
    generation error and without download; the counter of processed
    rows stays at the number of rows completed before, which is less
    than the number of rows, and the completion flag stays down. *)
Theorem generation_stops_at_failing_row (answer : bool) st tf row
    (rest : list CsvRow) (e : Error) :
  App.templateFile st = Some tf →
  App.csvData st = row :: rest →
  App.hasMappings (App.mapping st) = true ∨ answer = true →
  (generateBatch tf (row :: rest) (App.mapping st)).1 = Throw e →
  App.error (App.handleGenerate answer st) = Some App.GenerateFailed
  ∧ App.downloadUrl (App.handleGenerate answer st) = None
  ∧ total (App.stats (App.handleGenerate answer st)) = S (length rest)
  ∧ processed (App.stats (App.handleGenerate answer st))
    = length (progressCalls (generateBatch tf (row :: rest) (App.mapping st)).2)
  ∧ (processed (App.stats (App.handleGenerate answer st)) < S (length rest))%nat
  ∧ isProcessing (App.stats (App.handleGenerate answer st)) = false
  ∧ isComplete (App.stats (App.handleGenerate answer st)) = false.
Proof.
  intros Htf Hdata Hgo Hrun.
  destruct (handleGenerate_run answer st tf row rest Htf Hdata Hgo)
    as (Hstats & Hurl & Herr & _).
  rewrite Hrun in Hstats, Hurl, Herr. rewrite Hstats. cbn.
  repeat split; try done.
  exact (generateBatch_Throw _ _ _ _ Hrun).
Qed.

Lemma analyzeFiles_ok lower st tf row (rest : list CsvRow) :
  App.templateFile st = Some tf →
  App.csvFile st = Some (Parsed (row :: rest)) →
  App.analyzeFiles lower st
  = App.setMapping (App.autoMatch lower (extractKeysFromPPTX tf) (objectKeys row))
      (App.setPreviewData
         (Some {| csvHeaders := objectKeys row;
                  templateKeys := extractKeysFromPPTX tf;
                  rowCount := S (length rest) |})
         (App.setCsvData (row :: rest) (App.setError None st))).
Proof. intros Htf Hcsv. unfold App.analyzeFiles. by rewrite Htf, Hcsv. Qed.

Lemma analyzeFiles_failed lower st tf cf :
  App.templateFile st = Some tf → App.csvFile st = Some cf →
  cf = Rejected ∨ cf = Parsed [] →
  App.analyzeFiles lower st = App.setError (Some App.AnalyzeFailed) st.
Proof.
  intros Htf Hcsv Hcf. unfold App.analyzeFiles. rewrite Htf, Hcsv.
  by destruct Hcf as [-> | ->].
Qed.

(** From the two files to the download.  Take a template that decodes
    and a CSV file of at least one row, such that no placeholder of
    the slides and no column of the first row is named as a member of
    [Object.prototype] and every row holds strings only.  Then analysis
    followed by a confirmed generation offers an outer archive with one
    entry per row of the file, made with the automatic mapping of the
    keys of the first slide to the columns of the first row. *)
Theorem analysis_then_generation lower st zip row (rest : list CsvRow) :
  App.templateFile st = Some (Package zip) →
  App.csvFile st = Some (Parsed (row :: rest)) →
  plainSlides zip →
  Forall (fun h => isInherited h = false) (objectKeys row) →
  Forall (fun r => Forall (fun kv => isText kv.2 = true) r) (row :: rest) →
  ∃ master,
    (generateBatch (Package zip) (row :: rest)
       (App.autoMatch lower (extractKeysFromPPTX (Package zip)) (objectKeys row))).1
    = Ok master
    ∧ App.downloadUrl (App.handleGenerate true (App.analyzeFiles lower st))
      = Some master
    ∧ size master = S (length rest)
    ∧ isComplete (App.stats (App.handleGenerate true (App.analyzeFiles lower st)))
      = true
    ∧ App.error (App.handleGenerate true (App.analyzeFiles lower st)) = None.
Proof.
  intros Htf Hcsv Hslides Hheaders Hrows.
  rewrite (analyzeFiles_ok lower st _ row rest Htf Hcsv).
  destruct (generateBatch_completes zip (row :: rest)
              (App.autoMatch lower (extractKeysFromPPTX (Package zip))
                 (objectKeys row)) Hslides
              (autoMatch_columns lower _ _ Hheaders) Hrows)
    as (master & Hrun & Hsize & _).
  exists master. split; [exact Hrun|].
  match goal with
  | |- context [App.handleGenerate true ?s] =>
      destruct (handleGenerate_run true s (Package zip) row rest)
        as (Hstats & Hurl & Herr & _);
      [exact Htf|reflexivity|by right|]
  end.
  cbn [App.mapping App.setMapping] in Hstats, Hurl, Herr.
  rewrite Hrun in Hstats, Hurl, Herr. rewrite Hstats, Hurl, Herr.
  by repeat split.
Qed.

(** A template that does not decode passes the analysis: no error is
    shown, the preview lists no key and nothing is mapped.  The failure
    shows only when the generation is confirmed. *)
Theorem corrupt_template_fails_only_at_generation lower st row
    (rest : list CsvRow) :
  App.templateFile st = Some Corrupt →
  App.csvFile st = Some (Parsed (row :: rest)) →
  App.error (App.analyzeFiles lower st) = None
  ∧ App.previewData (App.analyzeFiles lower st)
    = Some {| csvHeaders := objectKeys row; templateKeys := [];
              rowCount := S (length rest) |}
  ∧ App.mapping (App.analyzeFiles lower st) = ∅
  ∧ App.handleGenerate false (App.analyzeFiles lower st)
    = App.analyzeFiles lower st
  ∧ App.error (App.handleGenerate true (App.analyzeFiles lower st))
    = Some App.GenerateFailed.
Proof.
  intros Htf Hcsv. rewrite (analyzeFiles_ok lower st _ row rest Htf Hcsv).
  split; [reflexivity|]. split; [reflexivity|]. split; [reflexivity|]. split.
  - unfold App.handleGenerate.
    cbn [App.templateFile App.csvData App.mapping App.setMapping
         App.setPreviewData App.setCsvData App.setError].
    by rewrite Htf.
  - match goal with
    | |- context [App.handleGenerate true ?s] =>
        destruct (handleGenerate_run true s Corrupt row rest Htf eq_refl
                    (or_intror eq_refl)) as (_ & _ & Herr & _)
    end.
    by rewrite generateBatch_corrupt in Herr.
Qed.

(** A failed analysis keeps the rows of the analysis before it.  When
    the CSV file is rejected or has no row, [analyzeFiles] only sets
    the error; rows stored earlier stay, and a confirmed generation
    then runs on them: when that batch returns its outer archive, the
    archive is offered for download, with one entry per stored row,
    while the message of the failed analysis stays. *)
Theorem failed_analysis_keeps_earlier_rows lower st tf cf row
    (rest : list CsvRow) :
  App.templateFile st = Some tf → App.csvFile st = Some cf →
  cf = Rejected ∨ cf = Parsed [] →
  App.csvData st = row :: rest →
  App.analyzeFiles lower st = App.setError (Some App.AnalyzeFailed) st
  ∧ App.csvData (App.analyzeFiles lower st) = row :: rest
  ∧ ∀ master,
      (generateBatch tf (row :: rest) (App.mapping st)).1 = Ok master →
      App.downloadUrl (App.handleGenerate true (App.analyzeFiles lower st))
      = Some master
      ∧ size master = S (length rest)
      ∧ App.error (App.handleGenerate true (App.analyzeFiles lower st))
        = Some App.AnalyzeFailed.
Proof.
  intros Htf Hcsv Hcf Hdata.
  rewrite (analyzeFiles_failed lower st _ cf Htf Hcsv Hcf).
  split; [reflexivity|]. split; [exact Hdata|].
  intros master Hrun.
  destruct (handleGenerate_ok true (App.setError (Some App.AnalyzeFailed) st)
              tf row rest master Htf Hdata (or_intror eq_refl) Hrun)
    as (_ & Hurl & Hsize & _ & _ & _ & Herr).
  by repeat split.
Qed.

End AppMore.

(** ** Substitution of whole texts *)

Section WholeTexts.

Context `{Engine}.

Implicit Types (mapping : ColumnMapping) (row : CsvRow).

Lemma rewritten_tokens_unfired sub L cap :
  Tok cap ∈ rewriteSegs sub L → sub cap = None ∧ Tok cap ∈ L.
Proof.
  intros Hin. apply elem_of_captures in Hin.
  rewrite captures_rewriteSegs in Hin.
  apply list_elem_of_filter in Hin as [? Hin]. split; [done|].
  by apply elem_of_captures.
Qed.

Lemma tokenize_substituted mapping row (T : jsstring) :
  Forall (fun kv => hasBrace kv.2 = false) row →
  tokenize (substituted mapping row T)
  = rewriteSegs (fires mapping row) (tokenize T).
Proof.
  intros Hrow. unfold substituted.
  apply tokenize_rewritten. intros cap w. by apply fires_no_lbrace.
Qed.

(** Substituting a second time changes nothing, provided no string of
    the row holds an opening brace: the second pass returns the text of
    the first (and where the first throws there is no second). *)
Theorem substitution_is_idempotent mapping row (T : jsstring) :
  Forall (fun kv => hasBrace kv.2 = false) row →
  (out ← substituteContent mapping row T; substituteContent mapping row out)
  = substituteContent mapping row T.
Proof.
  intros Hrow. rewrite (substituteContent_spec mapping row T).
  destruct (crashes mapping row T) eqn:Hcrash; [reflexivity|].
  change (substituteContent mapping row (substituted mapping row T)
          = Ok (substituted mapping row T)).
  apply substituteContent_kept. intros cap.
  rewrite tokenize_substituted by done.
  intros [Hfire Hin]%rewritten_tokens_unfired.
  pose proof (proj1 (crashes_false mapping row T) Hcrash cap Hin) as Hno.
  unfold fires in Hfire. by destruct (verdict mapping row cap).
Qed.

(** When every match of a text has a key that is mapped to a non-empty
    column under which the row has a string, and no string of the row
    holds an opening brace, substitution returns a text that has no
    placeholder left. *)
Theorem fully_mapped_text_has_no_placeholder_left mapping row (T : jsstring) :
  Forall (fun kv => hasBrace kv.2 = false) row →
  Forall (fun cap => ∃ col v, mapping !! trim cap = Some (Some col) ∧ col ≠ []
                              ∧ rowGet row col = Str v)
         (captures (tokenize T)) →
  ∃ out, substituteContent mapping row T = Ok out
         ∧ captures (tokenize out) = []
         ∧ extractKeys out = [].
Proof.
  intros Hrow Hall. rewrite Forall_forall in Hall.
  assert (∀ cap, cap ∈ captures (tokenize T) →
            ∃ w, verdict mapping row cap = Replace w) as Hreplace.
  { intros cap Hin. destruct (Hall cap Hin) as (col & v & Hmap & Hcol & Hget).
    rewrite (verdict_mapped _ _ _ col) by done. rewrite Hget. eauto. }
  exists (substituted mapping row T).
  assert (captures (tokenize (substituted mapping row T)) = []) as Hnone.
  { rewrite tokenize_substituted by done.
    rewrite captures_rewriteSegs. apply elem_of_nil_inv.
    intros cap [Hfire Hin]%list_elem_of_filter.
    destruct (Hreplace cap Hin) as [w Hw].
    unfold fires in Hfire. by rewrite Hw in Hfire. }
  split; [|split; [exact Hnone|by rewrite extractKeys_captures, Hnone]].
  apply substituteContent_Ok. split; [|done]. apply crashes_false.
  intros cap Hin%elem_of_captures. destruct (Hreplace cap Hin) as [w Hw].
  by rewrite Hw.
Qed.

(** Only the keys of the first slide are mapped automatically: a match
    on any slide whose key is not among them, and is no member name of
    [Object.prototype], is left in place by a generation with the
    automatic mapping. *)
Theorem keys_off_first_slide_are_left (lower : jsstring → jsstring)
    (tf : TemplateFile) (headers : list jsstring) row (cap : jsstring) :
  trim cap ∉ extractKeysFromPPTX tf → isInherited (trim cap) = false →
  replacer (App.autoMatch lower (extractKeysFromPPTX tf) headers) row
    (matchText cap) cap
  = Ok (matchText cap).
Proof.
  intros Hout Hplain. rewrite replacer_verdict, verdict_unmapped; [done| |tauto].
  left. unfold App.autoMatch.
  destruct (foldl _ ∅ (extractKeysFromPPTX tf) !! trim cap) as [x|] eqn:Hx; [|done].
  by apply autoMatch_inv in Hx as [[? _]|?].
Qed.

End WholeTexts.

(** ** Concrete runs of the further properties *)

Section MoreInstances.

Local Existing Instance v8.

Ltac settle := apply (bool_decide_unpack _); vm_compute; exact I.

Definition sampleRow : CsvRow :=
  [(lit "Name", Text (lit "Ana")); (lit "City", Text (lit "Rio"))].

Definition sampleZip : Archive :=
  {[ slide1Path := lit "Hi {{NAME}}";
     lit "ppt/slides/slide2.xml" := lit "{{NAME}} of {{ CITY }}, {{ZIP}}";
     lit "docProps/app.xml" := lit "{{NAME}}" ]}.

Definition sampleState (tf : TemplateFile) (cf : CsvFile) (data : list CsvRow)
    (m : ColumnMapping) : App.State :=
  {| App.templateFile := Some tf; App.csvFile := Some cf; App.csvData := data;
     App.previewData := None; App.downloadUrl := None; App.mapping := m;
     App.stats := {| total := 0; processed := 0; isProcessing := false;
                     isComplete := false |};
     App.error := None |}.

Definition nameMapping : ColumnMapping :=
  plainObject {[ lit "NAME" := Some (lit "Name") ]}.

(** The archive made from [sampleRow] with [nameMapping]. *)
Definition anaZip : Archive :=
  {[ slide1Path := lit "Hi Ana";
     lit "ppt/slides/slide2.xml" := lit "Ana of {{ CITY }}, {{ZIP}}";
     lit "docProps/app.xml" := lit "{{NAME}}" ]}.

Lemma extracted_keys_are_lookup_keys_witness :
  Forall (fun cap => containsOpen cap = false)
    (captures (tokenize (lit "{{ A }} {{B}}")))
  ∧ (lit "A" ∈ extractKeys (lit "{{ A }} {{B}}") ↔
     ∃ cap, Tok cap ∈ tokenize (lit "{{ A }} {{B}}") ∧ lit "A" = trim cap).
Proof.
  assert (Forall (fun cap => containsOpen cap = false)
            (captures (tokenize (lit "{{ A }} {{B}}")))) as Hsimple by settle.
  exact (conj Hsimple (extracted_keys_are_lookup_keys _ Hsimple (lit "A"))).
Defined.

Lemma text_without_open_witness :
  containsOpen (lit "a { b }} c") = false
  ∧ substituteContent (plainObject {[ lit "b" := Some (lit "Name") ]}) sampleRow
      (lit "a { b }} c")
    = Ok (lit "a { b }} c").
Proof.
  assert (containsOpen (lit "a { b }} c") = false) as Hs by reflexivity.
  exact (conj Hs (proj1 (text_without_open_is_untouched _ _ _ Hs))).
Defined.

Lemma substitution_line_by_line_witness :
  isLineTerminator 10 = true
  ∧ substituteContent nameMapping sampleRow (lit "{{NAME" ++ 10 :: lit "}} {{NAME}}")
    = (before ← substituteContent nameMapping sampleRow (lit "{{NAME");
       after ← substituteContent nameMapping sampleRow (lit "}} {{NAME}}");
       Ok (before ++ 10 :: after)).
Proof.
  exact (conj eq_refl
           (proj1 (substitution_is_line_by_line nameMapping sampleRow
                     (lit "{{NAME") (lit "}} {{NAME}}") 10 eq_refl))).
Defined.

Lemma row_archive_keeps_parts_witness :
  rewriteSlides nameMapping sampleRow sampleZip = Ok anaZip
  ∧ dom anaZip = dom sampleZip.
Proof.
  assert (rewriteSlides nameMapping sampleRow sampleZip = Ok anaZip) as Hout
    by (vm_compute; reflexivity).
  exact (conj Hout (proj1 (row_archive_keeps_parts _ _ _ _ Hout))).
Defined.

Lemma nothing_mapped_witness :
  App.hasMappings (plainObject {[ lit "NAME" := None ]}) = false
  ∧ plainSlides sampleZip
  ∧ rewriteSlides (plainObject {[ lit "NAME" := None ]}) sampleRow sampleZip
    = Ok sampleZip.
Proof.
  assert (App.hasMappings (plainObject {[ lit "NAME" := None ]}) = false) as Hnone
    by (vm_compute; reflexivity).
  assert (plainSlides sampleZip) as Hplain by (unfold plainSlides; settle).
  exact (conj Hnone (conj Hplain
           (nothing_mapped_nothing_substituted _ sampleRow _ Hnone Hplain))).
Defined.

Lemma outer_archive_witness :
  (generateBatch (Package sampleZip) [sampleRow; sampleRow] nameMapping).1
  = Ok {[ lit "slide_1_Ana.pptx" := anaZip; lit "slide_2_Ana.pptx" := anaZip ]}
  ∧ (({[ lit "slide_1_Ana.pptx" := anaZip; lit "slide_2_Ana.pptx" := anaZip ]}
        : gmap jsstring Archive) !! lit "slide_2_Ana.pptx" = Some anaZip
     ↔ ∃ i row zip,
         [sampleRow; sampleRow] !! i = Some row ∧ Package sampleZip = Package zip
         ∧ fileName i row = Ok (lit "slide_2_Ana.pptx")
         ∧ rewriteSlides nameMapping row zip = Ok anaZip).
Proof.
  assert ((generateBatch (Package sampleZip) [sampleRow; sampleRow] nameMapping).1
          = Ok {[ lit "slide_1_Ana.pptx" := anaZip;
                  lit "slide_2_Ana.pptx" := anaZip ]}) as Hrun
    by (vm_compute; reflexivity).
  exact (conj Hrun
           (outer_archive_is_the_row_archives _ _ _ _ Hrun
              (lit "slide_2_Ana.pptx") anaZip)).
Defined.

Lemma batch_completes_witness :
  plainSlides sampleZip
  ∧ map_Forall (fun _ v => plainColumn v = true) (entries nameMapping)
  ∧ Forall (fun row => Forall (fun kv => isText kv.2 = true) row)
      [sampleRow; sampleRow]
  ∧ ∃ master,
      (generateBatch (Package sampleZip) [sampleRow; sampleRow] nameMapping).1
      = Ok master
      ∧ size master = length [sampleRow; sampleRow]
      ∧ progressCalls
          (generateBatch (Package sampleZip) [sampleRow; sampleRow] nameMapping).2
        = (fun j => (j, length [sampleRow; sampleRow]))
            <$> seq 1 (length [sampleRow; sampleRow]).
Proof.
  assert (plainSlides sampleZip) as H1 by (unfold plainSlides; settle).
  assert (map_Forall (fun _ v => plainColumn v = true) (entries nameMapping))
    as H2 by settle.
  assert (Forall (fun row : CsvRow => Forall (fun kv => isText kv.2 = true) row)
            [sampleRow; sampleRow]) as H3 by settle.
  exact (conj H1 (conj H2 (conj H3
           (batch_completes_on_plain_input sampleZip [sampleRow; sampleRow]
              nameMapping H1 H2 H3)))).
Defined.

Lemma non_string_value_witness :
  plainObject {[ lit "X" := Some (lit "__parsed_extra") ]} !! trim (lit " X ")
    = Some (Some (lit "__parsed_extra"))
  ∧ lit "__parsed_extra" ≠ []
  ∧ rowOwn [(lit "Name", Text (lit "Ana")); (lit "__parsed_extra", Extra [lit "b"])]
      (lit "__parsed_extra") = Some (Extra [lit "b"])
  ∧ replacer (plainObject {[ lit "X" := Some (lit "__parsed_extra") ]})
      [(lit "Name", Text (lit "Ana")); (lit "__parsed_extra", Extra [lit "b"])]
      (matchText (lit " X ")) (lit " X ")
    = Throw TypeError.
Proof.
  assert (plainObject {[ lit "X" := Some (lit "__parsed_extra") ]} !! trim (lit " X ")
          = Some (Some (lit "__parsed_extra"))) as Hmap by (vm_compute; reflexivity).
  assert (lit "__parsed_extra" ≠ []) as Hcol by done.
  assert (rowOwn [(lit "Name", Text (lit "Ana"));
                  (lit "__parsed_extra", Extra [lit "b"])]
            (lit "__parsed_extra") = Some (Extra [lit "b"])) as Hown
    by reflexivity.
  exact (conj Hmap (conj Hcol (conj Hown
           (proj1 (non_string_value_ends_batch _ _ _ _ Hmap Hcol
                     (or_introl (ex_intro _ [lit "b"] Hown))))))).
Defined.

Lemma auto_mapping_existing_columns_witness :
  App.autoMatch basicLatinLower [lit "NAME"; lit "ZIP"] (objectKeys sampleRow)
    !! lit "NAME" = Some (Some (lit "Name"))
  ∧ is_Some (rowOwn sampleRow (lit "Name")).
Proof.
  assert (App.autoMatch basicLatinLower [lit "NAME"; lit "ZIP"] (objectKeys sampleRow)
            !! lit "NAME" = Some (Some (lit "Name"))) as Hentry
    by (vm_compute; reflexivity).
  split; [exact Hentry|].
  exact (proj2 (proj2 (proj2 (proj2
           (auto_mapping_assigns_existing_columns _ _ _ _ _ Hentry)))) sampleRow eq_refl).
Defined.

Lemma generation_completes_witness :
  (generateBatch (Package sampleZip) [sampleRow; sampleRow] nameMapping).1
  = Ok {[ lit "slide_1_Ana.pptx" := anaZip; lit "slide_2_Ana.pptx" := anaZip ]}
  ∧ App.stats (App.handleGenerate false
                 (sampleState (Package sampleZip) (Parsed [])
                    [sampleRow; sampleRow] nameMapping))
    = {| total := 2; processed := 2; isProcessing := false; isComplete := true |}.
Proof.
  assert ((generateBatch (Package sampleZip) [sampleRow; sampleRow] nameMapping).1
          = Ok {[ lit "slide_1_Ana.pptx" := anaZip;
                  lit "slide_2_Ana.pptx" := anaZip ]}) as Hrun
    by (vm_compute; reflexivity).
  split; [exact Hrun|].
  exact (proj1 (generation_completes false
                  (sampleState (Package sampleZip) (Parsed [])
                     [sampleRow; sampleRow] nameMapping)
                  (Package sampleZip) sampleRow [sampleRow] _ eq_refl eq_refl
                  (or_introl eq_refl) Hrun)).
Defined.

Lemma generation_fails_witness :
  App.error (App.handleGenerate true
               (sampleState Corrupt (Parsed []) [sampleRow] ∅))
  = Some App.GenerateFailed.
Proof.
  exact (proj1 (generation_fails_on_corrupt_template true
                  (sampleState Corrupt (Parsed []) [sampleRow] ∅)
                  sampleRow [] eq_refl eq_refl (or_intror eq_refl))).
Defined.

(** The second row lacks the column [constructor] that the first row
    has: the batch stops at it, after the first row was completed. *)
Lemma generation_stops_witness :
  (generateBatch (Package sampleZip)
     [[(lit "constructor", Text (lit "Ana"))]; []]
     (plainObject {[ lit "NAME" := Some (lit "constructor") ]})).1
  = Throw TypeError
  ∧ App.error
      (App.handleGenerate true
         (sampleState (Package sampleZip) (Parsed [])
            [[(lit "constructor", Text (lit "Ana"))]; []]
            (plainObject {[ lit "NAME" := Some (lit "constructor") ]})))
    = Some App.GenerateFailed
  ∧ processed
      (App.stats
         (App.handleGenerate true
            (sampleState (Package sampleZip) (Parsed [])
               [[(lit "constructor", Text (lit "Ana"))]; []]
               (plainObject {[ lit "NAME" := Some (lit "constructor") ]}))))
    = 1%nat.
Proof.
  assert ((generateBatch (Package sampleZip)
             [[(lit "constructor", Text (lit "Ana"))]; []]
             (plainObject {[ lit "NAME" := Some (lit "constructor") ]})).1
          = Throw TypeError) as Hrun by (vm_compute; reflexivity).
  pose proof (generation_stops_at_failing_row true
                (sampleState (Package sampleZip) (Parsed [])
                   [[(lit "constructor", Text (lit "Ana"))]; []]
                   (plainObject {[ lit "NAME" := Some (lit "constructor") ]}))
                (Package sampleZip) [(lit "constructor", Text (lit "Ana"))] [[]]
                TypeError eq_refl eq_refl (or_intror eq_refl) Hrun)
    as (Herr & _ & _ & Hproc & _).
  split; [exact Hrun|]. split; [exact Herr|].
  rewrite Hproc. vm_compute. reflexivity.
Defined.

Lemma analysis_then_generation_witness :
  plainSlides sampleZip
  ∧ Forall (fun h => isInherited h = false) (objectKeys sampleRow)
  ∧ Forall (fun r => Forall (fun kv => isText kv.2 = true) r) [sampleRow; sampleRow]
  ∧ ∃ master,
      (generateBatch (Package sampleZip) [sampleRow; sampleRow]
         (App.autoMatch basicLatinLower (extractKeysFromPPTX (Package sampleZip))
            (objectKeys sampleRow))).1 = Ok master
      ∧ App.downloadUrl
          (App.handleGenerate true
             (App.analyzeFiles basicLatinLower
                (sampleState (Package sampleZip) (Parsed [sampleRow; sampleRow]) [] ∅)))
        = Some master
      ∧ size master = 2%nat
      ∧ isComplete
          (App.stats
             (App.handleGenerate true
                (App.analyzeFiles basicLatinLower
                   (sampleState (Package sampleZip) (Parsed [sampleRow; sampleRow])
                      [] ∅))))
        = true
      ∧ App.error
          (App.handleGenerate true
             (App.analyzeFiles basicLatinLower
                (sampleState (Package sampleZip) (Parsed [sampleRow; sampleRow]) [] ∅)))
        = None.
Proof.
  assert (plainSlides sampleZip) as H1 by (unfold plainSlides; settle).
  assert (Forall (fun h => isInherited h = false) (objectKeys sampleRow))
    as H2 by settle.
  assert (Forall (fun r : CsvRow => Forall (fun kv => isText kv.2 = true) r)
            [sampleRow; sampleRow]) as H3 by settle.
  exact (conj H1 (conj H2 (conj H3
           (analysis_then_generation basicLatinLower
              (sampleState (Package sampleZip) (Parsed [sampleRow; sampleRow]) [] ∅)
              sampleZip sampleRow [sampleRow] eq_refl eq_refl H1 H2 H3)))).
Defined.

Lemma corrupt_template_witness :
  App.error (App.analyzeFiles basicLatinLower
               (sampleState Corrupt (Parsed [sampleRow]) [] ∅)) = None
  ∧ App.error
      (App.handleGenerate true
         (App.analyzeFiles basicLatinLower
            (sampleState Corrupt (Parsed [sampleRow]) [] ∅)))
    = Some App.GenerateFailed.
Proof.
  pose proof (corrupt_template_fails_only_at_generation basicLatinLower
                (sampleState Corrupt (Parsed [sampleRow]) [] ∅) sampleRow []
                eq_refl eq_refl) as Hall.
  exact (conj (proj1 Hall) (proj2 (proj2 (proj2 (proj2 Hall))))).
Defined.

Lemma failed_analysis_witness :
  App.analyzeFiles basicLatinLower
    (sampleState (Package sampleZip) Rejected [sampleRow] nameMapping)
  = App.setError (Some App.AnalyzeFailed)
      (sampleState (Package sampleZip) Rejected [sampleRow] nameMapping).
Proof.
  exact (proj1 (failed_analysis_keeps_earlier_rows basicLatinLower
                  (sampleState (Package sampleZip) Rejected [sampleRow] nameMapping)
                  (Package sampleZip) Rejected sampleRow [] eq_refl eq_refl
                  (or_introl eq_refl) eq_refl)).
Defined.

Lemma substitution_idempotent_witness :
  Forall (fun kv : jsstring * Field => hasBrace kv.2 = false) sampleRow
  ∧ (out ← substituteContent nameMapping sampleRow (lit "{{NAME}} of {{ CITY }}");
     substituteContent nameMapping sampleRow out)
    = substituteContent nameMapping sampleRow (lit "{{NAME}} of {{ CITY }}").
Proof.
  assert (Forall (fun kv : jsstring * Field => hasBrace kv.2 = false) sampleRow)
    as Hrow by settle.
  exact (conj Hrow (substitution_is_idempotent _ _ _ Hrow)).
Defined.

Lemma fully_mapped_witness :
  Forall (fun kv : jsstring * Field => hasBrace kv.2 = false) sampleRow
  ∧ ∃ out,
      substituteContent
        (plainObject {[ lit "NAME" := Some (lit "Name");
                        lit "CITY" := Some (lit "City") ]})
        sampleRow (lit "{{NAME}} of {{ CITY }}") = Ok out
      ∧ captures (tokenize out) = []
      ∧ extractKeys out = [].
Proof.
  assert (Forall (fun kv : jsstring * Field => hasBrace kv.2 = false) sampleRow)
    as Hrow by settle.
  split; [exact Hrow|].
  refine (fully_mapped_text_has_no_placeholder_left _ _ _ Hrow _).
  change (captures (tokenize (lit "{{NAME}} of {{ CITY }}")))
    with [lit "NAME"; lit " CITY "].
  repeat constructor.
  - exists (lit "Name"), (lit "Ana"). split; [vm_compute; reflexivity|]. by split.
  - exists (lit "City"), (lit "Rio"). split; [vm_compute; reflexivity|]. by split.
Defined.

Lemma keys_off_first_slide_witness :
  (trim (lit "ZIP") ∉ extractKeysFromPPTX (Package sampleZip))
  ∧ isInherited (trim (lit "ZIP")) = false
  ∧ replacer
      (App.autoMatch basicLatinLower (extractKeysFromPPTX (Package sampleZip))
         [lit "Name"; lit "Zip"])
      [(lit "Name", Text (lit "Ana")); (lit "Zip", Text (lit "20000"))]
      (matchText (lit "ZIP")) (lit "ZIP")
    = Ok (matchText (lit "ZIP")).
Proof.
  assert (trim (lit "ZIP") ∉ extractKeysFromPPTX (Package sampleZip)) as Hout
    by settle.
  exact (conj Hout (conj eq_refl
           (keys_off_first_slide_are_left _ _ _ _ _ Hout eq_refl))).
Defined.

End MoreInstances.
